(** * DroneAudioApp: the microphone calibration pipeline of [core/calibration.py]

    A shallow embedding of [MicrophoneCalibrator] (alignment, frequency
    response analysis, persistence of the correction table and its
    application to new recordings) together with the properties the
    specification states about it.

    Conventions of the embedding.
    - A Python exception is a value of [error]; a method that can raise
      returns a [result].
    - The time-alignment code only adds, multiplies and compares samples, so
      it is written once over an arbitrary sample type (Section [Alignment])
      and run on integer samples, which binary64 represents exactly.
    - The spectral code ([numpy.fft]) is written over the real numbers: the
      discrete Fourier transform is the mathematical one and rounding is not
      modelled.  A zero magnitude in a denominator (numpy yields [inf] or
      [nan]) is outside this model: a factor is spoken of only at a bin where
      the microphone's magnitude is not zero, and a corrected recording only
      when every factor of its row is such a one.
    - The JSON text written by [json.dump] and read by [json.load] is a list
      of characters; the decimal rendering of a float is CPython's and is a
      parameter of the persistence code.
    - [core/recordings.py] and the script [callibrateMicrophones.py] follow
      the calibrator.  A WAV file is what [scipy.io.wavfile.read] returns for
      it, a sample rate and an array of integers of one type or of floats;
      a quotient of the normalisation is a number, an infinity or nan. *)

From Stdlib Require Import String Ascii.
From Stdlib Require Import List ZArith QArith Bool Arith Lia.
From Stdlib Require Import Reals Lra.
Import ListNotations.

Close Scope Q_scope.
Close Scope R_scope.
Open Scope nat_scope.

Set Implicit Arguments.

(** ** Exceptions and results *)

(** One constructor per [raise] site of [calibration.py], plus the
    exceptions that numpy, scipy and the interpreter raise on their own. *)
Inductive error : Type :=
| NotLoaded                      (* ValueError("Calibration data is not loaded.") *)
| InvalidDictFormat              (* ValueError("Invalid microphone dictionary format. ...") *)
| ListInputWarning               (* Warning("Audio input is in list form. ...") *)
| ShapeMismatch                  (* ValueError("Mismatch between the number of channels ...") *)
| BadDimensionality              (* ValueError("mic_recordings should be a list or 2D numpy array.") *)
| MissingField (channel : string)(* ValueError(f"Missing microphone number for {channel_name}.") *)
| OutOfRange (mic_number : Z)    (* ValueError(f"Invalid or out-of-range microphone number: {mic_number + 1}.") *)
| FileNotFound (path : string)   (* FileNotFoundError(f"Calibration file not found: {filepath}") *)
| JSONDecodeError                (* raised by json.load *)
| EmptyInput                     (* ValueError of numpy.convolve / numpy.argmax on an empty array *)
| InvalidFFTLength               (* ValueError("Invalid number of FFT data points ...") of numpy.fft *)
| IndexError                     (* index out of range: a list index, or column 0 of a width-0 array *)
| ZeroDivisionError.             (* 1 / sample_rate with sample_rate == 0 *)

Inductive result (A : Type) : Type :=
| Ok (a : A)
| Err (e : error).
Arguments Ok {A} a.
Arguments Err {A} e.

Definition bind {A B : Type} (r : result A) (k : A -> result B) : result B :=
  match r with
  | Ok a => k a
  | Err e => Err e
  end.

Declare Scope result_scope.
Delimit Scope result_scope with result.
Notation "x <- r ;; k" := (bind r (fun x => k))
  (at level 61, r at next level, right associativity) : result_scope.
Open Scope result_scope.

(** A [for] loop that appends one value per element and stops at the first
    exception. *)
Fixpoint for_each {A B : Type} (body : A -> result B) (l : list A) : result (list B) :=
  match l with
  | [] => Ok []
  | a :: l' =>
      b <- body a ;;
      bs <- for_each body l' ;;
      Ok (b :: bs)
  end.

(** [enumerate(l)]. *)
Definition enumerate {A : Type} (l : list A) : list (nat * A) :=
  combine (seq 0 (length l)) l.

(** ** numpy arrays of one or two dimensions *)

Section Arrays.
Variable T : Type.

(** A one-dimensional array is its list of elements.  A two-dimensional
    array of shape [(len rows, ncols)] is its list of rows; the width is
    kept aside because an array may have no row. *)
Inductive ndarray : Type :=
| Arr1 (elems : list T)
| Arr2 (ncols : nat) (rows : list (list T)).

(** [len(a)]: the extent of the first axis. *)
Definition len (a : ndarray) : nat :=
  match a with Arr1 l => length l | Arr2 _ rows => length rows end.

Variable zero : T.

(** [a[:, idx]] on a two-dimensional array. *)
Definition column (ncols : nat) (rows : list (list T)) (idx : nat) : result (list T) :=
  if idx <? ncols then Ok (map (fun r => nth idx r zero) rows) else Err IndexError.

(** [np.pad(a, (before, after), mode='constant')]. *)
Definition np_pad (a : list T) (before after : nat) : list T :=
  repeat zero before ++ a ++ repeat zero after.

(** [np.transpose] of the array built from [cols], a list of equally long
    one-dimensional arrays: row [j] collects entry [j] of every column. *)
Definition transpose (nrows : nat) (cols : list (list T)) : list (list T) :=
  map (fun j => map (fun c => nth j c zero) cols) (seq 0 nrows).
End Arrays.

Arguments Arr1 {T} elems.
Arguments Arr2 {T} ncols rows.

(** ** Time alignment: [align_signals] *)

Section Alignment.
Variable T : Type.
Variable zero : T.
Variable add mul : T -> T -> T.
(** [gtb a b] is the comparison [a > b] that [np.argmax] uses. *)
Variable gtb : T -> T -> bool.

Definition at_index (x : list T) (i : Z) : T :=
  if (i <? 0)%Z then zero else nth (Z.to_nat i) x zero.

Definition sum (l : list T) : T := fold_right add zero l.

(** Entry [j] of the full cross-correlation of [x] against [y]:
    the lag is [j - (len(y) - 1)], and
    [z[j] = sum_l x[l + lag] * y[l]] with [x] zero outside its range. *)
Definition correlate_at (x y : list T) (j : nat) : T :=
  let lag := (Z.of_nat j - (Z.of_nat (length y) - 1))%Z in
  sum (map (fun l => mul (at_index x (Z.of_nat l + lag)) (nth l y zero))
           (seq 0 (length y))).

(** [scipy.signal.correlate(x, y, mode='full')] on one-dimensional real
    arrays: [len(x) + len(y) - 1] entries; an empty operand raises. *)
Definition correlate (x y : list T) : result (list T) :=
  match x, y with
  | [], _ | _, [] => Err EmptyInput
  | _, _ => Ok (map (correlate_at x y) (seq 0 (length x + length y - 1)))
  end.

(** Scan of [np.argmax]: the first index holding the greatest value. *)
Fixpoint argmax_from (best_i : nat) (best : T) (i : nat) (l : list T) : nat :=
  match l with
  | [] => best_i
  | v :: l' =>
      if gtb v best then argmax_from i v (S i) l'
      else argmax_from best_i best (S i) l'
  end.

Definition argmax (l : list T) : result nat :=
  match l with
  | [] => Err EmptyInput
  | v :: l' => Ok (argmax_from 0 v 1 l')
  end.

(** [if a.ndim > 1: a = a[:, 0]]. *)
Definition first_channel (a : ndarray T) : result (list T) :=
  match a with
  | Arr1 l => Ok l
  | Arr2 ncols rows => column zero ncols rows 0
  end.

(** Body of the loop of [align_signals] for one microphone signal;
    [ref_signal] is already one-dimensional. *)
Definition align_one (ref_signal : list T) (mic : ndarray T) : result (list T) :=
  mic_signal <- first_channel mic ;;
  correlation <- correlate mic_signal ref_signal ;;
  peak <- argmax correlation ;;
  let offset := (Z.of_nat peak - Z.of_nat (length ref_signal))%Z in
  let aligned_signal :=
    if (offset >? 0)%Z then skipn (Z.to_nat offset) mic_signal
    else np_pad zero mic_signal (Z.abs_nat offset) 0 in
  let aligned_signal := firstn (length ref_signal) aligned_signal in
  Ok (np_pad zero aligned_signal 0 (length ref_signal - length aligned_signal)).

Definition align_signals (ref : ndarray T) (mic_signals : list (ndarray T))
  : result (list (list T)) :=
  ref_signal <- first_channel ref ;;
  for_each (align_one ref_signal) mic_signals.
End Alignment.

(** Integer samples. *)
Definition alignZ := align_signals 0%Z Z.add Z.mul Z.gtb.

(** ** Spectral primitives: [numpy.fft] over the reals *)

(** A complex number is its real and imaginary part. *)
Definition C : Type := (R * R)%type.

Definition Cre (z : C) : R := fst z.
Definition Cim (z : C) : R := snd z.
Definition Czero : C := (0, 0)%R.
Definition Cadd (z w : C) : C := (Cre z + Cre w, Cim z + Cim w)%R.
Definition Cmul (z w : C) : C :=
  (Cre z * Cre w - Cim z * Cim w, Cre z * Cim w + Cim z * Cre w)%R.
(** Product of a real and a complex number. *)
Definition Cscale (r : R) (z : C) : C := (r * Cre z, r * Cim z)%R.
(** [np.abs] of a complex number. *)
Definition Cabs (z : C) : R := sqrt (Cre z * Cre z + Cim z * Cim z).
Definition Csum (l : list C) : C := fold_right Cadd Czero l.
Definition Rsum (l : list R) : R := fold_right Rplus 0%R l.

(** [exp(i t)]. *)
Definition cis (t : R) : C := (cos t, sin t).

(** Angle [2 pi j k / n] of the twiddle factors of a transform of length [n]. *)
Definition angle (n j k : nat) : R := (2 * PI * INR j * INR k / INR n)%R.

(** numpy brings the input of a transform to the requested length: it is cut
    when longer and filled with zeros when shorter. *)
Definition fit {A : Type} (zero : A) (n : nat) (a : list A) : list A :=
  firstn n a ++ repeat zero (n - length a).

(** Bin [k] of the discrete Fourier transform of the [n] samples [x]:
    [sum_j x[j] exp(-2 pi i j k / n)]. *)
Definition dft_bin (n : nat) (x : list R) (k : nat) : C :=
  Csum (map (fun j => Cscale (nth j x 0%R) (cis (- angle n j k))) (seq 0 n)).

(** [np.fft.rfft(a, n)]: the bins [0 .. n//2] of the transform of [a] brought
    to length [n]; [n < 1] raises. *)
Definition rfft (a : list R) (n : Z) : result (list C) :=
  if (n <? 1)%Z then Err InvalidFFTLength
  else
    let n := Z.to_nat n in
    Ok (map (dft_bin n (fit 0%R n a)) (seq 0 (n / 2 + 1))).

(** Weight of bin [k] in the inverse real transform of length [n]: the bins
    strictly between 0 and [n/2] stand for themselves and their conjugate. *)
Definition bin_weight (n k : nat) : R :=
  if (k =? 0) || (2 * k =? n) then 1%R else 2%R.

(** Sample [j] of the inverse real transform of length [n] of the bins [y]. *)
Definition idft_sample (n : nat) (y : list C) (j : nat) : R :=
  (/ INR n *
   Rsum (map (fun k => bin_weight n k * Cre (Cmul (nth k y Czero) (cis (angle n j k))))
             (seq 0 (n / 2 + 1))))%R.

(** [np.fft.irfft(a, n)]: [n] real samples from the first [n//2 + 1] bins of
    [a] (cut or zero-filled to that count); the imaginary parts of bin 0 and,
    for even [n], of bin [n/2] do not contribute; [n < 1] raises. *)
Definition irfft (a : list C) (n : Z) : result (list R) :=
  if (n <? 1)%Z then Err InvalidFFTLength
  else
    let n := Z.to_nat n in
    Ok (map (idft_sample n (fit Czero (n / 2 + 1) a)) (seq 0 n)).

(** [np.fft.rfftfreq(n, d)]: [k * (1 / (n * d))] for [k = 0 .. n//2]. *)
Definition rfftfreq (n : nat) (d : R) : list R :=
  map (fun k => (INR k * (1 / (INR n * d)))%R) (seq 0 (n / 2 + 1)).

(** [np.resize(a, (m,))]: [a] repeated cyclically up to [m] entries; zeros
    when [a] is empty. *)
Definition np_resize (a : list R) (m : nat) : list R :=
  match a with
  | [] => repeat 0%R m
  | _ => map (fun i => nth (i mod length a) a 0%R) (seq 0 m)
  end.

(** Element-wise operation on two arrays of one shape. *)
Fixpoint zip_with {A B D : Type} (f : A -> B -> D) (l : list A) (l' : list B) : list D :=
  match l, l' with
  | a :: t, b :: t' => f a b :: zip_with f t t'
  | _, _ => []
  end.

(** [l[i]] for a Python integer [i]: negative indices count from the end. *)
Definition py_index {A : Type} (l : list A) (i : Z) : result A :=
  let i' := if (i <? 0)%Z then (i + Z.of_nat (length l))%Z else i in
  if (i' <? 0)%Z then Err IndexError
  else match nth_error l (Z.to_nat i') with
       | Some a => Ok a
       | None => Err IndexError
       end.

(** ** The calibrator *)

(** [calibration_data] once filled: the two entries of the dictionary. *)
Record table (A : Type) : Type := Table {
  frequency_bins : list A;
  calibration_factors : list (list A)
}.
Arguments Table {A} _ _.

(** [self]: the empty dictionary [{}] of [__init__] is [None]. *)
Record MicrophoneCalibrator : Type := Calibrator {
  ref_mic_index : Z;
  calibration_data : option (table R)
}.

(** [MicrophoneCalibrator(ref_mic_index)]. *)
Definition init (ref_mic_index : Z) : MicrophoneCalibrator :=
  Calibrator ref_mic_index None.

(** [analyze_frequency_response]; returns [self] with its new
    [calibration_data].  [cal_factor] is the quotient of two real numbers:
    where [mic_fft] is zero numpy stores [inf] or [nan], which a table of
    real numbers cannot hold, and the entry of the model at such a bin is
    not the code's. *)
Definition analyze_frequency_response (self : MicrophoneCalibrator)
    (mic_recordings : list (list R)) (sample_rate : Z) : result MicrophoneCalibrator :=
  ref_response <- py_index mic_recordings (ref_mic_index self) ;;
  ref_spectrum <- rfft ref_response (Z.of_nat (length ref_response)) ;;
  let ref_fft := map Cabs ref_spectrum in
  calibration_factors <-
    for_each (fun mic_response =>
                mic_spectrum <- rfft mic_response (Z.of_nat (length ref_response)) ;;
                let mic_fft := map Cabs mic_spectrum in
                let cal_factor := zip_with Rdiv ref_fft mic_fft in
                Ok cal_factor)
             mic_recordings ;;
  if (sample_rate =? 0)%Z then Err ZeroDivisionError
  else
    let frequency_bins := rfftfreq (length ref_response) (1 / IZR sample_rate)%R in
    Ok (Calibrator (ref_mic_index self) (Some (Table frequency_bins calibration_factors))).

(** Body of the loop of [apply_calibration_folder] for the recording at
    position [i]. *)
Definition folder_body (data : table R) (entry : nat * list R) : result (list R) :=
  let '(i, mic_response) := entry in
  let frequency_bins := frequency_bins data in
  mic_fft <- rfft mic_response (Z.of_nat (length frequency_bins) * 2 - 1) ;;
  row <- py_index (calibration_factors data) (Z.of_nat i) ;;
  let calibration_factor := np_resize row (length mic_fft) in
  let calibrated_fft := zip_with Cscale calibration_factor mic_fft in
  irfft calibrated_fft (Z.of_nat (length mic_response)).

(** [apply_calibration_folder]: one recording per microphone, in microphone
    order. *)
Definition apply_calibration_folder (self : MicrophoneCalibrator)
    (mic_recordings : list (list R)) (sample_rate : Z) : result (list (list R)) :=
  match calibration_data self with
  | None => Err NotLoaded
  | Some data =>
      for_each (folder_body data) (enumerate mic_recordings)
  end.

(** The [mic_recordings] argument of [apply_calibration_file] as the code
    tells it apart: a Python list or a numpy array. *)
Inductive recordings : Type :=
| AsList (l : list (list R))
| AsArray (a : ndarray R).

(** One value of the microphone dictionary.  [mic_number] is a number as the
    user interface and the metadata file give it (a float, here a rational);
    [None] when the key is absent. *)
Record mic_info : Type := MicInfo {
  mic_number : option Q;
  location : option (Q * Q * Q)
}.

(** The [mic_dict] argument: a dictionary, in insertion order, or anything
    else. *)
Inductive mic_dict_arg : Type :=
| NotADict
| Dict (items : list (string * mic_info)).

(** [int(x)] on a number: truncation toward zero. *)
Definition int (x : Q) : Z := Z.quot (Qnum x) (Zpos (Qden x)).

(** [np.array(calibrated_recordings)] followed by [np.transpose], for
    [calibrated_recordings] a list of one-dimensional arrays of [nsamples]
    entries each. *)
Definition to_transposed_array (nsamples : nat) (calibrated_recordings : list (list R))
  : ndarray R :=
  match calibrated_recordings with
  | [] => Arr1 []
  | _ => Arr2 (length calibrated_recordings) (transpose 0%R nsamples calibrated_recordings)
  end.

(** Body of the loop of [apply_calibration_file] for channel [idx]. *)
Definition calibrate_channel (data : table R) (ncols : nat) (rows : list (list R))
    (entry : nat * (string * mic_info)) : result (list R) :=
  let '(idx, (channel_name, mic_info)) := entry in
  match mic_number mic_info with
  | None => Err (MissingField channel_name)
  | Some number =>
      let mic_number := (int number - 1)%Z in
      if (mic_number <? 0)%Z || (mic_number >=? Z.of_nat (length (calibration_factors data)))%Z
      then Err (OutOfRange (mic_number + 1))
      else
        mic_response <- column 0%R ncols rows idx ;;
        mic_fft <- rfft mic_response (Z.of_nat (length (frequency_bins data)) * 2 - 1) ;;
        row <- py_index (calibration_factors data) mic_number ;;
        let calibration_factor := np_resize row (length mic_fft) in
        let calibrated_fft := zip_with Cscale calibration_factor mic_fft in
        irfft calibrated_fft (Z.of_nat (length mic_response))
  end.

(** [apply_calibration_file]: a recording of shape [(samples, channels)] and
    the dictionary that names the microphone of every channel. *)
Definition apply_calibration_file (self : MicrophoneCalibrator)
    (mic_recordings : recordings) (sample_rate : Z) (mic_dict : mic_dict_arg)
  : result (ndarray R) :=
  match calibration_data self with
  | None => Err NotLoaded
  | Some data =>
      match mic_dict with
      | NotADict => Err InvalidDictFormat
      | Dict items =>
          let num_channels := length (map fst items) in
          match mic_recordings with
          | AsList _ => Err ListInputWarning
          | AsArray (Arr2 ncols rows) =>
              if negb (ncols =? num_channels) then Err ShapeMismatch
              else
                calibrated_recordings <-
                  for_each (calibrate_channel data ncols rows) (enumerate items) ;;
                Ok (to_transposed_array (length rows) calibrated_recordings)
          | AsArray (Arr1 _) => Err BadDimensionality
          end
      end
  end.

(** ** Persistence: [save_calibration] and [load_calibration] *)

(** The content of a file, and the files by path. *)
Definition text : Type := list ascii.
Definition filesystem : Type := string -> option text.

Definition write_file (fs : filesystem) (path : string) (content : text) : filesystem :=
  fun p => if String.eqb p path then Some content else fs p.

Definition is_ws (c : ascii) : bool :=
  match c with
  | " "%char | "009"%char | "010"%char | "013"%char => true
  | _ => false
  end.

(** Characters that occur in the decimal rendering of a number. *)
Definition is_number_char (c : ascii) : bool :=
  match c with
  | "0"%char | "1"%char | "2"%char | "3"%char | "4"%char
  | "5"%char | "6"%char | "7"%char | "8"%char | "9"%char
  | "-"%char | "+"%char | "."%char | "e"%char | "E"%char => true
  | _ => false
  end.

(** Characters that [json.dump] writes unescaped inside a string. *)
Definition is_plain_char (c : ascii) : bool :=
  (32 <=? nat_of_ascii c) && (nat_of_ascii c <? 127) &&
  negb (Ascii.eqb c "034"%char) && negb (Ascii.eqb c "092"%char).

Fixpoint skip_ws (s : text) : text :=
  match s with
  | c :: rest => if is_ws c then skip_ws rest else s
  | [] => []
  end.

(** Longest prefix of characters satisfying [p], and what follows. *)
Fixpoint span (p : ascii -> bool) (s : text) : text * text :=
  match s with
  | c :: rest =>
      if p c then let (tok, rest') := span p rest in (c :: tok, rest')
      else ([], s)
  | [] => ([], [])
  end.

(** A string after its opening quote, up to the closing quote; an escape
    sequence or a control character is outside the modelled fragment. *)
Fixpoint scan_string (s : text) : option (text * text) :=
  match s with
  | [] => None
  | c :: rest =>
      if Ascii.eqb c "034"%char then Some ([], rest)
      else if is_plain_char c then
             match scan_string rest with
             | Some (k, rest') => Some (c :: k, rest')
             | None => None
             end
           else None
  end.

(** [s] without its prefix [prefix], when it starts with it. *)
Fixpoint strip_prefix (prefix s : text) : option text :=
  match prefix, s with
  | [], _ => Some s
  | p :: prefix', c :: s' => if Ascii.eqb p c then strip_prefix prefix' s' else None
  | _ :: _, [] => None
  end.

(** [sep.join(parts)]. *)
Fixpoint join (sep : text) (parts : list text) : text :=
  match parts with
  | [] => []
  | [p] => p
  | p :: rest => p ++ sep ++ join sep rest
  end.

Inductive float_class : Type := Finite | NaN | PosInfinity | NegInfinity.

(** What may follow a value in a document. *)
Definition is_delimiter (c : ascii) : bool :=
  Ascii.eqb c ","%char || Ascii.eqb c "]"%char || Ascii.eqb c "}"%char || is_ws c.

Definition delimited (rest : text) : bool :=
  match rest with
  | [] => true
  | c :: _ => is_delimiter c
  end.

(** A character that starts the rendering of a value. *)
Definition value_start (c : ascii) : bool :=
  Ascii.eqb c "["%char || Ascii.eqb c "{"%char || is_number_char c.

(** Python floats as [json] sees them: their class, the three values that are
    not finite, and the two conversions of CPython, [float.__repr__] and
    [float(s)]. *)
Record float_codec (F : Type) : Type := FloatCodec {
  classify : F -> float_class;
  nan : F;
  pos_infinity : F;
  neg_infinity : F;
  float_repr : F -> text;
  float_of_string : text -> option F
}.

Section Document.
Variable F : Type.
Variable codec : float_codec F.

(** The Python objects that a calibration file holds: floats, lists and
    dictionaries with string keys. *)
Unset Elimination Schemes.
Inductive json : Type :=
| JNumber (x : F)
| JArray (items : list json)
| JObject (members : list (text * json)).
Set Elimination Schemes.

(** [floatstr] of [json.encoder]. *)
Definition floatstr (x : F) : text :=
  match classify codec x with
  | NaN => list_ascii_of_string "NaN"
  | PosInfinity => list_ascii_of_string "Infinity"
  | NegInfinity => list_ascii_of_string "-Infinity"
  | Finite => float_repr codec x
  end.

Definition item_separator : text := list_ascii_of_string ", ".
Definition key_separator : text := list_ascii_of_string ": ".

(** [json.dumps(v)] with the default separators; keys are written between
    quotes as they are (they need no escape in a calibration file). *)
Fixpoint encode (v : json) : text :=
  match v with
  | JNumber x => floatstr x
  | JArray items =>
      "["%char :: join item_separator (map encode items) ++ ["]"%char]
  | JObject members =>
      "{"%char ::
      join item_separator
           (map (fun m => "034"%char :: fst m ++ "034"%char :: key_separator ++ encode (snd m))
                members)
      ++ ["}"%char]
  end.

(** The scanner of [json.decoder] on the fragment above.  A number token is
    the longest run of number characters, read by [float]; the constants
    [NaN], [Infinity] and [-Infinity] are tried when no number is read. *)
Fixpoint parse_value (fuel : nat) (s : text) : option (json * text) :=
  match fuel with
  | 0 => None
  | S fuel =>
      match s with
      | [] => None
      | c :: rest =>
          if Ascii.eqb c "["%char then
            match skip_ws rest with
            | [] => None
            | c' :: rest' =>
                if Ascii.eqb c' "]"%char then Some (JArray [], rest')
                else
                  match parse_items fuel (c' :: rest') with
                  | Some (items, rest'') => Some (JArray items, rest'')
                  | None => None
                  end
            end
          else if Ascii.eqb c "{"%char then
            match skip_ws rest with
            | [] => None
            | c' :: rest' =>
                if Ascii.eqb c' "}"%char then Some (JObject [], rest')
                else
                  match parse_members fuel (c' :: rest') with
                  | Some (members, rest'') => Some (JObject members, rest'')
                  | None => None
                  end
            end
          else
            let (token, rest') := span is_number_char s in
            match match token with [] => None | _ => float_of_string codec token end with
            | Some x => Some (JNumber x, rest')
            | None =>
                match strip_prefix (list_ascii_of_string "NaN") s with
                | Some rest' => Some (JNumber (nan codec), rest')
                | None =>
                    match strip_prefix (list_ascii_of_string "Infinity") s with
                    | Some rest' => Some (JNumber (pos_infinity codec), rest')
                    | None =>
                        match strip_prefix (list_ascii_of_string "-Infinity") s with
                        | Some rest' => Some (JNumber (neg_infinity codec), rest')
                        | None => None
                        end
                    end
                end
            end
      end
  end
with parse_items (fuel : nat) (s : text) : option (list json * text) :=
  match fuel with
  | 0 => None
  | S fuel =>
      match parse_value fuel s with
      | None => None
      | Some (v, rest) =>
          match skip_ws rest with
          | [] => None
          | c :: rest' =>
              if Ascii.eqb c ","%char then
                match parse_items fuel (skip_ws rest') with
                | Some (vs, rest'') => Some (v :: vs, rest'')
                | None => None
                end
              else if Ascii.eqb c "]"%char then Some ([v], rest')
              else None
          end
      end
  end
(* The entries of a dictionary, in the order of the text.  A text that names
   a key twice, of which [json.load] keeps the last value, is none that
   [json.dump] writes. *)
with parse_members (fuel : nat) (s : text) : option (list (text * json) * text) :=
  match fuel with
  | 0 => None
  | S fuel =>
      match s with
      | [] => None
      | q :: rest =>
          if negb (Ascii.eqb q "034"%char) then None
          else
            match scan_string rest with
            | None => None
            | Some (key, rest') =>
                match skip_ws rest' with
                | [] => None
                | c :: rest'' =>
                    if negb (Ascii.eqb c ":"%char) then None
                    else
                      match parse_value fuel (skip_ws rest'') with
                      | None => None
                      | Some (v, rest3) =>
                          match skip_ws rest3 with
                          | [] => None
                          | d :: rest4 =>
                              if Ascii.eqb d ","%char then
                                match parse_members fuel (skip_ws rest4) with
                                | Some (ms, rest5) => Some ((key, v) :: ms, rest5)
                                | None => None
                                end
                              else if Ascii.eqb d "}"%char then Some ([(key, v)], rest4)
                              else None
                          end
                      end
                end
            end
      end
  end.

(** [json.loads(s)]: one value, surrounded by optional white space. *)
Definition decode (s : text) : option json :=
  match parse_value (S (length s)) (skip_ws s) with
  | Some (v, rest) =>
      match skip_ws rest with
      | [] => Some v
      | _ => None
      end
  | None => None
  end.

(** [calibration_data] as the Python object that is written: the empty
    dictionary before a table is built or loaded, then the dictionary with the
    two entries in the order [analyze_frequency_response] creates them. *)
Definition document (data : option (table F)) : json :=
  match data with
  | None => JObject []
  | Some t =>
      JObject
        [(list_ascii_of_string "frequency_bins", JArray (map JNumber (frequency_bins t)));
         (list_ascii_of_string "calibration_factors",
          JArray (map (fun row => JArray (map JNumber row)) (calibration_factors t)))]
  end.

(** [save_calibration]: the file at [filepath] is created or replaced. *)
Definition save_calibration (calibration_data : option (table F)) (filepath : string)
    (fs : filesystem) : filesystem :=
  write_file fs filepath (encode (document calibration_data)).

(** [load_calibration]: the new value of [calibration_data], as the Python
    object read from the file. *)
Definition load_calibration (filepath : string) (fs : filesystem) : result json :=
  match fs filepath with
  | Some content =>
      match decode content with
      | Some v => Ok v
      | None => Err JSONDecodeError
      end
  | None => Err (FileNotFound filepath)
  end.

Definition is_finite (x : F) : bool :=
  match classify codec x with Finite => true | _ => false end.

(** Every bin and every factor of the table is a finite float. *)
Definition table_finite (t : table F) : bool :=
  forallb is_finite (frequency_bins t) &&
  forallb (forallb is_finite) (calibration_factors t).

(** Every float of the document is finite and every key is written without
    escapes. *)
Fixpoint json_finite (v : json) : bool :=
  match v with
  | JNumber x => is_finite x
  | JArray items => forallb json_finite items
  | JObject members =>
      forallb (fun m => forallb is_plain_char (fst m) && json_finite (snd m)) members
  end.

(** Fuel that the scanner needs for a value. *)
Fixpoint json_size (v : json) : nat :=
  match v with
  | JNumber _ => 1
  | JArray items => S (list_sum (map S (map json_size items)))
  | JObject members => S (list_sum (map S (map (fun m => json_size (snd m)) members)))
  end.

(** One [key: value] entry of a dictionary as it is written. *)
Definition encode_member (m : text * json) : text :=
  "034"%char :: fst m ++ "034"%char :: key_separator ++ encode (snd m).

(** The scanner reads back the rendering of [v], whatever delimiter
    follows. *)
Definition parses (v : json) : Prop :=
  json_finite v = true ->
  forall fuel rest, json_size v <= fuel -> delimited rest = true ->
  parse_value fuel (encode v ++ rest) = Some (v, rest).

(** What CPython guarantees for a finite float [x]: [float(repr(x)) == x],
    and [repr(x)] is a non-empty decimal rendering. *)
Definition codec_faithful : Prop :=
  forall x, classify codec x = Finite ->
            float_of_string codec (float_repr codec x) = Some x /\
            float_repr codec x <> [] /\
            forallb is_number_char (float_repr codec x) = true.
End Document.

Arguments JNumber {F} x.
Arguments JArray {F} items.
Arguments JObject {F} members.
Arguments json_size {F} v.

(** A handful of floats with their [repr], to run the persistence code. *)
Inductive sample_float : Type :=
| f_zero | f_one | f_half | f_1000_5 | f_neg_2e_05 | f_1e16 | f_nan | f_inf | f_neg_inf.

Definition sample_classify (x : sample_float) : float_class :=
  match x with
  | f_nan => NaN
  | f_inf => PosInfinity
  | f_neg_inf => NegInfinity
  | _ => Finite
  end.

Definition sample_repr (x : sample_float) : text :=
  list_ascii_of_string
    match x with
    | f_zero => "0.0"
    | f_one => "1.0"
    | f_half => "0.5"
    | f_1000_5 => "1000.5"
    | f_neg_2e_05 => "-2e-05"
    | f_1e16 => "1e+16"
    | f_nan => "nan"
    | f_inf => "inf"
    | f_neg_inf => "-inf"
    end.

Definition sample_of_string (s : text) : option sample_float :=
  let s := string_of_list_ascii s in
  if String.eqb s "0.0" then Some f_zero
  else if String.eqb s "1.0" then Some f_one
  else if String.eqb s "0.5" then Some f_half
  else if String.eqb s "1000.5" then Some f_1000_5
  else if String.eqb s "-2e-05" then Some f_neg_2e_05
  else if String.eqb s "1e+16" then Some f_1e16
  else None.

Definition sample_codec : float_codec sample_float :=
  FloatCodec sample_classify f_nan f_inf f_neg_inf sample_repr sample_of_string.

Definition sample_table : table sample_float :=
  Table [f_zero; f_1000_5] [[f_one; f_half]; [f_neg_2e_05; f_1e16]].

(** A string between quotes. *)
Definition quoted (s : string) : text :=
  "034"%char :: list_ascii_of_string s ++ ["034"%char].

(** ** Notions used in the statements *)

(** Sum of integers, as [sum] computes it. *)
Definition Zsum (l : list Z) : Z := sum 0%Z Z.add l.

(** An integer signal extended by zeros on both sides. *)
Definition zext (x : list Z) (i : Z) : Z := at_index 0%Z x i.

(** Correlation of [x] with itself at lag [d]. *)
Definition autocorrelation (x : list Z) (d : Z) : Z :=
  Zsum (map (fun l => (zext x (Z.of_nat l + d) * zext x (Z.of_nat l))%Z) (seq 0 (length x))).

(** The reference delayed by [k] samples, followed by [p] zeros. *)
Definition delayed (k p : nat) (ref : list Z) : list Z :=
  repeat 0%Z k ++ ref ++ repeat 0%Z p.

(** Magnitude of bin [k] of the real-input transform of [x] at length [n]:
    the specification's [|FFT_x(f)|]. *)
Definition magnitude (n : nat) (x : list R) (k : nat) : R :=
  Cabs (dft_bin n (fit 0%R n x) k).

(** The per-channel correction that both entry points perform: transform at
    length [2 * len(frequency_bins) - 1], multiply by the resized factor row,
    transform back to [len(mic_response)] samples. *)
Definition correction_core (nbins : nat) (row mic_response : list R) : result (list R) :=
  mic_fft <- rfft mic_response (Z.of_nat nbins * 2 - 1) ;;
  irfft (zip_with Cscale (np_resize row (length mic_fft)) mic_fft)
        (Z.of_nat (length mic_response)).

(** [a[:, idx]] on an array of any dimension. *)
Definition channel (a : ndarray R) (idx : nat) : result (list R) :=
  match a with
  | Arr2 ncols rows => column 0%R ncols rows idx
  | Arr1 _ => Err IndexError
  end.

(** The dictionary value carries a number whose truncation names one of the
    [n] calibrated microphones. *)
Definition entry_in_range (n : nat) (info : mic_info) : bool :=
  match mic_number info with
  | Some x => (1 <=? int x)%Z && (int x <=? Z.of_nat n)%Z
  | None => false
  end.

(** A table of two bins for two microphones, a recording of three samples on
    two channels, and a dictionary that swaps the two microphones. *)
Definition example_table : table R := Table [0; 1]%R [[1; 1]; [2; 2]]%R.
Definition example_self : MicrophoneCalibrator := Calibrator 1 (Some example_table).
Definition example_recording : list (list R) := [[1; 2]; [3; 4]; [5; 6]]%R.
Definition example_dict : list (string * mic_info) :=
  [("channel_1"%string, MicInfo (Some (inject_Z 2)) None);
   ("channel_2"%string, MicInfo (Some (inject_Z 1)) None)].

(** Distance between two bin indices. *)
Definition dist (k m : nat) : nat := (k - m) + (m - k).

(** ** [core/recordings.py]: reading and normalising recordings *)

(** The exceptions of [recordings.py]. *)
Inductive recordings_error : Type :=
| NotOneDimensional     (* ValueError("Each channel must be a 1D numpy array") *)
| ZeroSizeReduction     (* ValueError of np.max on an array without element *)
| WavFileNotFound       (* ValueError("File not found") *)
| UnboundLocalError     (* local variable 'rate' referenced before assignment *)
| RateZeroDivision.     (* ZeroDivisionError of num_samples / rate *)

Inductive outcome (A : Type) : Type :=
| Returns (a : A)
| Raises (e : recordings_error).
Arguments Returns {A} a.
Arguments Raises {A} e.

Definition and_then {A B : Type} (r : outcome A) (k : A -> outcome B) : outcome B :=
  match r with
  | Returns a => k a
  | Raises e => Raises e
  end.

(** The integer sample formats in which [scipy.io.wavfile.read] returns a
    file. *)
Inductive dtype : Type := uint8 | int16 | int32 | int64.

Definition int_min (dt : dtype) : Z :=
  match dt with
  | uint8 => 0
  | int16 => -32768
  | int32 => -2147483648
  | int64 => -9223372036854775808
  end.

Definition int_max (dt : dtype) : Z :=
  match dt with
  | uint8 => 255
  | int16 => 32767
  | int32 => 2147483647
  | int64 => 9223372036854775807
  end.

(** [np.abs] on an integer of type [dt]: the most negative value of a signed
    type has no positive counterpart and comes back as it is. *)
Definition np_abs_int (dt : dtype) (z : Z) : Z :=
  if (z =? int_min dt)%Z then z else Z.abs z.

(** The samples of a file, or of a channel: integers of one type, or
    floats. *)
Inductive audio : Type :=
| IntAudio (dt : dtype) (a : ndarray Z)
| FloatAudio (a : ndarray R).

Definition map_array {A B : Type} (f : A -> B) (a : ndarray A) : ndarray B :=
  match a with
  | Arr1 l => Arr1 (map f l)
  | Arr2 ncols rows => Arr2 ncols (map (map f) rows)
  end.

(** All the elements of an array, row after row. *)
Definition elements {A : Type} (a : ndarray A) : list A :=
  match a with
  | Arr1 l => l
  | Arr2 _ rows => concat rows
  end.

(** The samples as numbers, and [np.abs] of them.  An integer becomes the
    real number it is: the rounding of a 64-bit sample beyond [2^53] to
    binary64 is, like every rounding, not modelled. *)
Definition values (data : audio) : ndarray R :=
  match data with
  | IntAudio _ a => map_array IZR a
  | FloatAudio a => a
  end.

Definition np_abs (data : audio) : ndarray R :=
  match data with
  | IntAudio dt a => map_array (fun z => IZR (np_abs_int dt z)) a
  | FloatAudio a => map_array Rabs a
  end.

(** [np.max] of a list of numbers; it raises when there is none. *)
Definition np_max (l : list R) : outcome R :=
  match l with
  | [] => Raises ZeroSizeReduction
  | x :: l' => Returns (fold_left Rmax l' x)
  end.

(** Body of the loop of [normalize_audio]: a channel whose peak is zero is
    appended as it is. *)
Definition normalize_channel (channel : audio) : outcome audio :=
  match values channel, np_abs channel with
  | Arr1 samples, Arr1 magnitudes =>
      and_then (np_max magnitudes) (fun peak =>
        if Req_dec_T peak 0 then Returns channel
        else Returns (FloatAudio (Arr1 (map (fun x => x / peak)%R samples))))
  | _, _ => Raises NotOneDimensional
  end.

(** [normalize_audio]: the channels in order, up to the first that raises. *)
Fixpoint normalize_audio (data : list audio) : outcome (list audio) :=
  match data with
  | [] => Returns []
  | channel :: rest =>
      and_then (normalize_channel channel) (fun normalized_channel =>
        and_then (normalize_audio rest) (fun normalized_data =>
          Returns (normalized_channel :: normalized_data)))
  end.

(** A float as numpy computes a quotient: a number, an infinity or nan. *)
Inductive npfloat : Type :=
| Num (x : R)
| Inf (negative : bool)
| NotANumber.

(** [x / m] in numpy: a zero divisor gives nan for [0 / 0] and an infinity
    otherwise, with a warning and without exception. *)
Definition np_divide (x m : R) : npfloat :=
  if Req_dec_T m 0 then
    if Rlt_dec 0 x then Inf false
    else if Rlt_dec x 0 then Inf true
    else NotANumber
  else Num (x / m).

(** [data / np.max(np.abs(data))]: one peak for the whole array. *)
Definition normalize_by_peak (data : audio) : outcome (ndarray npfloat) :=
  and_then (np_max (elements (np_abs data))) (fun peak =>
    Returns (map_array (fun x => np_divide x peak) (values data))).

(** [data / np.max(np.abs(data), axis=0)]: one peak per column of a
    two-dimensional array; the reduction raises when the array has no row. *)
Definition normalize_by_column_peak (data : audio) : outcome (ndarray npfloat) :=
  match values data, np_abs data with
  | Arr2 ncols rows, Arr2 _ magnitudes =>
      match magnitudes with
      | [] => Raises ZeroSizeReduction
      | first :: others =>
          let peaks :=
            map (fun j => fold_left Rmax (map (fun r => nth j r 0%R) others) (nth j first 0%R))
                (seq 0 ncols) in
          Returns (Arr2 ncols
                     (map (fun row =>
                             map (fun j => np_divide (nth j row 0%R) (nth j peaks 0%R))
                                 (seq 0 ncols))
                          rows))
      end
  | _, _ => normalize_by_peak data
  end.

(** [a[start:stop]] along the first axis, for [0 <= start] and [0 <= stop]. *)
Definition slice {A : Type} (a : ndarray A) (start stop : nat) : ndarray A :=
  match a with
  | Arr1 l => Arr1 (firstn (stop - start) (skipn start l))
  | Arr2 ncols rows => Arr2 ncols (firstn (stop - start) (skipn start rows))
  end.

(** [max(0, min(idx, num_samples))]. *)
Definition clamp (num_samples : nat) (idx : Z) : nat :=
  Z.to_nat (Z.max 0 (Z.min idx (Z.of_nat num_samples))).

(** The WAV files by path, as [wavfile.read] decodes them: the sample rate
    and the samples. *)
Definition wav_files : Type := string -> option (Z * audio).

Section LoadWavFile.
(** [int(rate * (num_samples / rate))], a product and a quotient of floats:
    the rounding of binary64 is not modelled and the value is left open. *)
Variable whole_duration_index : Z -> nat -> Z.

(** [load_wav_file], for times given as integers (both callers do) or not
    given. *)
Definition load_wav_file (files : wav_files) (file_path : string)
    (t_start t_end : option Z) : outcome (ndarray npfloat * Z) :=
  match files file_path with
  | Some (rate, data) =>
      and_then (normalize_by_column_peak data) (fun data =>
        match t_start, t_end with
        | None, None => Returns (data, rate)
        | _, _ =>
            let num_samples := len data in
            if (rate =? 0)%Z then Raises RateZeroDivision
            else
              let start_idx := (rate * match t_start with Some t => t | None => 0 end)%Z in
              let end_idx :=
                match t_end with
                | Some t => (rate * t)%Z
                | None => whole_duration_index rate num_samples
                end in
              let start_idx := clamp num_samples start_idx in
              let end_idx := clamp num_samples end_idx in
              Returns (slice data start_idx end_idx, rate)
        end)
  | None => Raises WavFileNotFound
  end.
End LoadWavFile.

(** What [folder_path.glob("*.wav")] yields, in the order of the operating
    system: a regular file, with its sample rate and samples, or something
    that is no file. *)
Inductive glob_entry : Type :=
| RegularFile (rate : Z) (data : audio)
| NotAFile.

(** The loop of [load_microphone_recordings] on the entries that remain:
    [mic_recordings] is the list built so far and [rate] the variable of
    that name, unbound before the first file is read. *)
Fixpoint read_entries (entries : list glob_entry) (mic_recordings : list (ndarray npfloat))
    (rate : option Z) : outcome (list (ndarray npfloat) * option Z) :=
  match entries with
  | [] => Returns (mic_recordings, rate)
  | NotAFile :: rest => read_entries rest mic_recordings rate
  | RegularFile r data :: rest =>
      and_then (normalize_by_peak data) (fun data =>
        read_entries rest (mic_recordings ++ [data]) (Some r))
  end.

(** [load_microphone_recordings]; [glob] gives the listing of a folder. *)
Definition load_microphone_recordings (glob : string -> list glob_entry)
    (folder_path : string) : outcome (list (ndarray npfloat) * Z) :=
  and_then (read_entries (glob folder_path) [] None) (fun '(mic_recordings, rate) =>
    match rate with
    | Some rate => Returns (mic_recordings, rate)
    | None => Raises UnboundLocalError
    end).

(** ** The script [callibrateMicrophones.py] *)

(** The comparison [a > b] of [np.argmax] on floats. *)
Definition Rgtb (a b : R) : bool := if Rgt_dec a b then true else false.

(** The script after [load_microphone_recordings], on recordings that hold
    numbers only: alignment on the first recording, analysis with
    [ref_mic_index=1], and the file written.  [codec] renders the floats. *)
Definition callibrateMicrophones (codec : float_codec R)
    (mic_recordings : list (ndarray R)) (rate : Z) (fs : filesystem) : result filesystem :=
  let calibrator := init 1 in
  first_recording <- py_index mic_recordings 0 ;;
  aligned_signals <- align_signals 0%R Rplus Rmult Rgtb first_recording mic_recordings ;;
  calibrator <- analyze_frequency_response calibrator aligned_signals rate ;;
  Ok (save_calibration codec (calibration_data calibrator)
        "data/calibrationData/calibration_data.json" fs).

(** ** Notions used in the statements about recordings *)

(** No sample is the most negative value of a signed integer type: [np.abs]
    then gives the absolute value of every sample. *)
Definition no_wrap (data : audio) : bool :=
  match data with
  | FloatAudio _ => true
  | IntAudio dt a =>
      forallb (fun z => negb (z =? int_min dt)%Z || (0 <=? z)%Z) (elements a)
  end.

(** A channel that [normalize_audio] accepts: one-dimensional, with a
    sample. *)
Definition is_channel (channel : audio) : bool :=
  match values channel with
  | Arr1 (_ :: _) => true
  | _ => false
  end.

(** The array read along its first axis: at each sample position the values
    of all the channels, a single one for a one-dimensional array. *)
Definition frames {A : Type} (a : ndarray A) : list (list A) :=
  match a with
  | Arr1 l => map (fun x => [x]) l
  | Arr2 _ rows => rows
  end.

(** A sample that is nan, or a number between -1 and 1. *)
Definition unit_or_nan (s : npfloat) : Prop :=
  s = NotANumber \/ exists x, s = Num x /\ (-1 <= x <= 1)%R.

(** The regular files among the entries of a folder. *)
Fixpoint regular_files (entries : list glob_entry) : list (Z * audio) :=
  match entries with
  | [] => []
  | RegularFile rate data :: rest => (rate, data) :: regular_files rest
  | NotAFile :: rest => regular_files rest
  end.

(** ** Documents that hold infinities *)

Section DocumentWithInfinities.
Variable F : Type.
Variable codec : float_codec F.

Definition is_not_nan (x : F) : bool :=
  match classify codec x with NaN => false | _ => true end.

(** No bin and no factor of the table is nan. *)
Definition table_no_nan (t : table F) : bool :=
  forallb is_not_nan (frequency_bins t) &&
  forallb (forallb is_not_nan) (calibration_factors t).

(** No float of the document is nan and every key is written without
    escapes. *)
Fixpoint json_no_nan (v : json F) : bool :=
  match v with
  | JNumber x => is_not_nan x
  | JArray items => forallb json_no_nan items
  | JObject members =>
      forallb (fun m => forallb is_plain_char (fst m) && json_no_nan (snd m)) members
  end.

Definition reads_back (v : json F) : Prop :=
  json_no_nan v = true ->
  forall fuel rest, json_size v <= fuel -> delimited rest = true ->
  parse_value codec fuel (encode codec v ++ rest) = Some (v, rest).

(** Python has one positive and one negative infinity, and [float("-")]
    raises. *)
Definition codec_canonical : Prop :=
  (forall x, classify codec x = PosInfinity -> x = pos_infinity codec) /\
  (forall x, classify codec x = NegInfinity -> x = neg_infinity codec) /\
  float_of_string codec ["-"%char] = None.
End DocumentWithInfinities.

(** * Properties *)

(** ** Loops *)

Lemma bind_ok {A B : Type} (r : result A) (k : A -> result B) (b : B) :
  bind r k = Ok b -> exists a, r = Ok a /\ k a = Ok b.
Proof. destruct r as [a|e]; simpl; intros H; [eauto | discriminate]. Qed.

Lemma for_each_length {A B : Type} (body : A -> result B) (l : list A) (out : list B) :
  for_each body l = Ok out -> length out = length l.
Proof.
  revert out; induction l as [|a l IH]; simpl; intros out H.
  - now inversion H.
  - apply bind_ok in H as (b & _ & H).
    apply bind_ok in H as (bs & Hbs & H).
    inversion H; subst; simpl; f_equal; auto.
Qed.

Lemma for_each_Forall {A B : Type} (body : A -> result B) (P : B -> Prop) (l : list A) :
  (forall a b, In a l -> body a = Ok b -> P b) ->
  forall out, for_each body l = Ok out -> Forall P out.
Proof.
  induction l as [|a l IH]; simpl; intros HP out H.
  - inversion H; constructor.
  - apply bind_ok in H as (b & Hb & H).
    apply bind_ok in H as (bs & Hbs & H).
    inversion H; subst; constructor; eauto.
Qed.

Lemma for_each_nth {A B : Type} (body : A -> result B) (l : list A) (out : list B) :
  for_each body l = Ok out ->
  forall i a, nth_error l i = Some a ->
  exists b, body a = Ok b /\ nth_error out i = Some b.
Proof.
  revert out; induction l as [|a0 l IH]; simpl; intros out H i a Hi.
  - destruct i; discriminate.
  - apply bind_ok in H as (b & Hb & H).
    apply bind_ok in H as (bs & Hbs & H).
    inversion H; subst; clear H.
    destruct i as [|i]; simpl in *.
    + inversion Hi; subst; eauto.
    + eauto.
Qed.

Lemma for_each_ok {A B : Type} (body : A -> result B) (l : list A) :
  (forall a, In a l -> exists b, body a = Ok b) ->
  exists out, for_each body l = Ok out.
Proof.
  induction l as [|a l IH]; simpl; intros H.
  - eauto.
  - destruct (H a) as (b & Hb); auto.
    destruct IH as (bs & Hbs); auto.
    rewrite Hb, Hbs; simpl; eauto.
Qed.

Lemma for_each_err {A B : Type} (body : A -> result B) (l : list A) (a : A) (e : error) :
  In a l -> body a = Err e ->
  exists a' e', In a' l /\ body a' = Err e' /\ for_each body l = Err e'.
Proof.
  induction l as [|a0 l IH]; simpl; intros Hin He; [contradiction|].
  destruct (body a0) as [b|e0] eqn:Hb0; simpl.
  - destruct Hin as [->|Hin]; [congruence|].
    destruct (IH Hin He) as (a' & e' & Hin' & He' & Hfe).
    exists a', e'; rewrite Hfe; simpl; auto.
  - exists a0, e0; auto.
Qed.

(** The first failing element decides the exception of the loop. *)
Lemma for_each_first_err {A B : Type} (body : A -> result B)
      (pre : list A) (a : A) (post : list A) (e : error) :
  (forall p, In p pre -> exists b, body p = Ok b) ->
  body a = Err e ->
  for_each body (pre ++ a :: post) = Err e.
Proof.
  induction pre as [|p pre IH]; simpl; intros Hpre He.
  - now rewrite He.
  - destruct (Hpre p) as (b & Hb); auto.
    rewrite Hb; simpl. rewrite IH; auto.
Qed.

Lemma nth_map_seq {A : Type} (f : nat -> A) (m k : nat) (d : A) :
  k < m -> nth k (map f (seq 0 m)) d = f k.
Proof.
  intros Hk.
  rewrite (nth_indep _ d (f 0)) by (rewrite length_map, length_seq; exact Hk).
  rewrite (map_nth f (seq 0 m) 0 k), seq_nth by exact Hk.
  reflexivity.
Qed.

(** ** Alignment *)

Section AlignmentFacts.
Variable T : Type.
Variable zero : T.
Variable add mul : T -> T -> T.
Variable gtb : T -> T -> bool.

Lemma first_channel_length (a : ndarray T) (l : list T) :
  first_channel zero a = Ok l -> length l = len a.
Proof.
  destruct a as [x|ncols rows]; simpl.
  - now intros [= ->].
  - unfold column. destruct (0 <? ncols); [|discriminate].
    intros [= <-]. apply length_map.
Qed.

Lemma align_one_length (ref_signal : list T) (mic : ndarray T) (s : list T) :
  align_one zero add mul gtb ref_signal mic = Ok s -> length s = length ref_signal.
Proof.
  unfold align_one. intros H.
  apply bind_ok in H as (mic_signal & _ & H).
  apply bind_ok in H as (correlation & _ & H).
  apply bind_ok in H as (peak & _ & H).
  inversion H; subst; clear H.
  unfold np_pad; simpl.
  rewrite length_app, repeat_length, length_firstn.
  lia.
Qed.

(** An empty operand makes the correlation, hence the loop body, fail. *)
Lemma align_one_empty (ref_signal : list T) (mic : ndarray T) :
  ref_signal = [] \/ len mic = 0 ->
  exists e, align_one zero add mul gtb ref_signal mic = Err e /\ (e = EmptyInput \/ e = IndexError).
Proof.
  intros H. unfold align_one.
  destruct (first_channel zero mic) as [mic_signal|e] eqn:Hfc; simpl.
  - apply first_channel_length in Hfc.
    assert (Hc : correlate zero add mul mic_signal ref_signal = Err EmptyInput).
    { unfold correlate. destruct H as [->|H].
      - now destruct mic_signal.
      - rewrite H in Hfc. destruct mic_signal; [reflexivity | discriminate]. }
    rewrite Hc; simpl; eauto.
  - destruct mic as [x|ncols rows]; simpl in Hfc; [discriminate|].
    unfold column in Hfc. destruct (0 <? ncols); [discriminate|].
    inversion Hfc; eauto.
Qed.

(** On non-empty one-dimensional signals the loop body returns. *)
Lemma align_one_total (ref_signal mic_signal : list T) :
  ref_signal <> [] -> mic_signal <> [] ->
  exists s, align_one zero add mul gtb ref_signal (Arr1 mic_signal) = Ok s.
Proof.
  intros Hr Hm. unfold align_one; simpl.
  destruct mic_signal as [|m ms]; [congruence|].
  destruct ref_signal as [|r rs]; [congruence|].
  unfold correlate.
  replace (length (m :: ms) + length (r :: rs) - 1) with (S (length ms + length rs))
    by (simpl; lia).
  rewrite <- cons_seq; simpl map at 1.
  simpl bind. eauto.
Qed.
End AlignmentFacts.

Lemma align_one_error_kind (T : Type) (zero : T) (add mul : T -> T -> T)
      (gtb : T -> T -> bool) (ref_signal : list T) (mic : ndarray T) (e : error) :
  align_one zero add mul gtb ref_signal mic = Err e ->
  e = EmptyInput \/ e = IndexError.
Proof.
  unfold align_one.
  destruct (first_channel zero mic) as [mic_signal|e1] eqn:Hfc; simpl.
  - destruct (correlate zero add mul mic_signal ref_signal) as [c|e2] eqn:Hc; simpl.
    + destruct (argmax gtb c) as [p|e3] eqn:Hp; simpl; [discriminate|].
      destruct c; simpl in Hp; [|discriminate].
      inversion Hp; subst. intros [= <-]; auto.
    + unfold correlate in Hc.
      destruct mic_signal, ref_signal; inversion Hc; subst; intros [= <-]; auto.
  - destruct mic as [x|ncols rows]; simpl in Hfc; [discriminate|].
    unfold column in Hfc. destruct (0 <? ncols); [discriminate|].
    inversion Hfc; subst. intros [= <-]; auto.
Qed.

(** On a non-empty one-dimensional reference and non-empty one-dimensional
    signals [align_signals] returns. *)
Lemma align_signals_total (T : Type) (zero : T) (add mul : T -> T -> T)
      (gtb : T -> T -> bool) (ref_signal : list T) (mic_signals : list (list T)) :
  ref_signal <> [] -> Forall (fun s => s <> []) mic_signals ->
  exists aligned,
    align_signals zero add mul gtb (Arr1 ref_signal) (map Arr1 mic_signals) = Ok aligned.
Proof.
  intros Hr Hs. unfold align_signals; simpl.
  apply for_each_ok. intros a Ha.
  apply in_map_iff in Ha as (s & <- & Hin).
  rewrite Forall_forall in Hs.
  apply align_one_total; auto.
Qed.

(** C5 -- Alignment output length.  Whatever the reference and the input
    signals, [align_signals] returns one signal per input signal and every
    returned signal has exactly [len(reference)] samples. *)
Theorem align_signals_output_length (T : Type) (zero : T) (add mul : T -> T -> T)
      (gtb : T -> T -> bool) (ref : ndarray T) (mic_signals : list (ndarray T))
      (aligned : list (list T)) :
  align_signals zero add mul gtb ref mic_signals = Ok aligned ->
  length aligned = length mic_signals /\
  Forall (fun s => length s = len ref) aligned.
Proof.
  unfold align_signals. intros H.
  apply bind_ok in H as (ref_signal & Href & H).
  apply first_channel_length in Href.
  split.
  - eapply for_each_length; eauto.
  - eapply for_each_Forall; [|exact H].
    intros mic s _ Hs. rewrite <- Href.
    eapply align_one_length; eauto.
Qed.

Lemma align_signals_output_length_witness :
  length [[0; 1; 2]; [0; 1; 2]; [0; 0; 2]; [0; 0; 4]]%Z = 4 /\
  Forall (fun s => length s = 3) [[0; 1; 2]; [0; 1; 2]; [0; 0; 2]; [0; 0; 4]]%Z.
Proof.
  apply (@align_signals_output_length Z 0%Z Z.add Z.mul Z.gtb
           (Arr1 [1; 2; 3]%Z)
           [Arr1 [1; 2; 3]%Z; Arr1 [0; 0; 1; 2; 3]%Z; Arr1 [2; 3]%Z;
            Arr2 2 [[4; 9]; [6; 9]; [0; 9]; [0; 9]; [0; 9]]%Z]).
  vm_compute. reflexivity.
Defined.

(** C9, as stated, fails: with an empty reference and no input signal the
    loop is not entered and [align_signals] returns the empty list. *)
Lemma align_signals_empty_reference_returns :
  len (Arr1 (@nil Z)) = 0 /\ alignZ (Arr1 []) [] = Ok [].
Proof. split; reflexivity. Qed.

(** C9, amended -- when at least one input signal is given and the reference
    or one of the input signals is empty, [align_signals] raises: the
    exception is the one of the correlation routine on an empty operand (or
    the index error of taking column 0 of a width-0 array), and nothing is
    returned. *)
Theorem align_signals_empty_fails (T : Type) (zero : T) (add mul : T -> T -> T)
      (gtb : T -> T -> bool) (ref : ndarray T) (mic_signals : list (ndarray T)) :
  mic_signals <> [] ->
  len ref = 0 \/ Exists (fun s => len s = 0) mic_signals ->
  exists e, align_signals zero add mul gtb ref mic_signals = Err e /\
            (e = EmptyInput \/ e = IndexError).
Proof.
  intros Hne Hempty. unfold align_signals.
  destruct (first_channel zero ref) as [ref_signal|e] eqn:Href; simpl.
  - apply first_channel_length in Href.
    assert (Hone : exists s e, In s mic_signals /\
                               align_one zero add mul gtb ref_signal s = Err e).
    { destruct Hempty as [H0|Hex].
      - destruct mic_signals as [|s rest]; [congruence|].
        destruct (@align_one_empty T zero add mul gtb ref_signal s) as (e & He & _).
        { left. rewrite H0 in Href. now destruct ref_signal. }
        exists s, e; simpl; auto.
      - apply Exists_exists in Hex as (s & Hin & Hs).
        destruct (@align_one_empty T zero add mul gtb ref_signal s) as (e & He & _); auto.
        exists s, e; auto. }
    destruct Hone as (s & e & Hin & He).
    destruct (for_each_err _ _ _ Hin He) as (s' & e' & _ & He' & Hfe).
    exists e'; split; auto.
    eapply align_one_error_kind; eauto.
  - exists e; split; auto.
    destruct ref as [x|ncols rows]; simpl in Href; [discriminate|].
    unfold column in Href. destruct (0 <? ncols); [discriminate|].
    inversion Href; auto.
Qed.

Lemma align_signals_empty_fails_witness :
  exists e, alignZ (Arr1 [1; 2; 3]%Z) [Arr1 [1; 2; 3]%Z; Arr1 []] = Err e /\
            (e = EmptyInput \/ e = IndexError).
Proof.
  apply (@align_signals_empty_fails Z 0%Z Z.add Z.mul Z.gtb).
  - discriminate.
  - right. apply Exists_cons_tl, Exists_cons_hd. reflexivity.
Defined.

(** The reference [1, 2, 3] and its copies delayed by 0, 1, 2 and 5 samples:
    every copy comes back as the reference delayed by one sample. *)
Example align_delayed_copy_examples :
  alignZ (Arr1 [1; 2; 3]%Z)
         [Arr1 [1; 2; 3]%Z;
          Arr1 [0; 1; 2; 3]%Z;
          Arr1 [0; 0; 1; 2; 3]%Z;
          Arr1 [0; 0; 0; 0; 0; 1; 2; 3]%Z]
  = Ok [[0; 1; 2]; [0; 1; 2]; [0; 1; 2]; [0; 1; 2]]%Z.
Proof. vm_compute. reflexivity. Qed.

Unset Implicit Arguments.

Section DelayedCopy.
Local Open Scope Z_scope.

(** ** The peak of the correlation of a signal with a delayed copy *)

Lemma Zsum_cons (a : Z) (l : list Z) : Zsum (a :: l) = a + Zsum l.
Proof. reflexivity. Qed.

Lemma Zsum_le {A : Type} (f g : A -> Z) (l : list A) :
  (forall a, In a l -> f a <= g a) -> Zsum (map f l) <= Zsum (map g l).
Proof.
  induction l as [|a l IH]; intros H; cbn [map]; [reflexivity|].
  rewrite !Zsum_cons.
  assert (f a <= g a) by (apply H; left; reflexivity).
  assert (Zsum (map f l) <= Zsum (map g l)) by (apply IH; intros; apply H; right; assumption).
  lia.
Qed.

Lemma Zsum_nonneg {A : Type} (f : A -> Z) (l : list A) :
  (forall a, In a l -> 0 <= f a) -> 0 <= Zsum (map f l).
Proof.
  induction l as [|a l IH]; intros H; cbn [map]; [reflexivity|].
  rewrite Zsum_cons.
  assert (0 <= f a) by (apply H; left; reflexivity).
  assert (0 <= Zsum (map f l)) by (apply IH; intros; apply H; right; assumption).
  lia.
Qed.

Lemma Zsum_zero_all {A : Type} (f : A -> Z) (l : list A) :
  (forall a, In a l -> 0 <= f a) -> Zsum (map f l) <= 0 ->
  forall a, In a l -> f a = 0.
Proof.
  induction l as [|a0 l IH]; intros Hpos Hsum a Hin; [contradiction|].
  cbn [map] in Hsum. rewrite Zsum_cons in Hsum.
  assert (0 <= f a0) by (apply Hpos; left; reflexivity).
  assert (0 <= Zsum (map f l)) by (apply Zsum_nonneg; intros; apply Hpos; right; assumption).
  destruct Hin as [<-|Hin]; [lia|].
  apply IH; auto; [intros; apply Hpos; right; assumption | lia].
Qed.

Lemma Zsum_add {A : Type} (f g : A -> Z) (l : list A) :
  Zsum (map (fun a => f a + g a) l) = Zsum (map f l) + Zsum (map g l).
Proof.
  induction l as [|a l IH]; cbn [map]; [reflexivity|].
  rewrite !Zsum_cons, IH. lia.
Qed.

Lemma Zsum_scale {A : Type} (c : Z) (f : A -> Z) (l : list A) :
  Zsum (map (fun a => c * f a) l) = c * Zsum (map f l).
Proof.
  induction l as [|a l IH]; cbn [map]; [cbn; lia|].
  rewrite !Zsum_cons, IH. lia.
Qed.

Lemma Zsum_ext {A : Type} (f g : A -> Z) (l : list A) :
  (forall a, In a l -> f a = g a) -> Zsum (map f l) = Zsum (map g l).
Proof.
  intros H. f_equal. apply map_ext_in. exact H.
Qed.

(** Shifting the window of a sum by one. *)
Lemma Zsum_shift (h : Z -> Z) (n : nat) :
  Zsum (map (fun l => h (Z.of_nat l + 1)) (seq 0 n)) =
  Zsum (map (fun l => h (Z.of_nat l)) (seq 0 n)) + h (Z.of_nat n) - h 0.
Proof.
  induction n as [|n IH].
  - cbn. lia.
  - rewrite seq_S, !map_app. cbn [map Nat.add].
    unfold Zsum, sum in *. rewrite !fold_right_app. cbn [fold_right].
    assert (Hacc : forall (l : list Z) a, fold_right Z.add a l = fold_right Z.add 0 l + a).
    { induction l as [|b l IHl]; intros a; cbn [fold_right]; [lia|]. rewrite IHl. lia. }
    rewrite (Hacc _ (h (Z.of_nat n + 1) + 0)), (Hacc _ (h (Z.of_nat n) + 0)), IH.
    replace (Z.of_nat (S n)) with (Z.of_nat n + 1) by lia. lia.
Qed.

Lemma zext_outside (x : list Z) (i : Z) :
  i < 0 \/ Z.of_nat (length x) <= i -> zext x i = 0.
Proof.
  unfold zext, at_index. intros [H|H].
  - destruct (Z.ltb_spec i 0); [reflexivity | lia].
  - destruct (Z.ltb_spec i 0); [reflexivity|].
    apply nth_overflow. lia.
Qed.

Lemma zext_nth (x : list Z) (l : nat) : zext x (Z.of_nat l) = nth l x 0.
Proof.
  unfold zext, at_index. destruct (Z.ltb_spec (Z.of_nat l) 0); [lia|].
  now rewrite Nat2Z.id.
Qed.

(** The energy seen through a shifted window is at most the energy. *)
Lemma window_energy_le (x : list Z) (d : Z) :
  Zsum (map (fun l => zext x (Z.of_nat l + d) * zext x (Z.of_nat l + d)) (seq 0 (length x)))
  <= Zsum (map (fun l => zext x (Z.of_nat l) * zext x (Z.of_nat l)) (seq 0 (length x))).
Proof.
  set (n := length x).
  set (g := fun i => zext x i * zext x i).
  assert (Hg : forall i, 0 <= g i) by (intros i; unfold g; nia).
  assert (Hout : forall i, i < 0 \/ Z.of_nat n <= i -> g i = 0).
  { intros i Hi. unfold g. rewrite (zext_outside x i Hi). reflexivity. }
  change (Zsum (map (fun l => g (Z.of_nat l + d)) (seq 0 n))
          <= Zsum (map (fun l => g (Z.of_nat l)) (seq 0 n))).
  assert (Hup : forall e : nat,
             Zsum (map (fun l => g (Z.of_nat l + Z.of_nat e)) (seq 0 n))
             <= Zsum (map (fun l => g (Z.of_nat l)) (seq 0 n))).
  { induction e as [|e IHe].
    - apply Z.eq_le_incl. apply Zsum_ext. intros l _. f_equal. lia.
    - pose proof (Zsum_shift (fun i => g (i + Z.of_nat e)) n) as Hs. cbn beta in Hs.
      rewrite (Zsum_ext (fun l => g (Z.of_nat l + Z.of_nat (S e)))
                        (fun l => g (Z.of_nat l + 1 + Z.of_nat e)))
        by (intros; f_equal; lia).
      rewrite Hs. rewrite (Hout (Z.of_nat n + Z.of_nat e)) by lia.
      pose proof (Hg (0 + Z.of_nat e)). lia. }
  assert (Hdown : forall e : nat,
             Zsum (map (fun l => g (Z.of_nat l - Z.of_nat e)) (seq 0 n))
             <= Zsum (map (fun l => g (Z.of_nat l)) (seq 0 n))).
  { induction e as [|e IHe].
    - apply Z.eq_le_incl. apply Zsum_ext. intros l _. f_equal. lia.
    - pose proof (Zsum_shift (fun i => g (i - Z.of_nat (S e))) n) as Hs. cbn beta in Hs.
      rewrite (Zsum_ext (fun l => g (Z.of_nat l + 1 - Z.of_nat (S e)))
                        (fun l => g (Z.of_nat l - Z.of_nat e))) in Hs
        by (intros; f_equal; lia).
      rewrite (Hout (0 - Z.of_nat (S e))) in Hs by lia.
      pose proof (Hg (Z.of_nat n - Z.of_nat (S e))). lia. }
  destruct (Z.le_ge_cases 0 d) as [Hd|Hd].
  - specialize (Hup (Z.to_nat d)). rewrite Z2Nat.id in Hup by lia. exact Hup.
  - specialize (Hdown (Z.to_nat (- d))).
    rewrite (Zsum_ext (fun l => g (Z.of_nat l - Z.of_nat (Z.to_nat (- d))))
                      (fun l => g (Z.of_nat l + d))) in Hdown
      by (intros; f_equal; lia).
    exact Hdown.
Qed.

(** A signal that repeats itself after a shift is zero. *)
Lemma shift_invariant_zero (x : list Z) (d : Z) :
  d <> 0 ->
  (forall l : nat, (l < length x)%nat -> zext x (Z.of_nat l + d) = zext x (Z.of_nat l)) ->
  forall l : nat, (l < length x)%nat -> zext x (Z.of_nat l) = 0.
Proof.
  intros Hd Hshift.
  destruct (Z.lt_ge_cases 0 d) as [Hpos|Hneg].
  - assert (H : forall m l : nat, (l < length x)%nat -> (length x <= l + m)%nat ->
                                  zext x (Z.of_nat l) = 0).
    { induction m as [|m IH]; intros l Hl Hm; [lia|].
      rewrite <- (Hshift l Hl).
      destruct (Z.lt_ge_cases (Z.of_nat l + d) (Z.of_nat (length x))) as [Hin|Hout].
      - replace (Z.of_nat l + d) with (Z.of_nat (l + Z.to_nat d)) by lia.
        apply IH; lia.
      - apply zext_outside. lia. }
    intros l Hl. apply (H (length x) l); lia.
  - assert (H : forall m l : nat, (l < m)%nat -> (l < length x)%nat ->
                                  zext x (Z.of_nat l) = 0).
    { induction m as [|m IH]; intros l Hm Hl; [lia|].
      rewrite <- (Hshift l Hl).
      destruct (Z.lt_ge_cases (Z.of_nat l + d) 0) as [Hout|Hin].
      - apply zext_outside. lia.
      - replace (Z.of_nat l + d) with (Z.of_nat (Z.to_nat (Z.of_nat l + d))) by lia.
        apply IH; lia. }
    intros l Hl. apply (H (S l) l); lia.
Qed.

(** The autocorrelation of a signal that is not zero has its only maximum at
    lag 0. *)
Lemma autocorrelation_peak (x : list Z) (d : Z) :
  d <> 0 -> (exists i, nth i x 0 <> 0) ->
  autocorrelation x d < autocorrelation x 0.
Proof.
  intros Hd (i & Hi).
  assert (Harith : forall r s t u : Z, u <= r -> t <= u -> 2 * r + s = t + u -> s <= 0)
    by (intros; lia).
  destruct (Z.lt_ge_cases (autocorrelation x d) (autocorrelation x 0)) as [|Hge];
    [assumption | exfalso].
  set (a := fun l : nat => zext x (Z.of_nat l + d)).
  set (b := fun l : nat => zext x (Z.of_nat l)).
  set (L := seq 0 (length x)).
  assert (Hd' : autocorrelation x d = Zsum (map (fun l => a l * b l) L)) by reflexivity.
  assert (H0 : autocorrelation x 0 = Zsum (map (fun l => b l * b l) L)).
  { apply Zsum_ext. intros l _. unfold b. now rewrite Z.add_0_r. }
  assert (HT : Zsum (map (fun l => a l * a l) L) <= Zsum (map (fun l => b l * b l) L))
    by (apply window_energy_le).
  assert (Hid : 2 * Zsum (map (fun l => a l * b l) L)
                + Zsum (map (fun l => (a l - b l) * (a l - b l)) L)
                = Zsum (map (fun l => a l * a l) L) + Zsum (map (fun l => b l * b l) L)).
  { rewrite <- Zsum_scale, <- !Zsum_add. apply Zsum_ext. intros l _. ring. }
  rewrite Hd', H0 in Hge.
  assert (HS : Zsum (map (fun l => (a l - b l) * (a l - b l)) L) <= 0).
  { exact (Harith _ _ _ _ Hge HT Hid). }
  assert (Hflat : forall l : nat, (l < length x)%nat -> a l = b l).
  { intros l Hl.
    assert (Hz : (a l - b l) * (a l - b l) = 0).
    { apply (Zsum_zero_all (fun l => (a l - b l) * (a l - b l)) L);
        [intros; apply Z.square_nonneg | exact HS | apply in_seq; lia]. }
    apply Z.mul_eq_0 in Hz. lia. }
  assert (Hi' : (i < length x)%nat).
  { destruct (Nat.lt_ge_cases i (length x)); [assumption|].
    rewrite nth_overflow in Hi by assumption. congruence. }
  apply Hi. rewrite <- zext_nth.
  apply (shift_invariant_zero x d Hd Hflat i Hi').
Qed.

Lemma zext_delayed (k p : nat) (ref : list Z) (i : Z) :
  zext (delayed k p ref) i = zext ref (i - Z.of_nat k).
Proof.
  unfold zext, at_index, delayed.
  destruct (Z.ltb_spec i 0) as [Hi|Hi].
  - destruct (Z.ltb_spec (i - Z.of_nat k) 0); [reflexivity | lia].
  - destruct (Z.ltb_spec (i - Z.of_nat k) 0) as [Hk|Hk].
    + rewrite app_nth1 by (rewrite repeat_length; lia).
      apply nth_repeat.
    + rewrite app_nth2 by (rewrite repeat_length; lia).
      rewrite repeat_length.
      replace (Z.to_nat i - k)%nat with (Z.to_nat (i - Z.of_nat k)) by lia.
      destruct (Nat.lt_ge_cases (Z.to_nat (i - Z.of_nat k)) (length ref)).
      * now rewrite app_nth1.
      * rewrite app_nth2 by assumption.
        rewrite (nth_overflow ref) by assumption.
        apply nth_repeat.
Qed.

(** Every entry of the correlation of the delayed copy against the reference
    is an autocorrelation of the reference. *)
Lemma correlate_at_delayed (k p : nat) (ref : list Z) (j : nat) :
  correlate_at 0 Z.add Z.mul (delayed k p ref) ref j =
  autocorrelation ref (Z.of_nat j - (Z.of_nat (length ref) - 1) - Z.of_nat k).
Proof.
  unfold correlate_at, autocorrelation.
  apply Zsum_ext. intros l _.
  change (at_index 0 (delayed k p ref)) with (zext (delayed k p ref)).
  rewrite zext_delayed, zext_nth. f_equal. f_equal. lia.
Qed.

(** ** [np.argmax] on a list with a single greatest entry *)

Lemma argmax_from_stays (l : list Z) (bi i : nat) (b : Z) :
  (forall v, In v l -> v <= b) -> argmax_from Z.gtb bi b i l = bi.
Proof.
  revert i. induction l as [|v l IH]; intros i H; cbn [argmax_from]; [reflexivity|].
  assert (Hv : v <= b) by (apply H; left; reflexivity).
  destruct (Z.gtb_spec v b); [lia|].
  apply IH. intros; apply H; right; assumption.
Qed.

Lemma argmax_from_through (l1 l2 : list Z) (M : Z) (bi i : nat) (b : Z) :
  b < M -> (forall v, In v l1 -> v < M) ->
  argmax_from Z.gtb bi b i (l1 ++ M :: l2) =
  argmax_from Z.gtb (i + length l1) M (S (i + length l1)) l2.
Proof.
  revert bi i b. induction l1 as [|v l1 IH]; intros bi i b Hb H; cbn [app argmax_from length].
  - destruct (Z.gtb_spec M b); [|lia]. now rewrite Nat.add_0_r.
  - assert (Hv : v < M) by (apply H; left; reflexivity).
    replace (i + S (length l1))%nat with (S i + length l1)%nat by lia.
    destruct (Z.gtb_spec v b); apply IH; auto; intros; apply H; right; assumption.
Qed.

Lemma argmax_unique (c : list Z) (j : nat) :
  (j < length c)%nat ->
  (forall i, (i < length c)%nat -> i <> j -> nth i c 0 < nth j c 0) ->
  argmax Z.gtb c = Ok j.
Proof.
  intros Hj Hmax. destruct c as [|v0 rest]; [cbn in Hj; lia|].
  unfold argmax. f_equal.
  destruct j as [|j].
  - apply argmax_from_stays. intros v Hv.
    apply (In_nth _ _ 0) in Hv as (t & Ht & <-).
    apply Z.lt_le_incl. apply (Hmax (S t)); cbn [length]; lia.
  - cbn [length] in Hj.
    assert (Hsplit : rest = firstn j rest ++ nth j rest 0 :: skipn (S j) rest).
    { rewrite <- (firstn_skipn j rest) at 1. f_equal.
      rewrite <- (firstn_skipn j rest) at 2.
      rewrite app_nth2 by (rewrite length_firstn; lia).
      rewrite length_firstn, Nat.min_l, Nat.sub_diag by lia.
      destruct (skipn j rest) as [|m tl] eqn:Hsk.
      - apply (f_equal (@length Z)) in Hsk. rewrite length_skipn in Hsk. cbn in Hsk. lia.
      - cbn [nth]. f_equal.
        replace (S j) with (1 + j)%nat by lia.
        rewrite <- skipn_skipn, Hsk. reflexivity. }
    rewrite Hsplit.
    rewrite argmax_from_through.
    + rewrite length_firstn, Nat.min_l by lia.
      rewrite argmax_from_stays; [reflexivity|].
      intros v Hv. apply (In_nth _ _ 0) in Hv as (t & Ht & <-).
      rewrite length_skipn in Ht.
      apply Z.lt_le_incl.
      specialize (Hmax (S (S j + t))). cbn [nth length] in Hmax.
      rewrite nth_skipn. apply Hmax; lia.
    + apply (Hmax 0%nat); cbn [length]; lia.
    + intros v Hv. apply (In_nth _ _ 0) in Hv as (t & Ht & <-).
      rewrite length_firstn in Ht.
      specialize (Hmax (S t)). cbn [nth length] in Hmax.
      rewrite nth_firstn. destruct (Nat.ltb_spec t j); [|lia].
      apply Hmax; lia.
Qed.

Lemma delayed_length (k p : nat) (ref : list Z) :
  length (delayed k p ref) = (k + length ref + p)%nat.
Proof. unfold delayed. rewrite !length_app, !repeat_length. lia. Qed.

(** The peak of the correlation of the delayed copy sits at index
    [k + len(ref) - 1]. *)
Lemma argmax_correlate_delayed (k p : nat) (ref : list Z) :
  (exists i, nth i ref 0 <> 0) ->
  exists correlation,
    correlate 0 Z.add Z.mul (delayed k p ref) ref = Ok correlation /\
    argmax Z.gtb correlation = Ok (k + length ref - 1)%nat.
Proof.
  intros Hnz.
  assert (Hn : (1 <= length ref)%nat).
  { destruct Hnz as (i & Hi). destruct ref; [destruct i; cbn in Hi; congruence | cbn; lia]. }
  pose proof (delayed_length k p ref) as Hlen.
  exists (map (correlate_at 0 Z.add Z.mul (delayed k p ref) ref)
              (seq 0 (length (delayed k p ref) + length ref - 1))).
  split.
  - unfold correlate.
    destruct (delayed k p ref) eqn:Hd; [cbn in Hlen; lia|].
    destruct ref; [cbn in Hn; lia | reflexivity].
  - apply argmax_unique.
    + rewrite length_map, length_seq. lia.
    + rewrite length_map, length_seq. intros i Hi Hne.
      rewrite !nth_map_seq by lia.
      rewrite !correlate_at_delayed.
      replace (Z.of_nat (k + length ref - 1) - (Z.of_nat (length ref) - 1) - Z.of_nat k)
        with 0 by lia.
      apply autocorrelation_peak; [lia | exact Hnz].
Qed.

(** A signal equal to itself delayed by one sample is zero. *)
Lemma shifted_differs (ref : list Z) :
  (exists i, nth i ref 0 <> 0) -> 0 :: removelast ref <> ref.
Proof.
  intros (i & Hi) Heq. apply Hi. clear Hi.
  induction i as [|i IH].
  - rewrite <- Heq. reflexivity.
  - rewrite <- Heq. cbn [nth].
    rewrite removelast_firstn_len, nth_firstn.
    destruct (i <? Nat.pred (length ref))%nat; [exact IH | reflexivity].
Qed.

(** C4 -- Alignment recovery.  For every reference with a non-zero sample,
    every delay [k] and every number [p] of trailing zeros, the offset that
    [align_signals] computes from the peak of the correlation is [k - 1], and
    the signal it returns is the reference delayed by one sample, which is
    not the reference. *)
Theorem align_delayed_copy_is_shifted (ref : list Z) (k p : nat) :
  (exists i, nth i ref 0 <> 0) ->
  alignZ (Arr1 ref) [Arr1 (delayed k p ref)] = Ok [0 :: removelast ref] /\
  0 :: removelast ref <> ref.
Proof.
  intros Hnz. split; [|apply shifted_differs; exact Hnz].
  assert (Hn : (1 <= length ref)%nat).
  { destruct Hnz as (i & Hi). destruct ref; [destruct i; cbn in Hi; congruence | cbn; lia]. }
  destruct (argmax_correlate_delayed k p ref Hnz) as (correlation & Hcorr & Hpeak).
  unfold alignZ, align_signals. cbn [first_channel bind for_each].
  unfold align_one. cbn [first_channel bind].
  rewrite Hcorr. cbn [bind]. rewrite Hpeak. cbn [bind].
  replace (Z.of_nat (k + length ref - 1) - Z.of_nat (length ref)) with (Z.of_nat k - 1) by lia.
  assert (Hshift : (if Z.of_nat k - 1 >? 0
                    then skipn (Z.to_nat (Z.of_nat k - 1)) (delayed k p ref)
                    else np_pad 0 (delayed k p ref) (Z.abs_nat (Z.of_nat k - 1)) 0)
                   = 0 :: ref ++ repeat 0 p).
  { destruct (Z.gtb_spec (Z.of_nat k - 1) 0) as [Hk|Hk].
    - unfold delayed.
      replace k with (Z.to_nat (Z.of_nat k - 1) + 1)%nat at 2 by lia.
      rewrite repeat_app, <- app_assoc.
      rewrite skipn_app, repeat_length, Nat.sub_diag.
      rewrite skipn_all2 by (rewrite repeat_length; lia).
      reflexivity.
    - unfold np_pad, delayed. rewrite app_nil_r.
      destruct k as [|[|k]]; [reflexivity | reflexivity | lia]. }
  rewrite Hshift.
  cbn [firstn length].
  destruct (length ref) as [|n] eqn:Hlen; [lia|].
  cbn [firstn].
  rewrite firstn_app.
  replace (n - length ref)%nat with 0%nat by lia.
  cbn [firstn]. rewrite app_nil_r.
  unfold np_pad. cbn [repeat app length].
  rewrite length_firstn.
  replace (S n - S (Nat.min n (length ref)))%nat with 0%nat by lia.
  cbn [repeat]. rewrite app_nil_r.
  do 3 f_equal.
  rewrite removelast_firstn_len. now rewrite Hlen.
Qed.

Lemma align_delayed_copy_is_shifted_witness :
  alignZ (Arr1 [1; 2; 3]) [Arr1 [0; 0; 1; 2; 3]] = Ok [[0; 1; 2]] /\
  [0; 1; 2] <> [1; 2; 3].
Proof.
  apply (align_delayed_copy_is_shifted [1; 2; 3] 2 0).
  exists 0%nat. discriminate.
Defined.
End DelayedCopy.

Set Implicit Arguments.

(** ** Shapes of the spectral primitives *)

Lemma length_zip_with {A B D : Type} (f : A -> B -> D) (l : list A) (l' : list B) :
  length (zip_with f l l') = Nat.min (length l) (length l').
Proof.
  revert l'; induction l as [|a l IH]; intros [|b l']; simpl; auto.
Qed.

Lemma nth_zip_with {A B D : Type} (f : A -> B -> D) (l : list A) (l' : list B)
      (k : nat) (da : A) (db : B) (dd : D) :
  k < length l -> k < length l' ->
  nth k (zip_with f l l') dd = f (nth k l da) (nth k l' db).
Proof.
  revert l' k; induction l as [|a l IH]; intros [|b l'] [|k]; simpl; intros H1 H2;
    try lia; auto.
  apply IH; lia.
Qed.

Lemma length_fit {A : Type} (zero : A) (n : nat) (a : list A) :
  length (fit zero n a) = n.
Proof. unfold fit. rewrite length_app, length_firstn, repeat_length. lia. Qed.

Lemma fit_same_length {A : Type} (zero : A) (a : list A) :
  fit zero (length a) a = a.
Proof. unfold fit. rewrite firstn_all, Nat.sub_diag. simpl. apply app_nil_r. Qed.

Lemma rfft_ok (a : list R) (n : nat) :
  1 <= n ->
  rfft a (Z.of_nat n) = Ok (map (dft_bin n (fit 0%R n a)) (seq 0 (n / 2 + 1))).
Proof.
  intros Hn. unfold rfft.
  destruct (Z.ltb_spec (Z.of_nat n) 1); [lia|].
  now rewrite Nat2Z.id.
Qed.

Lemma rfft_length (a : list R) (n : Z) (s : list C) :
  rfft a n = Ok s -> length s = Z.to_nat n / 2 + 1.
Proof.
  unfold rfft. destruct (n <? 1)%Z; [discriminate|].
  intros [= <-]. now rewrite length_map, length_seq.
Qed.

Lemma irfft_ok (a : list C) (n : nat) :
  1 <= n ->
  irfft a (Z.of_nat n) = Ok (map (idft_sample n (fit Czero (n / 2 + 1) a)) (seq 0 n)).
Proof.
  intros Hn. unfold irfft.
  destruct (Z.ltb_spec (Z.of_nat n) 1); [lia|].
  now rewrite Nat2Z.id.
Qed.

Lemma irfft_length (a : list C) (n : Z) (x : list R) :
  irfft a n = Ok x -> length x = Z.to_nat n.
Proof.
  unfold irfft. destruct (n <? 1)%Z; [discriminate|].
  intros [= <-]. now rewrite length_map, length_seq.
Qed.

Lemma rfftfreq_length (n : nat) (d : R) : length (rfftfreq n d) = n / 2 + 1.
Proof. unfold rfftfreq. now rewrite length_map, length_seq. Qed.

Lemma np_resize_length (a : list R) (m : nat) : length (np_resize a m) = m.
Proof.
  unfold np_resize. destruct a.
  - apply repeat_length.
  - now rewrite length_map, length_seq.
Qed.

(** Resizing to the length the array already has leaves it unchanged. *)
Lemma np_resize_same (a : list R) : np_resize a (length a) = a.
Proof.
  unfold np_resize. destruct a as [|r a]; [reflexivity|].
  set (l := r :: a).
  apply nth_ext with (d := 0%R) (d' := 0%R).
  - now rewrite length_map, length_seq.
  - rewrite length_map, length_seq. intros k Hk.
    rewrite nth_map_seq by exact Hk.
    now rewrite Nat.mod_small.
Qed.

Lemma py_index_nat {A : Type} (l : list A) (i : nat) :
  py_index l (Z.of_nat i) =
  match nth_error l i with Some a => Ok a | None => Err IndexError end.
Proof.
  unfold py_index.
  destruct (Z.ltb_spec (Z.of_nat i) 0); [lia|].
  destruct (Z.ltb_spec (Z.of_nat i) 0); [lia|].
  now rewrite Nat2Z.id.
Qed.

Lemma py_index_nonneg {A : Type} (l : list A) (i : Z) :
  (0 <= i)%Z ->
  py_index l i =
  match nth_error l (Z.to_nat i) with Some a => Ok a | None => Err IndexError end.
Proof.
  intros Hi. rewrite <- (Z2Nat.id i) at 1 by exact Hi. apply py_index_nat.
Qed.

(** ** Frequency response analysis *)

(** The factor row that the loop of [analyze_frequency_response] computes for
    one microphone. *)
Lemma cal_factor_row (ref_response mic_response : list R) (ref_spectrum : list C) :
  ref_response <> [] ->
  rfft ref_response (Z.of_nat (length ref_response)) = Ok ref_spectrum ->
  exists row,
    (mic_spectrum <- rfft mic_response (Z.of_nat (length ref_response)) ;;
     Ok (zip_with Rdiv (map Cabs ref_spectrum) (map Cabs mic_spectrum))) = Ok row /\
    length row = length ref_response / 2 + 1 /\
    forall k, k <= length ref_response / 2 ->
      magnitude (length ref_response) mic_response k <> 0%R ->
      nth k row 0%R = (magnitude (length ref_response) ref_response k /
                       magnitude (length ref_response) mic_response k)%R.
Proof.
  intros Hne Href.
  assert (HN : 1 <= length ref_response)
    by (destruct ref_response; simpl; [congruence | lia]).
  assert (Hs : ref_spectrum =
               map (dft_bin (length ref_response)
                            (fit 0%R (length ref_response) ref_response))
                   (seq 0 (length ref_response / 2 + 1)))
    by (rewrite rfft_ok in Href by exact HN; congruence).
  subst ref_spectrum; clear Href.
  rewrite rfft_ok by exact HN. cbn [bind].
  eexists; split; [reflexivity|]. split.
  - rewrite length_zip_with, !length_map, !length_seq. lia.
  - intros k Hk _.
    rewrite nth_zip_with with (da := 0%R) (db := 0%R)
      by (rewrite !length_map, length_seq; lia).
    rewrite !(nth_indep _ 0%R (Cabs Czero)) by (rewrite !length_map, length_seq; lia).
    rewrite !map_nth.
    rewrite !nth_map_seq with (d := Czero) by lia.
    reflexivity.
Qed.

(** The magnitudes of an impulse. *)
Lemma magnitude_impulse (k : nat) : magnitude 3 [1; 0; 0]%R k = 1%R.
Proof.
  unfold magnitude, fit, dft_bin. cbn [firstn length Nat.sub repeat app seq map nth].
  unfold Csum, Cadd, Cscale, cis, Cabs, Czero, Cre, Cim. cbn [fold_right fst snd].
  set (c := cos (- angle 3 0 k)). set (s := sin (- angle 3 0 k)).
  replace ((1 * c + (0 * _ + (0 * _ + 0))) * (1 * c + (0 * _ + (0 * _ + 0))) +
           (1 * s + (0 * _ + (0 * _ + 0))) * (1 * s + (0 * _ + (0 * _ + 0))))%R
    with (Rsqr s + Rsqr c)%R by (unfold Rsqr; ring).
  unfold s, c. rewrite sin2_cos2. apply sqrt_1.
Qed.

(** The magnitudes of an impulse delayed by one sample. *)
Lemma magnitude_delayed_impulse (k : nat) : magnitude 3 [0; 1; 0]%R k = 1%R.
Proof.
  unfold magnitude, fit, dft_bin. cbn [firstn length Nat.sub repeat app seq map nth].
  unfold Csum, Cadd, Cscale, cis, Cabs, Czero, Cre, Cim. cbn [fold_right fst snd].
  set (c := cos (- angle 3 1 k)). set (s := sin (- angle 3 1 k)).
  replace ((0 * _ + (1 * c + (0 * _ + 0))) * (0 * _ + (1 * c + (0 * _ + 0))) +
           (0 * _ + (1 * s + (0 * _ + 0))) * (0 * _ + (1 * s + (0 * _ + 0))))%R
    with (Rsqr s + Rsqr c)%R by (unfold Rsqr; ring).
  unfold s, c. rewrite sin2_cos2. apply sqrt_1.
Qed.

(** C3, as stated, fails: not every list of signals and sample rate gives a
    table.  With no recording at [ref_mic_index] the lookup raises, with an
    empty reference the transform raises, and with the sample rate 0 the
    division [1 / sample_rate] raises. *)
Lemma analyze_frequency_response_without_table :
  analyze_frequency_response (init 0) [] 48000 = Err IndexError /\
  analyze_frequency_response (init 0) [[]; []] 48000 = Err InvalidFFTLength /\
  analyze_frequency_response (init 0) [[1; 0; 0]; [0; 1; 0]]%R 0 = Err ZeroDivisionError.
Proof. repeat split; reflexivity. Qed.

(** C3, amended -- The table built by [analyze_frequency_response].  With the
    reference recording found at [ref_mic_index], of length [N >= 1], and a
    non-zero sample rate, the analysis stores a table with one factor row per
    input recording (the reference included); row [i] holds
    [|FFT_ref| / |FFT_mic_i|] at each bin where [|FFT_mic_i|] is not zero,
    both transforms taken at length [N]; the frequency bins are
    [rfftfreq(N, 1/sample_rate)], that is [N//2 + 1] bins, and every row has
    as many entries as there are bins. *)
Theorem analyze_frequency_response_table (self : MicrophoneCalibrator)
    (mic_recordings : list (list R)) (sample_rate : Z) (ref_response : list R) :
  py_index mic_recordings (ref_mic_index self) = Ok ref_response ->
  ref_response <> [] ->
  sample_rate <> 0%Z ->
  exists tbl,
    analyze_frequency_response self mic_recordings sample_rate
      = Ok (Calibrator (ref_mic_index self) (Some tbl)) /\
    length (calibration_factors tbl) = length mic_recordings /\
    frequency_bins tbl = rfftfreq (length ref_response) (1 / IZR sample_rate)%R /\
    length (frequency_bins tbl) = length ref_response / 2 + 1 /\
    Forall (fun row => length row = length (frequency_bins tbl)) (calibration_factors tbl) /\
    forall i mic_response,
      nth_error mic_recordings i = Some mic_response ->
      exists row,
        nth_error (calibration_factors tbl) i = Some row /\
        forall k, k <= length ref_response / 2 ->
          magnitude (length ref_response) mic_response k <> 0%R ->
          nth k row 0%R = (magnitude (length ref_response) ref_response k /
                           magnitude (length ref_response) mic_response k)%R.
Proof.
  intros Href Hne Hrate.
  unfold analyze_frequency_response. rewrite Href. cbn [bind].
  assert (HN : 1 <= length ref_response)
    by (destruct ref_response; simpl; [congruence | lia]).
  destruct (rfft ref_response (Z.of_nat (length ref_response))) as [ref_spectrum|e] eqn:Hspec;
    [|rewrite rfft_ok in Hspec by exact HN; discriminate].
  cbn [bind].
  set (body := fun mic_response : list R =>
                 mic_spectrum <- rfft mic_response (Z.of_nat (length ref_response)) ;;
                 Ok (zip_with Rdiv (map Cabs ref_spectrum) (map Cabs mic_spectrum))).
  destruct (@for_each_ok _ _ body mic_recordings) as (factors & Hfactors).
  { intros mic _. destruct (@cal_factor_row ref_response mic ref_spectrum Hne Hspec)
      as (row & Hrow & _). exists row; exact Hrow. }
  rewrite Hfactors. cbn [bind].
  destruct (Z.eqb_spec sample_rate 0); [contradiction|].
  eexists; split; [reflexivity|]. cbn [calibration_factors frequency_bins].
  split; [eapply for_each_length; eauto|].
  split; [reflexivity|].
  split; [apply rfftfreq_length|].
  split.
  - eapply for_each_Forall; [|exact Hfactors].
    intros mic row _ Hrow. rewrite rfftfreq_length.
    destruct (@cal_factor_row ref_response mic ref_spectrum Hne Hspec)
      as (row' & Hrow' & Hlen & _).
    unfold body in Hrow. congruence.
  - intros i mic Hi.
    destruct (for_each_nth _ _ Hfactors _ Hi) as (row & Hrow & Hnth).
    exists row; split; [exact Hnth|].
    destruct (@cal_factor_row ref_response mic ref_spectrum Hne Hspec)
      as (row' & Hrow' & _ & Hval).
    unfold body in Hrow. replace row with row' by congruence. exact Hval.
Qed.

Lemma analyze_frequency_response_table_witness :
  exists tbl row,
    analyze_frequency_response (init 1) [[1; 0; 0]; [0; 1; 0]]%R 3
      = Ok (Calibrator 1 (Some tbl)) /\
    length (calibration_factors tbl) = 2 /\
    length (frequency_bins tbl) = 2 /\
    Forall (fun row => length row = 2) (calibration_factors tbl) /\
    nth_error (calibration_factors tbl) 0 = Some row /\
    forall k, k <= 1 ->
      nth k row 0%R = (magnitude 3 [0; 1; 0]%R k / magnitude 3 [1; 0; 0]%R k)%R.
Proof.
  destruct (@analyze_frequency_response_table (init 1) [[1; 0; 0]; [0; 1; 0]]%R 3
              [0; 1; 0]%R) as (tbl & Hrun & Hrows & _ & Hbins & Hlen & Hval).
  - reflexivity.
  - discriminate.
  - discriminate.
  - destruct (Hval 0 [1; 0; 0]%R eq_refl) as (row & Hrow & Hrowval).
    exists tbl, row. rewrite Hbins in Hlen.
    repeat split; auto.
    intros k Hk. apply Hrowval; [exact Hk|].
    rewrite magnitude_impulse. apply R1_neq_R0.
Defined.

(** ** Applying a table *)

Lemma enumerate_from_nth {A : Type} (l : list A) (start i : nat) (a : A) :
  nth_error l i = Some a ->
  nth_error (combine (seq start (length l)) l) i = Some (start + i, a).
Proof.
  revert start i; induction l as [|a0 l IH]; intros start [|i]; simpl; try discriminate.
  - intros [= ->]. now rewrite Nat.add_0_r.
  - intros H. rewrite (IH (S start) i H). f_equal. f_equal. lia.
Qed.

Lemma enumerate_nth {A : Type} (l : list A) (i : nat) (a : A) :
  nth_error l i = Some a -> nth_error (enumerate l) i = Some (i, a).
Proof. intros H. unfold enumerate. now rewrite (enumerate_from_nth l 0 i H). Qed.

Lemma enumerate_from_in {A : Type} (l : list A) (start i : nat) (a : A) :
  In (i, a) (combine (seq start (length l)) l) ->
  start <= i /\ nth_error l (i - start) = Some a.
Proof.
  revert start; induction l as [|a0 l IH]; simpl; intros start H; [contradiction|].
  destruct H as [[= <- <-]|H].
  - rewrite Nat.sub_diag. auto.
  - apply IH in H as [Hle Hn]. split; [lia|].
    replace (i - start) with (S (i - S start)) by lia. exact Hn.
Qed.

Lemma enumerate_in {A : Type} (l : list A) (i : nat) (a : A) :
  In (i, a) (enumerate l) -> nth_error l i = Some a.
Proof.
  intros H. apply enumerate_from_in in H as [_ H]. now rewrite Nat.sub_0_r in H.
Qed.

Lemma enumerate_from_app {A : Type} (pre post : list A) (start : nat) :
  combine (seq start (length (pre ++ post))) (pre ++ post) =
  combine (seq start (length pre)) pre ++
  combine (seq (start + length pre) (length post)) post.
Proof.
  revert start; induction pre as [|a pre IH]; simpl; intros start.
  - now rewrite Nat.add_0_r.
  - rewrite IH. replace (start + S (length pre)) with (S start + length pre) by lia.
    reflexivity.
Qed.

Lemma enumerate_app_cons {A : Type} (pre : list A) (a : A) (post : list A) :
  enumerate (pre ++ a :: post) =
  enumerate pre ++ (length pre, a) :: combine (seq (S (length pre)) (length post)) post.
Proof. unfold enumerate. rewrite enumerate_from_app. reflexivity. Qed.

Lemma length_enumerate {A : Type} (l : list A) : length (enumerate l) = length l.
Proof. unfold enumerate. rewrite length_combine, length_seq. lia. Qed.

Lemma column_length (ncols : nat) (rows : list (list R)) (idx : nat) (s : list R) :
  column 0%R ncols rows idx = Ok s -> length s = length rows.
Proof.
  unfold column. destruct (idx <? ncols); [|discriminate].
  intros [= <-]. apply length_map.
Qed.

Lemma correction_core_length (nbins : nat) (row mic_response corrected : list R) :
  correction_core nbins row mic_response = Ok corrected ->
  length corrected = length mic_response.
Proof.
  unfold correction_core. intros H.
  apply bind_ok in H as (mic_fft & _ & H).
  apply irfft_length in H. now rewrite Nat2Z.id in H.
Qed.

Lemma correction_core_total (nbins : nat) (row mic_response : list R) :
  1 <= nbins -> mic_response <> [] ->
  exists corrected, correction_core nbins row mic_response = Ok corrected.
Proof.
  intros Hb Hne. unfold correction_core.
  replace (Z.of_nat nbins * 2 - 1)%Z with (Z.of_nat (nbins * 2 - 1)) by lia.
  rewrite rfft_ok by lia. cbn [bind].
  rewrite irfft_ok by (destruct mic_response; simpl; [congruence | lia]).
  eauto.
Qed.

Lemma apply_calibration_folder_unfold (self : MicrophoneCalibrator) (data : table R)
      (mic_recordings : list (list R)) (sample_rate : Z) :
  calibration_data self = Some data ->
  apply_calibration_folder self mic_recordings sample_rate =
  for_each (folder_body data) (enumerate mic_recordings).
Proof.
  intros H. unfold apply_calibration_folder. now rewrite H.
Qed.

(** Position [i] of the folder entry point applies row [i]. *)
Lemma folder_body_row (data : table R) (i : nat) (mic_response row : list R) :
  nth_error (calibration_factors data) i = Some row ->
  folder_body data (i, mic_response) =
  correction_core (length (frequency_bins data)) row mic_response.
Proof.
  intros Hrow. unfold folder_body, correction_core.
  destruct (rfft mic_response _); [|reflexivity].
  cbn [bind]. now rewrite py_index_nat, Hrow.
Qed.

(** Channel [idx] of the file entry point applies row [int(mic_number) - 1]
    whenever that index names a calibrated microphone. *)
Lemma calibrate_channel_row (data : table R) (ncols : nat) (rows : list (list R))
      (idx : nat) (channel_name : string) (info : mic_info) (x : Q) :
  mic_number info = Some x ->
  (1 <= int x <= Z.of_nat (length (calibration_factors data)))%Z ->
  exists row,
    nth_error (calibration_factors data) (Z.to_nat (int x - 1)) = Some row /\
    calibrate_channel data ncols rows (idx, (channel_name, info)) =
    (mic_response <- column 0%R ncols rows idx ;;
     correction_core (length (frequency_bins data)) row mic_response).
Proof.
  intros Hx Hrange.
  destruct (nth_error (calibration_factors data) (Z.to_nat (int x - 1))) as [row|] eqn:Hrow.
  2:{ apply nth_error_None in Hrow. lia. }
  exists row; split; [reflexivity|].
  unfold calibrate_channel. rewrite Hx.
  destruct (Z.ltb_spec (int x - 1) 0); [lia|].
  destruct (Z.geb_spec (int x - 1) (Z.of_nat (length (calibration_factors data)))); [lia|].
  cbn [orb].
  destruct (column 0%R ncols rows idx) as [mic_response|e]; [|reflexivity].
  cbn [bind]. unfold correction_core.
  destruct (rfft mic_response _); [|reflexivity].
  cbn [bind]. rewrite py_index_nonneg by lia. now rewrite Hrow.
Qed.

Lemma apply_calibration_file_unfold (self : MicrophoneCalibrator) (data : table R)
      (ncols : nat) (rows : list (list R)) (sample_rate : Z)
      (items : list (string * mic_info)) :
  calibration_data self = Some data ->
  apply_calibration_file self (AsArray (Arr2 ncols rows)) sample_rate (Dict items) =
  if negb (ncols =? length items) then Err ShapeMismatch
  else
    calibrated_recordings <-
      for_each (calibrate_channel data ncols rows) (enumerate items) ;;
    Ok (to_transposed_array (length rows) calibrated_recordings).
Proof.
  intros H. unfold apply_calibration_file. rewrite H, length_map. reflexivity.
Qed.

(** What a call that returns has gone through. *)
Lemma apply_calibration_file_accepts (self : MicrophoneCalibrator)
      (mic_recordings : recordings) (sample_rate : Z) (mic_dict : mic_dict_arg)
      (out : ndarray R) :
  apply_calibration_file self mic_recordings sample_rate mic_dict = Ok out ->
  exists data ncols rows items calibrated_recordings,
    calibration_data self = Some data /\
    mic_recordings = AsArray (Arr2 ncols rows) /\
    mic_dict = Dict items /\
    ncols = length items /\
    for_each (calibrate_channel data ncols rows) (enumerate items)
      = Ok calibrated_recordings /\
    out = to_transposed_array (length rows) calibrated_recordings.
Proof.
  unfold apply_calibration_file.
  destruct (calibration_data self) as [data|]; [|discriminate].
  destruct mic_dict as [|items]; [discriminate|].
  destruct mic_recordings as [l|[x|ncols rows]]; try discriminate.
  rewrite length_map.
  destruct (Nat.eqb_spec ncols (length items)) as [Heq|]; [|discriminate].
  cbn [negb]. intros H.
  apply bind_ok in H as (cols & Hcols & H).
  injection H as <-.
  exists data, ncols, rows, items, cols. repeat split; auto.
Qed.

Lemma calibrate_channel_length (data : table R) (ncols : nat) (rows : list (list R))
      (entry : nat * (string * mic_info)) (corrected : list R) :
  calibrate_channel data ncols rows entry = Ok corrected ->
  length corrected = length rows.
Proof.
  destruct entry as (idx & channel_name & info). unfold calibrate_channel.
  destruct (mic_number info) as [x|]; [|discriminate].
  destruct (_ || _); [discriminate|].
  intros H.
  apply bind_ok in H as (mic_response & Hcol & H).
  apply bind_ok in H as (mic_fft & _ & H).
  apply bind_ok in H as (row & _ & H).
  apply irfft_length in H. rewrite Nat2Z.id in H.
  apply column_length in Hcol. congruence.
Qed.

Lemma calibrate_channel_total (data : table R) (ncols : nat) (rows : list (list R))
      (idx : nat) (channel_name : string) (info : mic_info) :
  idx < ncols -> rows <> [] -> 1 <= length (frequency_bins data) ->
  entry_in_range (length (calibration_factors data)) info = true ->
  exists corrected,
    calibrate_channel data ncols rows (idx, (channel_name, info)) = Ok corrected.
Proof.
  intros Hidx Hrows Hbins Hin. unfold entry_in_range in Hin.
  destruct (mic_number info) as [x|] eqn:Hx; [|discriminate].
  apply andb_true_iff in Hin as [H1 H2].
  apply Z.leb_le in H1, H2.
  destruct (@calibrate_channel_row data ncols rows idx channel_name info x Hx)
    as (row & _ & ->); [lia|].
  unfold column. destruct (Nat.ltb_spec idx ncols); [|lia].
  cbn [bind]. apply correction_core_total; auto.
  destruct rows; simpl; congruence.
Qed.

(** Column [idx] of the transposed result is the [idx]-th corrected
    recording. *)
Lemma transposed_channel (nsamples : nat) (cols : list (list R)) (idx : nat)
      (corrected : list R) :
  Forall (fun c => length c = nsamples) cols ->
  nth_error cols idx = Some corrected ->
  channel (to_transposed_array nsamples cols) idx = Ok corrected.
Proof.
  intros Hlen Hidx.
  assert (Hlt : idx < length cols) by (apply nth_error_Some; congruence).
  unfold to_transposed_array. destruct cols as [|c0 cols']; [simpl in Hlt; lia|].
  set (cols := c0 :: cols') in *.
  unfold channel, column. destruct (Nat.ltb_spec idx (length cols)); [|lia].
  f_equal. unfold transpose. rewrite map_map.
  assert (Hc : length corrected = nsamples).
  { rewrite Forall_forall in Hlen. apply Hlen. eapply nth_error_In; eauto. }
  apply nth_ext with (d := 0%R) (d' := 0%R).
  - now rewrite length_map, length_seq.
  - rewrite length_map, length_seq. intros j Hj.
    rewrite nth_map_seq by exact Hj.
    rewrite (nth_indep _ 0%R (nth j (@nil R) 0%R)) by (now rewrite length_map).
    rewrite (map_nth (fun c => nth j c 0%R) cols [] idx).
    now rewrite (nth_error_nth _ _ _ Hidx).
Qed.

Lemma transposed_shape (nsamples : nat) (cols : list (list R)) :
  cols <> [] ->
  exists rows',
    to_transposed_array nsamples cols = Arr2 (length cols) rows' /\
    length rows' = nsamples /\
    Forall (fun r => length r = length cols) rows'.
Proof.
  intros Hne. unfold to_transposed_array.
  destruct cols as [|c0 cols']; [congruence|].
  eexists; split; [reflexivity|]. unfold transpose. split.
  - now rewrite length_map, length_seq.
  - apply Forall_forall. intros r Hr.
    apply in_map_iff in Hr as (j & <- & _). apply length_map.
Qed.

Lemma apply_calibration_file_total (self : MicrophoneCalibrator) (data : table R)
      (rows : list (list R)) (sample_rate : Z) (items : list (string * mic_info)) :
  calibration_data self = Some data ->
  rows <> [] -> 1 <= length (frequency_bins data) ->
  forallb (fun it => entry_in_range (length (calibration_factors data)) (snd it)) items
    = true ->
  exists out,
    apply_calibration_file self (AsArray (Arr2 (length items) rows)) sample_rate
                           (Dict items) = Ok out.
Proof.
  intros Hdata Hrows Hbins Hitems.
  rewrite apply_calibration_file_unfold with (data := data) by exact Hdata.
  rewrite Nat.eqb_refl. cbn [negb].
  destruct (@for_each_ok _ _ (calibrate_channel data (length items) rows)
                         (enumerate items)) as (cols & Hcols).
  - intros (idx & channel_name & info) Hin.
    apply enumerate_in in Hin.
    rewrite forallb_forall in Hitems.
    apply calibrate_channel_total; auto.
    + apply nth_error_Some. congruence.
    + apply (Hitems (channel_name, info)). eapply nth_error_In; eauto.
  - rewrite Hcols. cbn [bind]. eauto.
Qed.

Lemma apply_calibration_folder_total (self : MicrophoneCalibrator) (data : table R)
      (mic_recordings : list (list R)) (sample_rate : Z) :
  calibration_data self = Some data ->
  1 <= length (frequency_bins data) ->
  length mic_recordings <= length (calibration_factors data) ->
  Forall (fun r => r <> []) mic_recordings ->
  exists out, apply_calibration_folder self mic_recordings sample_rate = Ok out.
Proof.
  intros Hdata Hbins Hlen Hne.
  rewrite apply_calibration_folder_unfold with (data := data) by exact Hdata.
  apply for_each_ok. intros (i & mic_response) Hin.
  apply enumerate_in in Hin.
  assert (Hi : i < length (calibration_factors data)).
  { assert (i < length mic_recordings) by (apply nth_error_Some; congruence). lia. }
  destruct (nth_error (calibration_factors data) i) as [row|] eqn:Hrow;
    [|apply nth_error_None in Hrow; lia].
  rewrite folder_body_row with (row := row) by exact Hrow.
  apply correction_core_total; auto.
  rewrite Forall_forall in Hne. apply Hne. eapply nth_error_In; eauto.
Qed.

Lemma calibrate_channel_ok_inv (data : table R) (ncols : nat) (rows : list (list R))
      (idx : nat) (channel_name : string) (info : mic_info) (corrected : list R) :
  calibrate_channel data ncols rows (idx, (channel_name, info)) = Ok corrected ->
  exists x row signal,
    mic_number info = Some x /\
    (1 <= int x <= Z.of_nat (length (calibration_factors data)))%Z /\
    nth_error (calibration_factors data) (Z.to_nat (int x - 1)) = Some row /\
    column 0%R ncols rows idx = Ok signal /\
    correction_core (length (frequency_bins data)) row signal = Ok corrected.
Proof.
  intros H.
  destruct (mic_number info) as [x|] eqn:Hx;
    [|unfold calibrate_channel in H; rewrite Hx in H; discriminate].
  assert (Hrange : (1 <= int x <= Z.of_nat (length (calibration_factors data)))%Z).
  { unfold calibrate_channel in H. rewrite Hx in H.
    destruct (Z.ltb_spec (int x - 1) 0); [discriminate|].
    destruct (Z.geb_spec (int x - 1) (Z.of_nat (length (calibration_factors data))));
      [discriminate|]. lia. }
  destruct (@calibrate_channel_row data ncols rows idx channel_name info x Hx Hrange)
    as (row & Hrow & Heq).
  rewrite Heq in H. apply bind_ok in H as (signal & Hcol & Hcore).
  exists x, row, signal. auto.
Qed.

(** Channel [idx] of what [apply_calibration_file] returns. *)
Lemma apply_calibration_file_channel (self : MicrophoneCalibrator) (data : table R)
      (ncols : nat) (rows : list (list R)) (sample_rate : Z)
      (items : list (string * mic_info)) (out : ndarray R)
      (idx : nat) (channel_name : string) (info : mic_info) :
  calibration_data self = Some data ->
  apply_calibration_file self (AsArray (Arr2 ncols rows)) sample_rate (Dict items) = Ok out ->
  nth_error items idx = Some (channel_name, info) ->
  exists x row signal corrected,
    mic_number info = Some x /\
    (1 <= int x <= Z.of_nat (length (calibration_factors data)))%Z /\
    nth_error (calibration_factors data) (Z.to_nat (int x - 1)) = Some row /\
    channel (Arr2 ncols rows) idx = Ok signal /\
    correction_core (length (frequency_bins data)) row signal = Ok corrected /\
    channel out idx = Ok corrected.
Proof.
  intros Hdata Hrun Hidx.
  rewrite apply_calibration_file_unfold with (data := data) in Hrun by exact Hdata.
  destruct (negb (ncols =? length items)); [discriminate|].
  apply bind_ok in Hrun as (cols & Hcols & Hout). injection Hout as <-.
  destruct (for_each_nth _ _ Hcols _ (enumerate_nth _ _ Hidx)) as (corrected & Hbody & Hnth).
  destruct (calibrate_channel_ok_inv _ _ _ _ _ _ Hbody)
    as (x & row & signal & Hx & Hrange & Hrow & Hcol & Hcore).
  exists x, row, signal, corrected. repeat split; auto; try lia.
  apply transposed_channel; auto.
  eapply for_each_Forall; [|exact Hcols].
  intros entry c _ Hc. eapply calibrate_channel_length; eauto.
Qed.

Lemma int_inject_Z (z : Z) : int (inject_Z z) = z.
Proof. unfold int, inject_Z; simpl. apply Z.quot_1_r. Qed.

(** [int] rounds toward zero: down for a positive number, up for a negative
    one, by less than one. *)
Lemma int_toward_zero (x : Q) :
  ((0 <= x -> inject_Z (int x) <= x /\ x < inject_Z (int x + 1)) /\
   (x <= 0 -> x <= inject_Z (int x) /\ inject_Z (int x - 1) < x))%Q.
Proof.
  destruct x as [p q]. unfold int, Qle, Qlt, inject_Z; simpl.
  assert (Hq : (0 < Z.pos q)%Z) by lia.
  pose proof (Z.quot_rem' p (Z.pos q)) as Hqr.
  split; intros Hp.
  - assert (Hp0 : (0 <= p)%Z) by lia.
    pose proof (Z.rem_bound_pos p (Z.pos q) Hp0 Hq). nia.
  - assert (Hp0 : (p <= 0)%Z) by lia.
    pose proof (Z.rem_bound_pos_neg p (Z.pos q) Hq Hp0). nia.
Qed.

(** C6 -- Channel-map resolution.  A channel whose dictionary entry names
    microphone [i], with [1 <= i <= number of calibrated microphones], is
    corrected by [apply_calibration_file] with factor row [i - 1], and the
    corrected samples of that channel are those that
    [apply_calibration_folder] returns at position [i - 1] for the same
    signal. *)
Theorem channel_map_resolution_matches_position
    (self : MicrophoneCalibrator) (data : table R)
    (ncols : nat) (rows : list (list R)) (items : list (string * mic_info))
    (folder_recordings : list (list R)) (sample_rate : Z)
    (idx : nat) (channel_name : string) (info : mic_info) (i : nat)
    (signal : list R) (out_file : ndarray R) (out_folder : list (list R)) :
  calibration_data self = Some data ->
  1 <= i <= length (calibration_factors data) ->
  nth_error items idx = Some (channel_name, info) ->
  mic_number info = Some (inject_Z (Z.of_nat i)) ->
  channel (Arr2 ncols rows) idx = Ok signal ->
  nth_error folder_recordings (i - 1) = Some signal ->
  apply_calibration_file self (AsArray (Arr2 ncols rows)) sample_rate (Dict items)
    = Ok out_file ->
  apply_calibration_folder self folder_recordings sample_rate = Ok out_folder ->
  exists row corrected,
    nth_error (calibration_factors data) (i - 1) = Some row /\
    correction_core (length (frequency_bins data)) row signal = Ok corrected /\
    channel out_file idx = Ok corrected /\
    nth_error out_folder (i - 1) = Some corrected.
Proof.
  intros Hdata Hi Hidx Hnum Hsig Hpos Hfile Hfolder.
  destruct (apply_calibration_file_channel _ _ _ _ _ _ Hdata Hfile Hidx)
    as (x & row & signal' & corrected & Hx & _ & Hrow & Hsig' & Hcore & Hout).
  assert (x = inject_Z (Z.of_nat i)) by congruence. subst x.
  assert (signal' = signal) by congruence. subst signal'.
  rewrite int_inject_Z in Hrow.
  replace (Z.to_nat (Z.of_nat i - 1)) with (i - 1) in Hrow by lia.
  exists row, corrected. repeat split; auto.
  rewrite apply_calibration_folder_unfold with (data := data) in Hfolder by exact Hdata.
  destruct (for_each_nth _ _ Hfolder _ (enumerate_nth _ _ Hpos)) as (c & Hbody & Hnth).
  rewrite folder_body_row with (row := row) in Hbody by exact Hrow.
  congruence.
Qed.

Lemma channel_map_resolution_matches_position_witness :
  exists out_file out_folder row corrected,
    apply_calibration_file example_self (AsArray (Arr2 2 example_recording)) 48000
                           (Dict example_dict) = Ok out_file /\
    apply_calibration_folder example_self [[7; 8; 9]; [1; 3; 5]]%R 48000 = Ok out_folder /\
    nth_error (calibration_factors example_table) 1 = Some row /\
    correction_core 2 row [1; 3; 5]%R = Ok corrected /\
    channel out_file 0 = Ok corrected /\
    nth_error out_folder 1 = Some corrected.
Proof.
  destruct (@apply_calibration_file_total example_self example_table example_recording
              48000 example_dict) as (out_file & Hfile);
    [reflexivity | discriminate | simpl; lia | reflexivity |].
  destruct (@apply_calibration_folder_total example_self example_table
              [[7; 8; 9]; [1; 3; 5]]%R 48000) as (out_folder & Hfolder);
    [reflexivity | simpl; lia | simpl; lia | repeat constructor; discriminate |].
  destruct (@channel_map_resolution_matches_position example_self example_table
              2 example_recording example_dict [[7; 8; 9]; [1; 3; 5]]%R 48000
              0 "channel_1"%string (MicInfo (Some (inject_Z 2)) None) 2
              [1; 3; 5]%R out_file out_folder)
    as (row & corrected & H1 & H2 & H3 & H4);
    [reflexivity | simpl; lia | reflexivity | reflexivity | reflexivity | reflexivity
     | exact Hfile | exact Hfolder |].
  exists out_file, out_folder, row, corrected. repeat split; assumption.
Defined.

(** Shape of what [apply_calibration_file] returns when the dictionary has at
    least one channel. *)
Lemma apply_calibration_file_result_shape (self : MicrophoneCalibrator)
      (ncols : nat) (rows : list (list R)) (sample_rate : Z)
      (items : list (string * mic_info)) (out : ndarray R) :
  apply_calibration_file self (AsArray (Arr2 ncols rows)) sample_rate (Dict items) = Ok out ->
  items <> [] ->
  exists rows',
    out = Arr2 ncols rows' /\
    length rows' = length rows /\
    Forall (fun r => length r = ncols) rows'.
Proof.
  intros Hrun Hne.
  apply apply_calibration_file_accepts in Hrun
    as (data & ncols' & rows0 & items0 & cols & Hdata & Hrec & Hdict & Hshape & Hcols & ->).
  injection Hrec as <- <-. injection Hdict as <-.
  assert (Hlen : length cols = length items).
  { apply for_each_length in Hcols. now rewrite length_enumerate in Hcols. }
  destruct (@transposed_shape (length rows) cols) as (rows' & -> & Hr & Hc).
  { intros ->. destruct items; simpl in Hlen; [congruence | discriminate]. }
  exists rows'. rewrite Hshape, <- Hlen. auto.
Qed.

(** The array that is accepted with a two-channel dictionary has its samples
    on the first axis (three rows for two channels) and so has the array
    returned for it; the same data laid out [channel][sample] is rejected. *)
Lemma apply_calibration_file_first_axis_is_samples :
  (exists rows',
     apply_calibration_file example_self (AsArray (Arr2 2 [[1; 2]; [3; 4]; [5; 6]]%R))
                            48000 (Dict example_dict) = Ok (Arr2 2 rows') /\
     length rows' = 3 /\ length example_dict = 2) /\
  apply_calibration_file example_self (AsArray (Arr2 3 [[1; 3; 5]; [2; 4; 6]]%R))
                         48000 (Dict example_dict) = Err ShapeMismatch.
Proof.
  split; [|reflexivity].
  destruct (@apply_calibration_file_total example_self example_table example_recording
              48000 example_dict) as (out & Hrun);
    [reflexivity | discriminate | simpl; lia | reflexivity |].
  destruct (apply_calibration_file_result_shape _ _ _ _ Hrun) as (rows' & -> & Hr & _);
    [discriminate|].
  exists rows'. auto.
Qed.

(** C7 -- The layout of what [apply_calibration_file] returns.  An array that
    it accepts is indexed [sample][channel] and has one column per
    dictionary entry.  With at least one channel the returned array has that
    same shape, [(samples, channels)], where the docstring of the method
    announces [(channel, sample)]: the list of corrected channels is
    transposed before it is returned.  Column [idx] of the result is the
    correction of column [idx] of the input and has as many samples. *)
Theorem apply_calibration_file_preserves_shape (self : MicrophoneCalibrator)
    (mic_recordings : recordings) (sample_rate : Z) (mic_dict : mic_dict_arg)
    (out : ndarray R) :
  apply_calibration_file self mic_recordings sample_rate mic_dict = Ok out ->
  exists data ncols rows items,
    calibration_data self = Some data /\
    mic_recordings = AsArray (Arr2 ncols rows) /\
    mic_dict = Dict items /\
    ncols = length items /\
    (items <> [] ->
     exists rows',
       out = Arr2 ncols rows' /\
       length rows' = length rows /\
       Forall (fun r => length r = ncols) rows' /\
       forall idx, idx < ncols ->
         exists row signal corrected,
           channel (Arr2 ncols rows) idx = Ok signal /\
           correction_core (length (frequency_bins data)) row signal = Ok corrected /\
           channel out idx = Ok corrected /\
           length corrected = length signal).
Proof.
  intros Hrun.
  destruct (apply_calibration_file_accepts _ _ _ _ Hrun)
    as (data & ncols & rows & items & cols & Hdata & -> & -> & Hshape & Hcols & Hout).
  exists data, ncols, rows, items. repeat split; auto.
  intros Hne.
  destruct (apply_calibration_file_result_shape _ _ _ _ Hrun Hne)
    as (rows' & Hrows' & Hr & Hc).
  exists rows'. repeat split; auto.
  intros idx Hidx.
  destruct (nth_error items idx) as [[channel_name info]|] eqn:Hitem;
    [|apply nth_error_None in Hitem; lia].
  destruct (apply_calibration_file_channel _ _ _ _ _ _ Hdata Hrun Hitem)
    as (x & row & signal & corrected & _ & _ & _ & Hsig & Hcore & Hch).
  exists row, signal, corrected.
  split; [exact Hsig|]. split; [exact Hcore|]. split; [exact Hch|].
  eapply correction_core_length; eauto.
Qed.

Lemma apply_calibration_file_preserves_shape_witness :
  exists out rows',
    apply_calibration_file example_self (AsArray (Arr2 2 example_recording)) 48000
                           (Dict example_dict) = Ok out /\
    out = Arr2 2 rows' /\
    length rows' = 3 /\
    Forall (fun r => length r = 2) rows'.
Proof.
  destruct (@apply_calibration_file_total example_self example_table example_recording
              48000 example_dict) as (out & Hrun);
    [reflexivity | discriminate | simpl; lia | reflexivity |].
  destruct (apply_calibration_file_preserves_shape _ _ _ _ Hrun)
    as (data & ncols & rows & items & _ & Hrec & Hdict & _ & Hshape).
  injection Hrec as <- <-. injection Hdict as <-.
  destruct Hshape as (rows' & Hout & Hr & Hc & _); [discriminate|].
  exists out, rows'. auto.
Defined.

(** The range check of the loop body. *)
Lemma calibrate_channel_out_of_range (data : table R) (ncols : nat)
      (rows : list (list R)) (idx : nat) (channel_name : string) (info : mic_info)
      (x : Q) :
  mic_number info = Some x ->
  (int x < 1 \/ Z.of_nat (length (calibration_factors data)) < int x)%Z ->
  calibrate_channel data ncols rows (idx, (channel_name, info)) = Err (OutOfRange (int x)).
Proof.
  intros Hx Hout. unfold calibrate_channel. rewrite Hx.
  replace ((int x - 1 <? 0)%Z ||
           (int x - 1 >=? Z.of_nat (length (calibration_factors data)))%Z) with true.
  - now rewrite Z.sub_add.
  - symmetry. apply orb_true_iff.
    destruct Hout; [left; apply Z.ltb_lt | right; apply Z.geb_le]; lia.
Qed.

(** C8, as stated, fails: with four calibrated microphones the microphone
    number 4.5 lies outside [[1, 4]], yet it is truncated to 4 and the call
    returns corrected recordings. *)
Lemma fractional_mic_number_above_range_accepted :
  (inject_Z 4 < 9 # 2)%Q /\
  length (calibration_factors
            (Table [0; 1]%R [[1; 1]; [1; 1]; [1; 1]; [1; 1]]%R)) = 4 /\
  exists out,
    apply_calibration_file
      (Calibrator 1 (Some (Table [0; 1]%R [[1; 1]; [1; 1]; [1; 1]; [1; 1]]%R)))
      (AsArray (Arr2 1 [[1]; [2]; [3]]%R)) 48000
      (Dict [("channel_1"%string, MicInfo (Some (9 # 2)%Q) None)]) = Ok out.
Proof.
  split; [reflexivity|]. split; [reflexivity|].
  apply (@apply_calibration_file_total
           (Calibrator 1 (Some (Table [0; 1]%R [[1; 1]; [1; 1]; [1; 1]; [1; 1]]%R)))
           (Table [0; 1]%R [[1; 1]; [1; 1]; [1; 1]; [1; 1]]%R)
           [[1]; [2]; [3]]%R 48000
           [("channel_1"%string, MicInfo (Some (9 # 2)%Q) None)]).
  - reflexivity.
  - discriminate.
  - simpl; lia.
  - reflexivity.
Qed.

(** C8, amended -- Out-of-range microphone number.  With a loaded table of
    [n] microphones and a dictionary entry whose microphone number,
    truncated by [int], is outside [[1, n]], [apply_calibration_file] never
    returns corrected recordings; and when the recording is a two-dimensional
    array with one column per entry and the entries before the offending one
    are accepted, the exception is the out-of-range [ValueError] naming that
    number. *)
Theorem apply_calibration_file_out_of_range (self : MicrophoneCalibrator)
    (data : table R) (mic_recordings : recordings) (sample_rate : Z)
    (pre post : list (string * mic_info)) (channel_name : string) (info : mic_info)
    (x : Q) :
  calibration_data self = Some data ->
  mic_number info = Some x ->
  (int x < 1 \/ Z.of_nat (length (calibration_factors data)) < int x)%Z ->
  (exists e,
     apply_calibration_file self mic_recordings sample_rate
       (Dict (pre ++ (channel_name, info) :: post)) = Err e) /\
  (forall rows,
     forallb (fun it => entry_in_range (length (calibration_factors data)) (snd it)) pre
       = true ->
     pre = [] \/ (rows <> [] /\ 1 <= length (frequency_bins data)) ->
     apply_calibration_file self
       (AsArray (Arr2 (length (pre ++ (channel_name, info) :: post)) rows)) sample_rate
       (Dict (pre ++ (channel_name, info) :: post)) = Err (OutOfRange (int x))).
Proof.
  intros Hdata Hx Hout.
  pose proof (fun ncols rows idx =>
                @calibrate_channel_out_of_range data ncols rows idx channel_name info x
                                                Hx Hout) as Hbody.
  split.
  - destruct mic_recordings as [l|[a|ncols rows]].
    + unfold apply_calibration_file. rewrite Hdata. eauto.
    + unfold apply_calibration_file. rewrite Hdata. eauto.
    + rewrite apply_calibration_file_unfold with (data := data) by exact Hdata.
      destruct (negb _); [eauto|].
      destruct (@for_each_err _ _ (calibrate_channel data ncols rows)
                  (enumerate (pre ++ (channel_name, info) :: post))
                  (length pre, (channel_name, info)) (OutOfRange (int x)))
        as (a' & e' & _ & _ & Hfe).
      * rewrite enumerate_app_cons. apply in_or_app. right. left. reflexivity.
      * apply Hbody.
      * rewrite Hfe. cbn [bind]. eauto.
  - intros rows Hpre Hreach.
    rewrite apply_calibration_file_unfold with (data := data) by exact Hdata.
    rewrite Nat.eqb_refl. cbn [negb].
    rewrite enumerate_app_cons.
    rewrite for_each_first_err with (e := OutOfRange (int x)); [reflexivity | | apply Hbody].
    intros (idx & nm & inf) Hin.
    apply enumerate_in in Hin.
    assert (Hidx : idx < length pre) by (apply nth_error_Some; congruence).
    destruct Hreach as [->|[Hrows Hbins]]; [simpl in Hidx; lia|].
    apply calibrate_channel_total; auto.
    + rewrite length_app. lia.
    + rewrite forallb_forall in Hpre.
      apply (Hpre (nm, inf)). eapply nth_error_In; eauto.
Qed.

Lemma apply_calibration_file_out_of_range_witness :
  (exists e,
     apply_calibration_file
       (Calibrator 1 (Some (Table [0; 1]%R [[1; 1]; [1; 1]; [1; 1]; [1; 1]]%R)))
       (AsArray (Arr2 2 example_recording)) 48000
       (Dict ([("channel_1"%string, MicInfo (Some (inject_Z 3)) None)] ++
              ("channel_2"%string, MicInfo (Some (inject_Z 99)) None) :: [])) = Err e) /\
  apply_calibration_file
    (Calibrator 1 (Some (Table [0; 1]%R [[1; 1]; [1; 1]; [1; 1]; [1; 1]]%R)))
    (AsArray (Arr2 2 example_recording)) 48000
    (Dict ([("channel_1"%string, MicInfo (Some (inject_Z 3)) None)] ++
           ("channel_2"%string, MicInfo (Some (inject_Z 99)) None) :: []))
  = Err (OutOfRange 99).
Proof.
  destruct (@apply_calibration_file_out_of_range
              (Calibrator 1 (Some (Table [0; 1]%R [[1; 1]; [1; 1]; [1; 1]; [1; 1]]%R)))
              (Table [0; 1]%R [[1; 1]; [1; 1]; [1; 1]; [1; 1]]%R)
              (AsArray (Arr2 2 example_recording)) 48000
              [("channel_1"%string, MicInfo (Some (inject_Z 3)) None)] []
              "channel_2"%string (MicInfo (Some (inject_Z 99)) None) (inject_Z 99))
    as [Hfail Hkind].
  - reflexivity.
  - reflexivity.
  - right. simpl. reflexivity.
  - split; [exact Hfail|].
    apply (Hkind example_recording).
    + reflexivity.
    + right. split; [discriminate | simpl; lia].
Defined.

(** C10 -- Fractional microphone numbers.  A dictionary entry whose
    microphone number [x] is not a whole number and whose truncation toward
    zero [int x] lies in [[1, n]] is not rejected: the loop body neither
    reports a missing nor an out-of-range number, it corrects the channel with
    factor row [int x - 1]; and whenever the call returns, that channel of
    the result is the correction with that row. *)
Theorem fractional_mic_number_is_truncated (self : MicrophoneCalibrator)
    (data : table R) (ncols : nat) (rows : list (list R)) (sample_rate : Z)
    (items : list (string * mic_info)) (idx : nat) (channel_name : string)
    (info : mic_info) (x : Q) :
  calibration_data self = Some data ->
  nth_error items idx = Some (channel_name, info) ->
  mic_number info = Some x ->
  ~ (inject_Z (int x) == x)%Q ->
  (1 <= int x <= Z.of_nat (length (calibration_factors data)))%Z ->
  exists row,
    nth_error (calibration_factors data) (Z.to_nat (int x - 1)) = Some row /\
    calibrate_channel data ncols rows (idx, (channel_name, info)) =
      (mic_response <- column 0%R ncols rows idx ;;
       correction_core (length (frequency_bins data)) row mic_response) /\
    forall out,
      apply_calibration_file self (AsArray (Arr2 ncols rows)) sample_rate (Dict items)
        = Ok out ->
      exists signal corrected,
        channel (Arr2 ncols rows) idx = Ok signal /\
        correction_core (length (frequency_bins data)) row signal = Ok corrected /\
        channel out idx = Ok corrected.
Proof.
  intros Hdata Hitem Hx _ Hrange.
  destruct (@calibrate_channel_row data ncols rows idx channel_name info x Hx Hrange)
    as (row & Hrow & Hbody).
  exists row. split; [exact Hrow|]. split; [exact Hbody|].
  intros out Hrun.
  destruct (apply_calibration_file_channel _ _ _ _ _ _ Hdata Hrun Hitem)
    as (x' & row' & signal & corrected & Hx' & _ & Hrow' & Hsig & Hcore & Hch).
  assert (x' = x) by congruence. subst x'.
  assert (row' = row) by congruence. subst row'.
  exists signal, corrected. auto.
Qed.

Lemma fractional_mic_number_is_truncated_witness :
  exists row,
    nth_error (calibration_factors example_table) 1 = Some row /\
    calibrate_channel example_table 2 example_recording
      (0, ("channel_1"%string, MicInfo (Some (29 # 10)%Q) None)) =
      (mic_response <- column 0%R 2 example_recording 0 ;;
       correction_core 2 row mic_response).
Proof.
  destruct (@fractional_mic_number_is_truncated example_self example_table
              2 example_recording 48000
              [("channel_1"%string, MicInfo (Some (29 # 10)%Q) None);
               ("channel_2"%string, MicInfo (Some (inject_Z 1)) None)]
              0 "channel_1"%string (MicInfo (Some (29 # 10)%Q) None) (29 # 10)%Q)
    as (row & Hrow & Hbody & _).
  - reflexivity.
  - reflexivity.
  - reflexivity.
  - unfold Qeq; simpl. lia.
  - vm_compute. split; discriminate.
  - exists row. split; [exact Hrow | exact Hbody].
Defined.

(** ** Self-correction on a sweep of even length *)

Lemma angle_zero_l (n k : nat) : angle n 0 k = 0%R.
Proof. unfold angle. simpl INR. unfold Rdiv. ring. Qed.

Lemma angle_zero_r (n j : nat) : angle n j 0 = 0%R.
Proof. unfold angle. simpl INR. unfold Rdiv. ring. Qed.

Lemma angle_2_1_1 : angle 2 1 1 = PI.
Proof. unfold angle. simpl INR. field. Qed.

Lemma angle_3_1_1 : angle 3 1 1 = (2 * (PI / 3))%R.
Proof. unfold angle. simpl INR. field. Qed.

Lemma cis_0 : cis 0 = (1, 0)%R.
Proof. unfold cis. now rewrite cos_0, sin_0. Qed.

Lemma cis_PI : cis PI = (-1, 0)%R.
Proof. unfold cis. now rewrite cos_PI, sin_PI. Qed.

Lemma Cabs_real (x : R) : Cabs (x, 0%R) = Rabs x.
Proof.
  unfold Cabs, Cre, Cim; cbn [fst snd].
  replace (x * x + 0 * 0)%R with (Rsqr x) by (unfold Rsqr; ring).
  apply sqrt_Rsqr_abs.
Qed.

(** The transform of two samples. *)
Lemma dft_bin_2 (a b : R) (k : nat) :
  dft_bin 2 [a; b] k = (a + b * cos (angle 2 1 k), - (b * sin (angle 2 1 k)))%R.
Proof.
  unfold dft_bin.
  cbn [map seq nth Csum fold_right].
  unfold Cadd, Cscale, cis, Czero, Cre, Cim. cbn [fst snd].
  rewrite angle_zero_l, Ropp_0, cos_0, sin_0, cos_neg, sin_neg.
  f_equal; ring.
Qed.

(** The transform of two samples followed by one zero. *)
Lemma dft_bin_3_padded (a b : R) (k : nat) :
  dft_bin 3 [a; b; 0%R] k = (a + b * cos (angle 3 1 k), - (b * sin (angle 3 1 k)))%R.
Proof.
  unfold dft_bin.
  cbn [map seq nth Csum fold_right].
  unfold Cadd, Cscale, cis, Czero, Cre, Cim. cbn [fst snd].
  rewrite angle_zero_l, Ropp_0, cos_0, sin_0, !cos_neg, !sin_neg.
  f_equal; ring.
Qed.

Lemma magnitude_2_bin0 (a b : R) : magnitude 2 [a; b] 0 = Rabs (a + b).
Proof.
  unfold magnitude. cbn [fit firstn length repeat Nat.sub app].
  rewrite dft_bin_2, angle_zero_r, cos_0, sin_0.
  replace (a + b * 1, - (b * 0))%R with ((a + b)%R, 0%R) by (f_equal; ring).
  apply Cabs_real.
Qed.

Lemma magnitude_2_bin1 (a b : R) : magnitude 2 [a; b] 1 = Rabs (a - b).
Proof.
  unfold magnitude. cbn [fit firstn length repeat Nat.sub app].
  rewrite dft_bin_2, angle_2_1_1, cos_PI, sin_PI.
  replace (a + b * -1, - (b * 0))%R with ((a - b)%R, 0%R) by (f_equal; ring).
  apply Cabs_real.
Qed.

(** The inverse transform to two samples uses the real parts of two bins. *)
Lemma idft_sample_2 (y0 y1 : C) (rest : list C) (j : nat) :
  idft_sample 2 (y0 :: y1 :: rest) j =
  ((Cre y0 + (Cre y1 * cos (angle 2 j 1) - Cim y1 * sin (angle 2 j 1))) / 2)%R.
Proof.
  unfold idft_sample.
  cbn [Nat.div Nat.divmod fst Nat.add map seq nth Rsum fold_right].
  unfold bin_weight. cbn [Nat.eqb Nat.mul Nat.add orb].
  unfold Cmul, cis, Cre, Cim. cbn [fst snd].
  rewrite angle_zero_r, cos_0, sin_0. simpl INR. field.
Qed.

(** Correction of a two-sample recording with unit factors at two bins: the
    forward transform has length [2 * 2 - 1 = 3], the inverse length 2. *)
Lemma correction_core_two_samples (a b : R) :
  correction_core 2 [1; 1]%R [a; b] =
  Ok [((a + b + (a + b * cos (2 * (PI / 3)))) / 2)%R;
      ((a + b - (a + b * cos (2 * (PI / 3)))) / 2)%R].
Proof.
  unfold correction_core.
  change (Z.of_nat 2 * 2 - 1)%Z with (Z.of_nat 3).
  rewrite rfft_ok by lia. cbn [bind].
  change (Z.of_nat (length [a; b])) with (Z.of_nat 2).
  rewrite irfft_ok by lia.
  cbn [Nat.div Nat.divmod fst Nat.add map seq length fit firstn repeat Nat.sub app].
  unfold np_resize.
  cbn [length map seq Nat.modulo Nat.divmod Nat.sub snd nth zip_with fit firstn
       repeat app Nat.div fst Nat.add].
  rewrite !idft_sample_2, !dft_bin_3_padded.
  unfold Cscale, Cre, Cim. cbn [fst snd].
  rewrite !angle_zero_r, angle_zero_l, angle_2_1_1, angle_3_1_1.
  rewrite cos_0, sin_0, cos_PI, sin_PI.
  f_equal. f_equal; [field | f_equal; field].
Qed.

Lemma example_analysis :
  analyze_frequency_response (init 0) [[1; 0]; [0; 1]]%R 48000 =
  Ok (Calibrator 0 (Some (Table (rfftfreq 2 (1 / 48000)%R) [[1; 1]; [1; 1]]%R))).
Proof.
  transitivity
    (Ok (Calibrator 0 (Some (Table (rfftfreq 2 (1 / 48000)%R)
       [[magnitude 2 [1; 0] 0 / magnitude 2 [1; 0] 0;
         magnitude 2 [1; 0] 1 / magnitude 2 [1; 0] 1];
        [magnitude 2 [1; 0] 0 / magnitude 2 [0; 1] 0;
         magnitude 2 [1; 0] 1 / magnitude 2 [0; 1] 1]]%R)))).
  - reflexivity.
  - rewrite !magnitude_2_bin0, !magnitude_2_bin1.
    replace (1 + 0)%R with 1%R by ring.
    replace (0 + 1)%R with 1%R by ring.
    replace (1 - 0)%R with 1%R by ring.
    replace (0 - 1)%R with (Ropp 1) by ring.
    rewrite Rabs_Ropp, Rabs_R1.
    replace (1 / 1)%R with 1%R by field.
    reflexivity.
Qed.

(** C1 -- Self-correction, evaluated on a sweep of two samples.  The table
    built from the reference [1, 0] and the microphone [0, 1] has unit
    factors.  Applied to the same two recordings, it turns the microphone
    into [1/4, 3/4]: at bin 1, where the microphone's magnitude was 1, the
    corrected magnitude is 1/2 while the reference's is 1.  The forward
    transform is taken at length [2 * len(frequency_bins) - 1 = 3], not at the
    analysis length 2. *)
Theorem self_correction_fails_on_even_length :
  exists self ref_corrected corrected,
    analyze_frequency_response (init 0) [[1; 0]; [0; 1]]%R 48000 = Ok self /\
    apply_calibration_folder self [[1; 0]; [0; 1]]%R 48000
      = Ok [ref_corrected; corrected] /\
    corrected = [1 / 4; 3 / 4]%R /\
    magnitude 2 [0; 1]%R 1 = 1%R /\
    magnitude 2 [1; 0]%R 1 = 1%R /\
    magnitude 2 corrected 1 = (1 / 2)%R.
Proof.
  exists (Calibrator 0 (Some (Table (rfftfreq 2 (1 / 48000)%R) [[1; 1]; [1; 1]]%R))).
  exists [((1 + 0 + (1 + 0 * cos (2 * (PI / 3)))) / 2)%R;
          ((1 + 0 - (1 + 0 * cos (2 * (PI / 3)))) / 2)%R].
  exists [1 / 4; 3 / 4]%R.
  split; [exact example_analysis|].
  split.
  - rewrite apply_calibration_folder_unfold
      with (data := Table (rfftfreq 2 (1 / 48000)%R) [[1; 1]; [1; 1]]%R) by reflexivity.
    cbn [enumerate length seq combine for_each].
    rewrite !folder_body_row with (row := [1; 1]%R) by reflexivity.
    cbn [frequency_bins]. rewrite rfftfreq_length.
    change (2 / 2 + 1) with 2.
    rewrite !correction_core_two_samples. cbn [bind].
    rewrite cos_2PI3.
    do 3 f_equal. f_equal; [field | f_equal; field].
  - split; [reflexivity|].
    rewrite !magnitude_2_bin1.
    replace (0 - 1)%R with (Ropp 1) by ring.
    replace (1 - 0)%R with 1%R by ring.
    replace (1 / 4 - 3 / 4)%R with (Ropp (1 / 2)) by field.
    rewrite !Rabs_Ropp, Rabs_R1.
    repeat split; try reflexivity.
    apply Rabs_pos_eq. lra.
Qed.

(** ** Self-correction on a sweep of odd length *)

Unset Implicit Arguments.

Section OddLength.
Local Open Scope R_scope.

(** *** Sums of reals *)

Lemma Rsum_cons (a : R) (l : list R) : Rsum (a :: l) = a + Rsum l.
Proof. reflexivity. Qed.

Lemma Rsum_ext {A : Type} (f g : A -> R) (l : list A) :
  (forall a, In a l -> f a = g a) -> Rsum (map f l) = Rsum (map g l).
Proof. intros H. f_equal. apply map_ext_in. exact H. Qed.

Lemma Rsum_add {A : Type} (f g : A -> R) (l : list A) :
  Rsum (map (fun a => f a + g a) l) = Rsum (map f l) + Rsum (map g l).
Proof.
  induction l as [|a l IH]; cbn [map]; [cbn; lra|].
  rewrite !Rsum_cons, IH. lra.
Qed.

Lemma Rsum_scale {A : Type} (c : R) (f : A -> R) (l : list A) :
  Rsum (map (fun a => c * f a) l) = c * Rsum (map f l).
Proof.
  induction l as [|a l IH]; cbn [map]; [cbn; lra|].
  rewrite !Rsum_cons, IH. lra.
Qed.

Lemma Rsum_zero {A : Type} (f : A -> R) (l : list A) :
  (forall a, In a l -> f a = 0) -> Rsum (map f l) = 0.
Proof.
  induction l as [|a l IH]; intros H; cbn [map]; [reflexivity|].
  rewrite Rsum_cons, IH, (H a); [lra | left; reflexivity | intros; apply H; right; assumption].
Qed.

(** Exchange of two finite sums. *)
Lemma Rsum_swap {A B : Type} (f : A -> B -> R) (la : list A) (lb : list B) :
  Rsum (map (fun a => Rsum (map (fun b => f a b) lb)) la) =
  Rsum (map (fun b => Rsum (map (fun a => f a b) la)) lb).
Proof.
  induction la as [|a la IH]; cbn [map].
  - cbn. symmetry. apply Rsum_zero. reflexivity.
  - rewrite Rsum_cons, IH, <- Rsum_add. apply Rsum_ext. intros b _.
    now rewrite Rsum_cons.
Qed.

(** A sum over [0 .. n-1] whose terms vanish except at [m]. *)
Lemma Rsum_single (f : nat -> R) (n m : nat) :
  (m < n)%nat -> (forall k, (k < n)%nat -> k <> m -> f k = 0) ->
  Rsum (map f (seq 0 n)) = f m.
Proof.
  intros Hm Hz.
  assert (Hsplit : seq 0 n = seq 0 m ++ m :: seq (S m) (n - S m)).
  { replace (seq 0 n) with (seq 0 (m + S (n - S m))) by (f_equal; lia).
    rewrite seq_app. reflexivity. }
  rewrite Hsplit, map_app. cbn [map].
    unfold Rsum. rewrite fold_right_app. cbn [fold_right].
    fold (Rsum (map f (seq (S m) (n - S m)))).
    rewrite (Rsum_zero f (seq (S m) (n - S m)))
      by (intros k Hk; apply in_seq in Hk; apply Hz; lia).
    assert (Hacc : forall (l : list nat) a,
               (forall k, In k l -> f k = 0) -> fold_right Rplus a (map f l) = a).
    { induction l as [|k l IHl]; intros a Hl; cbn [map fold_right]; [reflexivity|].
      rewrite IHl, (Hl k); [lra | left; reflexivity | intros; apply Hl; right; assumption]. }
    rewrite Hacc; [lra|].
    intros k Hk. apply in_seq in Hk. apply Hz; lia.
Qed.

(** A telescoping sum. *)
Lemma Rsum_telescope (F : nat -> R) (n : nat) :
  Rsum (map (fun j => F (S j) - F j) (seq 0 n)) = F n - F 0%nat.
Proof.
  induction n as [|n IH]; [cbn; lra|].
  rewrite seq_S, map_app. cbn [map Nat.add].
  unfold Rsum in *. rewrite fold_right_app. cbn [fold_right].
  assert (Hacc : forall (l : list R) a, fold_right Rplus a l = fold_right Rplus 0 l + a).
  { induction l as [|b l IHl]; intros a; cbn [fold_right]; [lra|]. rewrite IHl. lra. }
  rewrite Hacc, IH. lra.
Qed.

(** *** Orthogonality of the twiddle factors *)

Lemma angle_succ (n j d : nat) :
  angle n (S j) d = angle n j d + angle n 1 d.
Proof. unfold angle. rewrite S_INR. simpl INR. unfold Rdiv. ring. Qed.

Lemma angle_add_r (n j k m : nat) :
  angle n j (k + m) = angle n j k + angle n j m.
Proof. unfold angle. rewrite plus_INR. unfold Rdiv. ring. Qed.

Lemma angle_sub_r (n j k m : nat) :
  (m <= k)%nat -> angle n j (k - m) = angle n j k - angle n j m.
Proof. intros H. unfold angle. rewrite minus_INR by exact H. unfold Rdiv. ring. Qed.

Lemma angle_full_turn (n d : nat) :
  (0 < n)%nat -> angle n n d = 2 * INR d * PI.
Proof.
  intros Hn. unfold angle. field.
  apply not_0_INR. lia.
Qed.

(** The cosines, and the sines, of the [n] multiples of [2 pi d / n] add up
    to zero when [0 < d < n]. *)
Lemma roots_of_unity_sum (n d : nat) :
  (0 < d < n)%nat ->
  Rsum (map (fun j => cos (angle n j d)) (seq 0 n)) = 0 /\
  Rsum (map (fun j => sin (angle n j d)) (seq 0 n)) = 0.
Proof.
  intros Hd.
  set (a := angle n 1 d).
  assert (Hangle : forall j, angle n j d = INR j * a).
  { intros j. unfold a, angle. simpl INR. unfold Rdiv. ring. }
  assert (Hhalf : 0 < sin (a / 2)).
  { assert (Hn : 0 < INR n) by (apply lt_0_INR; lia).
    assert (Hd0 : 0 < INR d) by (apply lt_0_INR; lia).
    assert (Hdn : INR d < INR n) by (apply lt_INR; lia).
    assert (Ha : a / 2 = PI * (INR d / INR n)).
    { unfold a, angle. simpl INR. field. lra. }
    assert (Hq0 : 0 < INR d / INR n) by (apply Rdiv_lt_0_compat; assumption).
    assert (Hq1 : INR d / INR n < 1).
    { apply (Rmult_lt_reg_r (INR n)); [assumption|].
      unfold Rdiv. rewrite Rmult_assoc, Rinv_l by lra. lra. }
    pose proof PI_RGT_0.
    apply sin_gt_0; rewrite Ha; nra. }
  assert (Hturn : INR n * a = 2 * INR d * PI).
  { rewrite <- Hangle. apply angle_full_turn. lia. }
  set (F := fun j : nat => sin ((INR j - 1 / 2) * a)).
  set (G := fun j : nat => - cos ((INR j - 1 / 2) * a)).
  assert (HF : Rsum (map (fun j => 2 * sin (a / 2) * cos (angle n j d)) (seq 0 n)) = 0).
  { rewrite (Rsum_ext _ (fun j => F (S j) - F j)).
    - rewrite Rsum_telescope. unfold F. simpl (INR 0).
      replace ((INR n - 1 / 2) * a) with ((0 - 1 / 2) * a + 2 * INR d * PI) by lra.
      rewrite sin_period. lra.
    - intros j _. unfold F. rewrite S_INR, Hangle.
      replace ((INR j + 1 - 1 / 2) * a) with (INR j * a + a / 2) by lra.
      replace ((INR j - 1 / 2) * a) with (INR j * a - a / 2) by lra.
      rewrite sin_plus, sin_minus. lra. }
  assert (HG : Rsum (map (fun j => 2 * sin (a / 2) * sin (angle n j d)) (seq 0 n)) = 0).
  { rewrite (Rsum_ext _ (fun j => G (S j) - G j)).
    - rewrite Rsum_telescope. unfold G. simpl (INR 0).
      replace ((INR n - 1 / 2) * a) with ((0 - 1 / 2) * a + 2 * INR d * PI) by lra.
      rewrite cos_period. lra.
    - intros j _. unfold G. rewrite S_INR, Hangle.
      replace ((INR j + 1 - 1 / 2) * a) with (INR j * a + a / 2) by lra.
      replace ((INR j - 1 / 2) * a) with (INR j * a - a / 2) by lra.
      rewrite cos_plus, cos_minus. lra. }
  rewrite (Rsum_scale (2 * sin (a / 2))) in HF, HG.
  split; nra.
Qed.

Lemma roots_of_unity_sum_0 (n : nat) :
  Rsum (map (fun j => cos (angle n j 0)) (seq 0 n)) = INR n /\
  Rsum (map (fun j => sin (angle n j 0)) (seq 0 n)) = 0.
Proof.
  split.
  - rewrite (Rsum_ext _ (fun _ => 1)) by (intros; rewrite angle_zero_r; apply cos_0).
    induction n as [|n IH]; [reflexivity|].
    rewrite seq_S, map_app. cbn [map]. unfold Rsum in *. rewrite fold_right_app.
    cbn [fold_right].
    assert (Hacc : forall (l : list R) a, fold_right Rplus a l = fold_right Rplus 0 l + a).
    { induction l as [|b l IHl]; intros a; cbn [fold_right]; [lra|]. rewrite IHl. lra. }
    rewrite Hacc, IH, S_INR. lra.
  - apply Rsum_zero. intros. rewrite angle_zero_r. apply sin_0.
Qed.

Lemma cos_sum_value (n d : nat) :
  (d < n)%nat ->
  Rsum (map (fun j => cos (angle n j d)) (seq 0 n)) = if (d =? 0)%nat then INR n else 0.
Proof.
  intros Hd. destruct (Nat.eqb_spec d 0) as [->|Hne].
  - apply roots_of_unity_sum_0.
  - apply roots_of_unity_sum. lia.
Qed.

Lemma sin_sum_value (n d : nat) :
  (d < n)%nat -> Rsum (map (fun j => sin (angle n j d)) (seq 0 n)) = 0.
Proof.
  intros Hd. destruct (Nat.eq_dec d 0) as [->|Hne].
  - apply roots_of_unity_sum_0.
  - apply roots_of_unity_sum. lia.
Qed.

(** Distance between two bin indices. *)

Lemma cos_angle_diff (n j k m : nat) :
  cos (angle n j k - angle n j m) = cos (angle n j (dist k m)).
Proof.
  unfold dist. destruct (Nat.le_ge_cases m k) as [H|H].
  - replace (m - k)%nat with 0%nat by lia. rewrite Nat.add_0_r.
    now rewrite angle_sub_r.
  - replace (k - m)%nat with 0%nat by lia. rewrite Nat.add_0_l.
    rewrite angle_sub_r by exact H.
    rewrite <- cos_neg. f_equal. lra.
Qed.

Lemma sin_angle_diff (n j k m : nat) :
  sin (angle n j k - angle n j m) =
  (if (m <=? k)%nat then 1 else -1) * sin (angle n j (dist k m)).
Proof.
  unfold dist. destruct (Nat.leb_spec m k) as [H|H].
  - replace (m - k)%nat with 0%nat by lia. rewrite Nat.add_0_r.
    rewrite angle_sub_r by exact H. lra.
  - replace (k - m)%nat with 0%nat by lia. rewrite Nat.add_0_l.
    rewrite angle_sub_r by lia.
    replace (angle n j k - angle n j m) with (- (angle n j m - angle n j k)) by lra.
    rewrite sin_neg. lra.
Qed.

Section Orthogonality.
Variable h : nat.
Variables k m : nat.
Hypothesis Hk : (k <= h)%nat.
Hypothesis Hm : (m <= h)%nat.

Lemma cos_cos_sum :
  Rsum (map (fun j => cos (angle (2 * h + 1) j k) * cos (angle (2 * h + 1) j m)) (seq 0 (2 * h + 1))) =
  if (k =? m)%nat then (if (k =? 0)%nat then INR (2 * h + 1) else INR (2 * h + 1) / 2) else 0.
Proof.
  rewrite (Rsum_ext _ (fun j => / 2 * cos (angle (2 * h + 1) j (k + m))
                                + / 2 * cos (angle (2 * h + 1) j (dist k m)))).
  2:{ intros j _. rewrite <- cos_angle_diff, angle_add_r, cos_plus, cos_minus. lra. }
  rewrite Rsum_add, !Rsum_scale, !cos_sum_value by (unfold dist; lia).
  unfold dist.
  destruct (Nat.eqb_spec k m) as [->|Hne].
  - rewrite Nat.sub_diag. cbn [Nat.add Nat.eqb].
    destruct (Nat.eqb_spec m 0) as [->|Hm0].
    + cbn [Nat.add Nat.eqb]. lra.
    + destruct (Nat.eqb_spec (m + m) 0); [lia | lra].
  - destruct (Nat.eqb_spec (k + m) 0); [lia|].
    destruct (Nat.eqb_spec (k - m + (m - k)) 0); [lia | lra].
Qed.

Lemma sin_sin_sum :
  Rsum (map (fun j => sin (angle (2 * h + 1) j k) * sin (angle (2 * h + 1) j m)) (seq 0 (2 * h + 1))) =
  if (k =? m)%nat then (if (k =? 0)%nat then 0 else INR (2 * h + 1) / 2) else 0.
Proof.
  rewrite (Rsum_ext _ (fun j => / 2 * cos (angle (2 * h + 1) j (dist k m))
                                + - / 2 * cos (angle (2 * h + 1) j (k + m)))).
  2:{ intros j _. rewrite <- cos_angle_diff, angle_add_r, cos_plus, cos_minus. lra. }
  rewrite Rsum_add, !Rsum_scale, !cos_sum_value by (unfold dist; lia).
  unfold dist.
  destruct (Nat.eqb_spec k m) as [->|Hne].
  - rewrite Nat.sub_diag. cbn [Nat.add Nat.eqb].
    destruct (Nat.eqb_spec m 0) as [->|Hm0].
    + cbn [Nat.add Nat.eqb]. lra.
    + destruct (Nat.eqb_spec (m + m) 0); [lia | lra].
  - destruct (Nat.eqb_spec (k + m) 0); [lia|].
    destruct (Nat.eqb_spec (k - m + (m - k)) 0); [lia | lra].
Qed.

Lemma sin_cos_sum :
  Rsum (map (fun j => sin (angle (2 * h + 1) j k) * cos (angle (2 * h + 1) j m)) (seq 0 (2 * h + 1))) = 0.
Proof.
  rewrite (Rsum_ext _ (fun j => / 2 * sin (angle (2 * h + 1) j (k + m))
                                + (/ 2 * (if (m <=? k)%nat then 1 else -1))
                                  * sin (angle (2 * h + 1) j (dist k m)))).
  2:{ intros j _. rewrite Rmult_assoc, <- sin_angle_diff, angle_add_r, sin_plus, sin_minus.
      lra. }
  rewrite Rsum_add, !Rsum_scale, !sin_sum_value by (unfold dist; lia).
  lra.
Qed.
End Orthogonality.

(** *** The transform of an inverse transform, for an odd length *)

Lemma Csum_scaled_cis {A : Type} (y t : A -> R) (l : list A) :
  Csum (map (fun j => Cscale (y j) (cis (- t j))) l) =
  (Rsum (map (fun j => y j * cos (t j)) l), - Rsum (map (fun j => y j * sin (t j)) l)).
Proof.
  induction l as [|j l IH]; cbn [map].
  - unfold Csum, Rsum. cbn [fold_right]. unfold Czero. f_equal. lra.
  - unfold Csum. cbn [fold_right]. fold (Csum (map (fun j => Cscale (y j) (cis (- t j))) l)).
    rewrite IH, !Rsum_cons.
    unfold Cadd, Cscale, cis, Cre, Cim. cbn [fst snd].
    rewrite cos_neg, sin_neg. f_equal; lra.
Qed.

Lemma odd_half (h : nat) : ((2 * h + 1) / 2 = h)%nat.
Proof.
  symmetry. apply (Nat.div_unique (2 * h + 1) 2 h 1); lia.
Qed.

Lemma bin_weight_odd (h k : nat) :
  bin_weight (2 * h + 1) k = if (k =? 0)%nat then 1 else 2.
Proof.
  unfold bin_weight. destruct (Nat.eqb_spec k 0); [reflexivity|].
  destruct (Nat.eqb_spec (2 * k) (2 * h + 1)); [lia | reflexivity].
Qed.

Lemma idft_sample_odd (h : nat) (Y : list C) (j : nat) :
  idft_sample (2 * h + 1) Y j =
  / INR (2 * h + 1) *
  Rsum (map (fun k => (if (k =? 0)%nat then 1 else 2) *
                      (Cre (nth k Y Czero) * cos (angle (2 * h + 1) j k)
                       - Cim (nth k Y Czero) * sin (angle (2 * h + 1) j k)))
            (seq 0 (h + 1))).
Proof.
  unfold idft_sample. rewrite odd_half. f_equal.
  apply Rsum_ext. intros k _. rewrite bin_weight_odd.
  unfold Cmul, cis, Cre, Cim. cbn [fst snd]. reflexivity.
Qed.

(** Bin [m] of the transform of the inverse transform of [Y]: the bin of
    [Y], without the imaginary part of bin 0. *)
Lemma dft_of_idft_odd (h : nat) (Y : list C) (m : nat) :
  (m <= h)%nat ->
  dft_bin (2 * h + 1) (map (idft_sample (2 * h + 1) Y) (seq 0 (2 * h + 1))) m =
  (Cre (nth m Y Czero), if (m =? 0)%nat then 0 else Cim (nth m Y Czero)).
Proof.
  intros Hm.
  set (n := (2 * h + 1)%nat).
  assert (Hn : INR n <> 0) by (apply not_0_INR; unfold n; lia).
  set (w := fun k : nat => if (k =? 0)%nat then 1 else 2).
  set (a := fun k : nat => Cre (nth k Y Czero)).
  set (b := fun k : nat => Cim (nth k Y Czero)).
  unfold dft_bin.
  rewrite (map_ext_in _ (fun j => Cscale (idft_sample n Y j) (cis (- angle n j m)))).
  2:{ intros j Hj. apply in_seq in Hj. rewrite nth_map_seq by lia. reflexivity. }
  rewrite (Csum_scaled_cis (idft_sample n Y) (fun j => angle n j m)).
  (* the two components, as sums over the bins of sums over the samples *)
  assert (Hre : Rsum (map (fun j => idft_sample n Y j * cos (angle n j m)) (seq 0 n)) =
                / INR n *
                Rsum (map (fun k => w k * (a k * Rsum (map (fun j => cos (angle n j k) * cos (angle n j m)) (seq 0 n))
                                         - b k * Rsum (map (fun j => sin (angle n j k) * cos (angle n j m)) (seq 0 n))))
                          (seq 0 (h + 1)))).
  { rewrite (Rsum_ext _ (fun j => / INR n *
               Rsum (map (fun k => w k * (a k * (cos (angle n j k) * cos (angle n j m))
                                          - b k * (sin (angle n j k) * cos (angle n j m))))
                         (seq 0 (h + 1))))).
    2:{ intros j _. unfold n. rewrite idft_sample_odd. rewrite Rmult_assoc. f_equal.
        rewrite Rmult_comm, <- Rsum_scale. apply Rsum_ext. intros k _.
        unfold w, a, b. ring. }
    rewrite Rsum_scale. f_equal. rewrite Rsum_swap. apply Rsum_ext. intros k _.
    rewrite <- !Rsum_scale.
    rewrite (Rsum_ext (fun j => w k * (a k * (cos (angle n j k) * cos (angle n j m))
                                       - b k * (sin (angle n j k) * cos (angle n j m))))
                      (fun j => w k * (a k * (cos (angle n j k) * cos (angle n j m)))
                                + - (w k * (b k * (sin (angle n j k) * cos (angle n j m))))))
      by (intros; ring).
    rewrite Rsum_add.
    rewrite (Rsum_ext (fun j => - (w k * (b k * (sin (angle n j k) * cos (angle n j m)))))
                      (fun j => (- (w k * b k)) * (sin (angle n j k) * cos (angle n j m))))
      by (intros; ring).
    rewrite (Rsum_ext (fun j => w k * (a k * (cos (angle n j k) * cos (angle n j m))))
                      (fun j => (w k * a k) * (cos (angle n j k) * cos (angle n j m))))
      by (intros; ring).
    rewrite !Rsum_scale. ring. }
  assert (Him : Rsum (map (fun j => idft_sample n Y j * sin (angle n j m)) (seq 0 n)) =
                / INR n *
                Rsum (map (fun k => w k * (a k * Rsum (map (fun j => sin (angle n j m) * cos (angle n j k)) (seq 0 n))
                                         - b k * Rsum (map (fun j => sin (angle n j k) * sin (angle n j m)) (seq 0 n))))
                          (seq 0 (h + 1)))).
  { rewrite (Rsum_ext _ (fun j => / INR n *
               Rsum (map (fun k => w k * (a k * (sin (angle n j m) * cos (angle n j k))
                                          - b k * (sin (angle n j k) * sin (angle n j m))))
                         (seq 0 (h + 1))))).
    2:{ intros j _. unfold n. rewrite idft_sample_odd. rewrite Rmult_assoc. f_equal.
        rewrite Rmult_comm, <- Rsum_scale. apply Rsum_ext. intros k _.
        unfold w, a, b. ring. }
    rewrite Rsum_scale. f_equal. rewrite Rsum_swap. apply Rsum_ext. intros k _.
    rewrite <- !Rsum_scale.
    rewrite (Rsum_ext (fun j => w k * (a k * (sin (angle n j m) * cos (angle n j k))
                                       - b k * (sin (angle n j k) * sin (angle n j m))))
                      (fun j => w k * (a k * (sin (angle n j m) * cos (angle n j k)))
                                + - (w k * (b k * (sin (angle n j k) * sin (angle n j m))))))
      by (intros; ring).
    rewrite Rsum_add.
    rewrite (Rsum_ext (fun j => - (w k * (b k * (sin (angle n j k) * sin (angle n j m)))))
                      (fun j => (- (w k * b k)) * (sin (angle n j k) * sin (angle n j m))))
      by (intros; ring).
    rewrite (Rsum_ext (fun j => w k * (a k * (sin (angle n j m) * cos (angle n j k))))
                      (fun j => (w k * a k) * (sin (angle n j m) * cos (angle n j k))))
      by (intros; ring).
    rewrite !Rsum_scale. ring. }
  rewrite Hre, Him. clear Hre Him.
  (* orthogonality leaves the term of bin [m] *)
  rewrite (Rsum_ext _ (fun k => if (k =? m)%nat
                                then w m * a m * (if (m =? 0)%nat then INR n else INR n / 2)
                                else 0)).
  2:{ intros k Hk. apply in_seq in Hk.
      unfold n. rewrite cos_cos_sum, sin_cos_sum by lia.
      destruct (Nat.eqb_spec k m) as [->|Hne]; ring. }
  rewrite (Rsum_ext (fun k => w k * (a k * Rsum (map (fun j => sin (angle n j m) * cos (angle n j k)) (seq 0 n))
                                   - b k * Rsum (map (fun j => sin (angle n j k) * sin (angle n j m)) (seq 0 n))))
                    (fun k => if (k =? m)%nat
                              then - (w m * b m * (if (m =? 0)%nat then 0 else INR n / 2))
                              else 0)).
  2:{ intros k Hk. apply in_seq in Hk.
      unfold n. rewrite sin_sin_sum, sin_cos_sum by lia.
      destruct (Nat.eqb_spec k m) as [->|Hne]; ring. }
  rewrite !(Rsum_single _ (h + 1) m) by (lia || (intros k _ Hne; destruct (Nat.eqb_spec k m); [contradiction | reflexivity])).
  rewrite Nat.eqb_refl.
  unfold w, a, b. destruct (Nat.eqb_spec m 0) as [Hm0|Hm0]; f_equal; field; exact Hn.
Qed.

(** *** The table applied to the recordings it was built from *)

Lemma Cabs_scale (r : R) (z : C) : Cabs (Cscale r z) = Rabs r * Cabs z.
Proof.
  unfold Cabs, Cscale, Cre, Cim. cbn [fst snd].
  replace (r * fst z * (r * fst z) + r * snd z * (r * snd z))
    with (Rsqr r * (fst z * fst z + snd z * snd z)) by (unfold Rsqr; ring).
  rewrite sqrt_mult; [| apply Rle_0_sqr | nra].
  now rewrite sqrt_Rsqr_abs.
Qed.

Lemma Cabs_nonneg (z : C) : 0 <= Cabs z.
Proof. apply sqrt_pos. Qed.

(** Bin 0 of a transform is real. *)
Lemma dft_bin_0_real (n : nat) (x : list R) : Cim (dft_bin n x 0) = 0.
Proof.
  unfold dft_bin.
  rewrite (Csum_scaled_cis (fun j => nth j x 0) (fun j => angle n j 0)).
  unfold Cim. cbn [snd].
  rewrite Rsum_zero; [lra|].
  intros j _. rewrite angle_zero_r, sin_0. lra.
Qed.

(** On a recording of odd length [2 h + 1] and a factor row of [h + 1]
    entries, the correction multiplies the magnitude of every bin by the
    absolute value of its factor. *)
Lemma correction_core_odd (h : nat) (row mic_response : list R) :
  length mic_response = (2 * h + 1)%nat ->
  length row = (h + 1)%nat ->
  exists corrected,
    correction_core (h + 1) row mic_response = Ok corrected /\
    forall m, (m <= h)%nat ->
      magnitude (2 * h + 1) corrected m =
      Rabs (nth m row 0) * magnitude (2 * h + 1) mic_response m.
Proof.
  intros Hmic Hrow.
  set (n := (2 * h + 1)%nat) in *.
  set (X := map (dft_bin n mic_response) (seq 0 (h + 1))).
  set (Y := zip_with Cscale row X).
  set (corrected := map (idft_sample n Y) (seq 0 n)).
  assert (HX : length X = (h + 1)%nat) by (unfold X; now rewrite length_map, length_seq).
  assert (HY : length Y = (h + 1)%nat) by (unfold Y; rewrite length_zip_with; lia).
  assert (Hc : length corrected = n) by (unfold corrected; now rewrite length_map, length_seq).
  assert (Hfit_mic : fit 0 n mic_response = mic_response)
    by (rewrite <- Hmic; apply fit_same_length).
  assert (Hfit_Y : fit Czero (h + 1) Y = Y) by (rewrite <- HY; apply fit_same_length).
  assert (Hfit_c : fit 0 n corrected = corrected) by (rewrite <- Hc; apply fit_same_length).
  assert (Hresize : np_resize row (h + 1) = row) by (rewrite <- Hrow; apply np_resize_same).
  exists corrected. split.
  - unfold correction_core.
    replace (Z.of_nat (h + 1) * 2 - 1)%Z with (Z.of_nat n) by (unfold n; lia).
    rewrite rfft_ok by (unfold n; lia). cbn [bind].
    rewrite Hmic, irfft_ok by (unfold n; lia).
    assert (Hhalf : (n / 2 = h)%nat) by (unfold n; apply odd_half).
    rewrite !Hhalf.
    rewrite Hfit_mic. fold X. rewrite HX, Hresize. fold Y. rewrite Hfit_Y.
    reflexivity.
  - intros m Hm. unfold magnitude. rewrite Hfit_c, Hfit_mic.
    unfold corrected, n. rewrite dft_of_idft_odd by exact Hm. fold n.
    assert (HYm : nth m Y Czero = Cscale (nth m row 0) (dft_bin n mic_response m)).
    { unfold Y. rewrite nth_zip_with with (da := 0) (db := Czero) by lia.
      unfold X. now rewrite nth_map_seq by lia. }
    rewrite <- Cabs_scale, <- HYm. f_equal.
    rewrite (surjective_pairing (nth m Y Czero)) at 3.
    unfold Cre, Cim. f_equal.
    destruct (Nat.eqb_spec m 0) as [->|Hm0]; [|reflexivity].
    rewrite HYm. unfold Cscale. cbn [snd].
    rewrite (dft_bin_0_real n mic_response). lra.
Qed.

Lemma py_index_in {A : Type} (l : list A) (i : Z) (a : A) :
  py_index l i = Ok a -> In a l.
Proof.
  unfold py_index.
  destruct (_ <? 0)%Z; [discriminate|].
  destruct (nth_error l _) as [a'|] eqn:H; [|discriminate].
  intros [= <-]. eapply nth_error_In; eauto.
Qed.

Lemma factor_restores_magnitude (r m : R) :
  0 <= r -> 0 <= m -> m <> 0 -> Rabs (r / m) * m = r.
Proof.
  intros Hr Hm Hm0.
  rewrite Rabs_right.
  - field. exact Hm0.
  - apply Rle_ge. apply Rmult_le_pos; [exact Hr|].
    apply Rlt_le, Rinv_0_lt_compat. lra.
Qed.

Lemma magnitude_nonneg (n : nat) (x : list R) (k : nat) : 0 <= magnitude n x k.
Proof. unfold magnitude. apply Cabs_nonneg. Qed.

(** X10 -- Self-correction at an odd length [N = 2 * h + 1].  There
    [2 * len(frequency_bins) - 1 = N]: the forward transform of
    [apply_calibration_folder] is taken at the analysis length, and the table
    built from recordings that all have [N] samples, applied to those same
    recordings, gives the reference's magnitude at every bin to every
    microphone whose own spectrum has no zero among the bins [0 .. h] (all
    its factors are then finite). *)
Theorem self_correction_odd_length (self : MicrophoneCalibrator)
    (mic_recordings : list (list R)) (sample_rate : Z) (h : nat) (ref_response : list R) :
  py_index mic_recordings (ref_mic_index self) = Ok ref_response ->
  Forall (fun r => length r = (2 * h + 1)%nat) mic_recordings ->
  sample_rate <> 0%Z ->
  exists self' out,
    analyze_frequency_response self mic_recordings sample_rate = Ok self' /\
    apply_calibration_folder self' mic_recordings sample_rate = Ok out /\
    length out = length mic_recordings /\
    forall i mic_response corrected,
      nth_error mic_recordings i = Some mic_response ->
      nth_error out i = Some corrected ->
      (forall k, (k <= h)%nat -> magnitude (2 * h + 1) mic_response k <> 0) ->
      forall k, (k <= h)%nat ->
        magnitude (2 * h + 1) corrected k = magnitude (2 * h + 1) ref_response k.
Proof.
  intros Href Hlen Hrate.
  assert (Hall : forall r, In r mic_recordings -> length r = (2 * h + 1)%nat)
    by (apply Forall_forall; exact Hlen).
  assert (HN : length ref_response = (2 * h + 1)%nat)
    by (apply Hall; eapply py_index_in; eauto).
  assert (Hne : ref_response <> []) by (intros ->; simpl in HN; lia).
  unfold analyze_frequency_response. rewrite Href. cbn [bind].
  destruct (rfft ref_response (Z.of_nat (length ref_response))) as [ref_spectrum|e] eqn:Hspec;
    [|rewrite rfft_ok in Hspec by lia; discriminate].
  cbn [bind].
  set (body := fun mic_response : list R =>
                 mic_spectrum <- rfft mic_response (Z.of_nat (length ref_response)) ;;
                 Ok (zip_with Rdiv (map Cabs ref_spectrum) (map Cabs mic_spectrum))).
  destruct (@for_each_ok _ _ body mic_recordings) as (factors & Hfactors).
  { intros mic _. destruct (@cal_factor_row ref_response mic ref_spectrum Hne Hspec)
      as (row & Hrow & _). exists row; exact Hrow. }
  rewrite Hfactors. cbn [bind].
  destruct (Z.eqb_spec sample_rate 0); [contradiction|].
  set (data := Table (rfftfreq (length ref_response) (1 / IZR sample_rate)) factors).
  assert (Hbins : length (frequency_bins data) = (h + 1)%nat)
    by (unfold data; cbn [frequency_bins]; rewrite rfftfreq_length, HN, odd_half; reflexivity).
  assert (Hrows : forall i mic, nth_error mic_recordings i = Some mic ->
            exists row corrected,
              nth_error factors i = Some row /\
              folder_body data (i, mic) = Ok corrected /\
              forall k, (k <= h)%nat -> magnitude (2 * h + 1) mic k <> 0 ->
                magnitude (2 * h + 1) corrected k = magnitude (2 * h + 1) ref_response k).
  { intros i mic Hi.
    destruct (@for_each_nth _ _ _ _ _ Hfactors _ _ Hi) as (row & Hrow & Hnth).
    destruct (@cal_factor_row ref_response mic ref_spectrum Hne Hspec)
      as (row' & Hrow' & Hrowlen & Hval).
    unfold body in Hrow. replace row' with row in * by congruence.
    rewrite HN, odd_half in Hrowlen, Hval.
    assert (Hmic : length mic = (2 * h + 1)%nat)
      by (apply Hall; eapply nth_error_In; eauto).
    destruct (correction_core_odd h row mic Hmic Hrowlen) as (corrected & Hrun & Hmag).
    exists row, corrected. split; [exact Hnth|]. split.
    - rewrite folder_body_row with (row := row) by exact Hnth.
      rewrite Hbins. exact Hrun.
    - intros k Hk Hnz. rewrite Hmag, Hval by assumption.
      apply factor_restores_magnitude; [apply magnitude_nonneg .. | exact Hnz]. }
  destruct (@for_each_ok _ _ (folder_body data) (enumerate mic_recordings)) as (out & Hout).
  { intros (i & mic) Hin. apply enumerate_in in Hin.
    destruct (Hrows i mic Hin) as (_ & corrected & _ & Hrun & _). eauto. }
  eexists; exists out. split; [reflexivity|].
  split; [unfold apply_calibration_folder; cbn [calibration_data]; exact Hout|].
  split; [rewrite (@for_each_length _ _ _ _ _ Hout); apply length_enumerate|].
  intros i mic corrected Hi Hc Hnz k Hk.
  destruct (Hrows i mic Hi) as (_ & corrected' & _ & Hrun & Hmag).
  destruct (@for_each_nth _ _ _ _ _ Hout _ _ (@enumerate_nth _ _ _ _ Hi)) as (b & Hb & Hbn).
  replace corrected with corrected' by congruence.
  apply Hmag; [exact Hk | apply Hnz; exact Hk].
Qed.

Lemma self_correction_odd_length_witness :
  exists self' out corrected,
    analyze_frequency_response (init 0) [[1; 0; 0]; [0; 1; 0]] 48000 = Ok self' /\
    apply_calibration_folder self' [[1; 0; 0]; [0; 1; 0]] 48000 = Ok out /\
    nth_error out 1 = Some corrected /\
    forall k, (k <= 1)%nat -> magnitude 3 corrected k = magnitude 3 [1; 0; 0] k.
Proof.
  destruct (self_correction_odd_length (init 0) [[1; 0; 0]; [0; 1; 0]] 48000 1 [1; 0; 0])
    as (self' & out & Hrun & Happly & Hlen & Hmag).
  - reflexivity.
  - repeat constructor.
  - discriminate.
  - destruct out as [|a [|corrected [|]]]; try discriminate Hlen.
    exists self', [a; corrected], corrected.
    split; [exact Hrun|]. split; [exact Happly|]. split; [reflexivity|].
    apply (Hmag 1%nat [0; 1; 0] corrected); try reflexivity.
    intros k _. change (2 * 1 + 1)%nat with 3%nat.
    rewrite magnitude_delayed_impulse. lra.
Defined.

End OddLength.

Set Implicit Arguments.

(** ** Persistence *)

Ltac by_cases_on_char c :=
  destruct c as [[] [] [] [] [] [] [] []]; simpl; intros; try discriminate;
  repeat split; reflexivity.

Lemma number_char_facts (c : ascii) :
  is_number_char c = true ->
  Ascii.eqb c "["%char = false /\ Ascii.eqb c "{"%char = false /\ is_ws c = false.
Proof. by_cases_on_char c. Qed.

Lemma delimiter_not_number (c : ascii) :
  is_delimiter c = true -> is_number_char c = false.
Proof. by_cases_on_char c. Qed.

Lemma value_start_facts (c : ascii) :
  value_start c = true ->
  is_ws c = false /\ Ascii.eqb c "]"%char = false /\ Ascii.eqb c "}"%char = false.
Proof. by_cases_on_char c. Qed.

Lemma plain_char_not_quote (c : ascii) :
  is_plain_char c = true -> Ascii.eqb c "034"%char = false.
Proof.
  unfold is_plain_char. intros H.
  apply andb_true_iff in H as [H _]. apply andb_true_iff in H as [_ H].
  now apply negb_true_iff in H.
Qed.

Lemma skip_ws_not_ws (c : ascii) (rest : text) :
  is_ws c = false -> skip_ws (c :: rest) = c :: rest.
Proof. intros H. simpl. now rewrite H. Qed.

Lemma span_token (token rest : text) :
  forallb is_number_char token = true ->
  delimited rest = true ->
  span is_number_char (token ++ rest) = (token, rest).
Proof.
  intros Htok Hrest. induction token as [|c token IH]; cbn [app span forallb] in *.
  - destruct rest as [|d rest]; [reflexivity|].
    cbn [delimited span] in *. now rewrite (delimiter_not_number _ Hrest).
  - apply andb_true_iff in Htok as [Hc Htok]. rewrite Hc, (IH Htok). reflexivity.
Qed.

Lemma scan_string_plain (key rest : text) :
  forallb is_plain_char key = true ->
  scan_string (key ++ "034"%char :: rest) = Some (key, rest).
Proof.
  intros Hkey. induction key as [|c key IH]; cbn [app scan_string forallb] in *.
  - reflexivity.
  - apply andb_true_iff in Hkey as [Hc Hkey].
    rewrite (plain_char_not_quote _ Hc), Hc, (IH Hkey). reflexivity.
Qed.

(** Length of a joined list of parts with a separator of two characters. *)
Lemma join_length_lower (parts : list text) (sizes : list nat) (sep : text) :
  length sep = 2 ->
  Forall2 (fun n p => n <= length p) sizes parts ->
  list_sum (map S sizes) <= length (join sep parts) + 1.
Proof.
  intros Hsep H. induction H as [|n p sizes parts Hnp H IH]; simpl; [lia|].
  destruct parts as [|p2 parts].
  - inversion H; subst; simpl. lia.
  - rewrite !length_app, Hsep. lia.
Qed.

Unset Implicit Arguments.

Section RoundTrip.
Variable F : Type.
Variable codec : float_codec F.
Hypothesis codec_ok : codec_faithful codec.

(** Induction on a document, with the hypothesis for every item of a list and
    every value of a dictionary. *)
Lemma json_induction (P : json F -> Prop) :
  (forall x, P (JNumber x)) ->
  (forall items, Forall P items -> P (JArray items)) ->
  (forall members, Forall (fun m => P (snd m)) members -> P (JObject members)) ->
  forall v, P v.
Proof.
  intros number_case array_case object_case.
  fix IH 1. intros [x|items|members].
  - apply number_case.
  - apply array_case. induction items as [|i items IHitems]; constructor.
    + apply IH.
    + exact IHitems.
  - apply object_case. induction members as [|m members IHmembers]; constructor.
    + apply IH.
    + exact IHmembers.
Qed.

Lemma encode_head (v : json F) :
  json_finite codec v = true ->
  exists c tail, encode codec v = c :: tail /\ value_start c = true.
Proof.
  destruct v as [x|items|members]; cbn [json_finite encode]; intros Hv.
  - unfold floatstr, is_finite in *.
    destruct (classify codec x) eqn:Hx; try discriminate.
    destruct (codec_ok x Hx) as (_ & Hne & Hchars).
    destruct (float_repr codec x) as [|c tail]; [congruence|].
    exists c, tail. split; [reflexivity|].
    cbn [forallb] in Hchars. apply andb_true_iff in Hchars as [Hc _].
    unfold value_start. rewrite Hc. now rewrite !orb_true_r.
  - eexists _, _. split; reflexivity.
  - eexists _, _. split; reflexivity.
Qed.

Lemma skip_ws_encode (v : json F) (rest : text) :
  json_finite codec v = true -> skip_ws (encode codec v ++ rest) = encode codec v ++ rest.
Proof.
  intros Hv. destruct (encode_head v Hv) as (c & tail & -> & Hc).
  apply skip_ws_not_ws. apply (value_start_facts c Hc).
Qed.

Lemma parse_number (x : F) (fuel : nat) (rest : text) :
  classify codec x = Finite -> delimited rest = true ->
  parse_value codec (S fuel) (float_repr codec x ++ rest) = Some (JNumber x, rest).
Proof.
  intros Hx Hrest.
  destruct (codec_ok x Hx) as (Hparse & Hne & Hchars).
  pose proof (span_token _ _ Hchars Hrest) as Hspan.
  destruct (float_repr codec x) as [|c token]; [congruence|].
  cbn [forallb] in Hchars. apply andb_true_iff in Hchars as [Hc _].
  destruct (number_char_facts c Hc) as (H1 & H2 & _).
  cbn [parse_value app].
  rewrite H1, H2.
  change (c :: token ++ rest) with ((c :: token) ++ rest). rewrite Hspan.
  now rewrite Hparse.
Qed.

Lemma parse_value_unfold (fuel : nat) (c : ascii) (rest : text) :
  parse_value codec (S fuel) (c :: rest) =
  if Ascii.eqb c "["%char then
    match skip_ws rest with
    | [] => None
    | c' :: rest' =>
        if Ascii.eqb c' "]"%char then Some (JArray [], rest')
        else
          match parse_items codec fuel (c' :: rest') with
          | Some (items, rest'') => Some (JArray items, rest'')
          | None => None
          end
    end
  else if Ascii.eqb c "{"%char then
    match skip_ws rest with
    | [] => None
    | c' :: rest' =>
        if Ascii.eqb c' "}"%char then Some (JObject [], rest')
        else
          match parse_members codec fuel (c' :: rest') with
          | Some (members, rest'') => Some (JObject members, rest'')
          | None => None
          end
    end
  else parse_value codec 1 (c :: rest).
Proof.
  cbn [parse_value].
  destruct (Ascii.eqb c "["%char); [reflexivity|].
  destruct (Ascii.eqb c "{"%char); reflexivity.
Qed.

Lemma parse_items_unfold (fuel : nat) (s : text) :
  parse_items codec (S fuel) s =
  match parse_value codec fuel s with
  | None => None
  | Some (v, rest) =>
      match skip_ws rest with
      | [] => None
      | c :: rest' =>
          if Ascii.eqb c ","%char then
            match parse_items codec fuel (skip_ws rest') with
            | Some (vs, rest'') => Some (v :: vs, rest'')
            | None => None
            end
          else if Ascii.eqb c "]"%char then Some ([v], rest')
          else None
      end
  end.
Proof. reflexivity. Qed.

Lemma parse_members_unfold (fuel : nat) (rest : text) :
  parse_members codec (S fuel) ("034"%char :: rest) =
  match scan_string rest with
  | None => None
  | Some (key, rest') =>
      match skip_ws rest' with
      | [] => None
      | c :: rest'' =>
          if negb (Ascii.eqb c ":"%char) then None
          else
            match parse_value codec fuel (skip_ws rest'') with
            | None => None
            | Some (v, rest3) =>
                match skip_ws rest3 with
                | [] => None
                | d :: rest4 =>
                    if Ascii.eqb d ","%char then
                      match parse_members codec fuel (skip_ws rest4) with
                      | Some (ms, rest5) => Some ((key, v) :: ms, rest5)
                      | None => None
                      end
                    else if Ascii.eqb d "}"%char then Some ([(key, v)], rest4)
                    else None
                end
            end
      end
  end.
Proof. reflexivity. Qed.

Lemma join_cons (sep p : text) (ps : list text) :
  exists tail, join sep (p :: ps) = p ++ tail.
Proof.
  destruct ps as [|p2 ps]; cbn [join].
  - exists []. now rewrite app_nil_r.
  - eexists. reflexivity.
Qed.

Lemma join_cons_cons (sep p p2 : text) (ps : list text) :
  join sep (p :: p2 :: ps) = p ++ sep ++ join sep (p2 :: ps).
Proof. reflexivity. Qed.

Lemma skip_ws_join (v : json F) (vs : list (json F)) (rest : text) :
  json_finite codec v = true ->
  skip_ws (join item_separator (map (encode codec) (v :: vs)) ++ rest) =
  join item_separator (map (encode codec) (v :: vs)) ++ rest.
Proof.
  intros Hv. cbn [map].
  destruct (join_cons item_separator (encode codec v) (map (encode codec) vs)) as (tail & ->).
  rewrite <- app_assoc. now apply skip_ws_encode.
Qed.

Lemma parse_items_encode (items : list (json F)) :
  Forall (parses codec) items -> forallb (json_finite codec) items = true -> items <> [] ->
  forall fuel rest,
    list_sum (map S (map json_size items)) <= fuel ->
    parse_items codec fuel (join item_separator (map (encode codec) items) ++ "]"%char :: rest)
    = Some (items, rest).
Proof.
  induction items as [|v vs IH]; intros Hall Hfin Hne fuel rest Hfuel; [congruence|].
  inversion Hall as [|? ? Pv Hall']; subst.
  cbn [forallb] in Hfin. apply andb_true_iff in Hfin as [Hv Hvs].
  cbn [map list_sum fold_right] in Hfuel.
  destruct fuel as [|fuel]; [lia|].
  rewrite parse_items_unfold.
  destruct vs as [|v2 vs'].
  - cbn [map join].
    rewrite (Pv Hv fuel ("]"%char :: rest)) by (cbn [map list_sum fold_right] in Hfuel; lia || reflexivity).
    reflexivity.
  - change (map (encode codec) (v :: v2 :: vs')) with (encode codec v :: encode codec v2 :: map (encode codec) vs').
    rewrite join_cons_cons, <- !app_assoc.
    change (item_separator ++ ?x) with (","%char :: " "%char :: x).
    rewrite (Pv Hv fuel) by (lia || reflexivity).
    cbn [skip_ws is_ws Ascii.eqb Bool.eqb andb].
    change (encode codec v2 :: map (encode codec) vs') with (map (encode codec) (v2 :: vs')).
    cbn [forallb] in Hvs. apply andb_true_iff in Hvs as [Hv2 Hvs'].
    rewrite skip_ws_join by exact Hv2.
    rewrite IH; [reflexivity | exact Hall' | | discriminate | ].
    + cbn [forallb]. now rewrite Hv2, Hvs'.
    + unfold list_sum in *. cbn [map fold_right] in *. lia.
Qed.

Lemma parse_member_step (key : text) (v : json F) (fuel : nat) (tail : text) :
  forallb is_plain_char key = true ->
  parses codec v -> json_finite codec v = true -> json_size v <= fuel ->
  delimited tail = true ->
  parse_members codec (S fuel) (encode_member codec (key, v) ++ tail) =
  match skip_ws tail with
  | [] => None
  | d :: rest4 =>
      if Ascii.eqb d ","%char then
        match parse_members codec fuel (skip_ws rest4) with
        | Some (ms, rest5) => Some ((key, v) :: ms, rest5)
        | None => None
        end
      else if Ascii.eqb d "}"%char then Some ([(key, v)], rest4)
      else None
  end.
Proof.
  intros Hkey Pv Hv Hfuel Htail.
  unfold encode_member. cbn [fst snd app].
  rewrite <- app_assoc. cbn [app]. rewrite <- app_assoc.
  rewrite parse_members_unfold, scan_string_plain by exact Hkey.
  change (key_separator ++ ?x) with (":"%char :: " "%char :: x).
  cbn [skip_ws is_ws Ascii.eqb Bool.eqb andb negb].
  rewrite skip_ws_encode by exact Hv.
  rewrite (Pv Hv fuel tail Hfuel Htail).
  reflexivity.
Qed.

Lemma parse_members_encode (members : list (text * json F)) :
  Forall (fun m => parses codec (snd m)) members ->
  forallb (fun m => forallb is_plain_char (fst m) && json_finite codec (snd m)) members = true ->
  members <> [] ->
  forall fuel rest,
    list_sum (map S (map (fun m => json_size (snd m)) members)) <= fuel ->
    parse_members codec fuel
      (join item_separator (map (encode_member codec) members) ++ "}"%char :: rest)
    = Some (members, rest).
Proof.
  induction members as [|[key v] ms IH]; intros Hall Hfin Hne fuel rest Hfuel; [congruence|].
  inversion Hall as [|? ? Pv Hall']; subst. cbn [snd] in Pv.
  cbn [forallb fst snd] in Hfin. apply andb_true_iff in Hfin as [Hm Hms].
  apply andb_true_iff in Hm as [Hkey Hv].
  unfold list_sum in Hfuel. cbn [map fold_right snd] in Hfuel.
  destruct fuel as [|fuel]; [lia|].
  destruct ms as [|m2 ms'].
  - cbn [map join].
    rewrite parse_member_step by (assumption || lia || reflexivity).
    reflexivity.
  - change (map (encode_member codec) ((key, v) :: m2 :: ms'))
      with (encode_member codec (key, v) :: encode_member codec m2 :: map (encode_member codec) ms').
    rewrite join_cons_cons, <- !app_assoc.
    change (item_separator ++ ?x) with (","%char :: " "%char :: x).
    rewrite parse_member_step by (assumption || lia || reflexivity).
    cbn [skip_ws is_ws Ascii.eqb Bool.eqb andb].
    destruct (join_cons item_separator (encode_member codec m2) (map (encode_member codec) ms'))
      as (tail & Htail).
    assert (Hskip : forall x, skip_ws (join item_separator
                                         (encode_member codec m2 :: map (encode_member codec) ms') ++ x)
                              = join item_separator
                                  (encode_member codec m2 :: map (encode_member codec) ms') ++ x).
    { intros x. rewrite Htail. reflexivity. }
    rewrite Hskip.
    change (encode_member codec m2 :: map (encode_member codec) ms') with (map (encode_member codec) (m2 :: ms')).
    rewrite IH; [reflexivity | exact Hall' | exact Hms | discriminate | ].
    unfold list_sum. cbn [map fold_right] in *. lia.
Qed.

(** Every document of finite floats and plain keys is read back by the
    scanner. *)
Lemma parse_encode (v : json F) : parses codec v.
Proof.
  induction v as [x|items IH|members IH] using json_induction;
    intros Hv fuel rest Hfuel Hrest.
  - cbn [json_size] in Hfuel. destruct fuel as [|fuel]; [lia|].
    cbn [json_finite] in Hv. unfold is_finite in Hv.
    destruct (classify codec x) eqn:Hx; try discriminate.
    cbn [encode]. unfold floatstr. rewrite Hx.
    now apply parse_number.
  - cbn [json_size json_finite] in *. destruct fuel as [|fuel]; [lia|].
    cbn [encode].
    cbn [app]. rewrite parse_value_unfold. cbn [Ascii.eqb Bool.eqb andb].
    rewrite <- app_assoc. cbn [app].
    destruct items as [|v vs].
    + reflexivity.
    + remember (join item_separator (map (encode codec) (v :: vs)) ++ "]"%char :: rest)
        as doc eqn:Hdoc.
      pose proof Hv as Hall.
      cbn [forallb] in Hv. apply andb_true_iff in Hv as [Hv _].
      assert (Hhead : exists c tail, doc = c :: tail /\ value_start c = true).
      { subst doc. cbn [map].
        destruct (join_cons item_separator (encode codec v) (map (encode codec) vs))
          as (tail' & ->).
        destruct (encode_head v Hv) as (c & tail & -> & Hc).
        exists c. eexists. split; [reflexivity | exact Hc]. }
      destruct Hhead as (c & tail & Htail & Hc).
      destruct (value_start_facts c Hc) as (Hws & Hclose & _).
      rewrite Htail, (skip_ws_not_ws _ _ Hws), Hclose, <- Htail, Hdoc.
      rewrite parse_items_encode; [reflexivity | exact IH | exact Hall | discriminate | lia].
  - cbn [json_size json_finite] in *. destruct fuel as [|fuel]; [lia|].
    cbn [encode].
    cbn [app]. rewrite parse_value_unfold. cbn [Ascii.eqb Bool.eqb andb].
    rewrite <- app_assoc. cbn [app].
    change (map (fun m => "034"%char :: fst m ++ "034"%char :: key_separator ++ encode codec (snd m))
                members) with (map (encode_member codec) members).
    destruct members as [|m ms].
    + reflexivity.
    + remember (join item_separator (map (encode_member codec) (m :: ms)) ++ "}"%char :: rest)
        as doc eqn:Hdoc.
      assert (Hhead : exists tail, doc = "034"%char :: tail).
      { subst doc. cbn [map].
        destruct (join_cons item_separator (encode_member codec m) (map (encode_member codec) ms))
          as (tail' & ->).
        unfold encode_member at 1. cbn [app]. eexists. reflexivity. }
      destruct Hhead as (tail & Htail).
      rewrite Htail. cbn [skip_ws is_ws Ascii.eqb Bool.eqb andb].
      rewrite <- Htail, Hdoc.
      rewrite parse_members_encode; [reflexivity | exact IH | exact Hv | discriminate | lia].
Qed.

Lemma Forall2_map_le {A : Type} (size : A -> nat) (render : A -> text) (l : list A) :
  Forall (fun a => size a <= length (render a)) l ->
  Forall2 (fun n p => n <= length p) (map size l) (map render l).
Proof. induction 1; cbn [map]; constructor; auto. Qed.

(** The fuel that [decode] gives the scanner is enough. *)
Lemma json_size_le_length (v : json F) :
  json_finite codec v = true -> json_size v <= length (encode codec v).
Proof.
  induction v as [x|items IH|members IH] using json_induction; intros Hv.
  - cbn [json_size json_finite] in *. unfold is_finite in Hv.
    destruct (classify codec x) eqn:Hx; try discriminate.
    cbn [encode]. unfold floatstr. rewrite Hx.
    destruct (codec_ok x Hx) as (_ & Hne & _).
    destruct (float_repr codec x); [congruence | cbn [length]; lia].
  - cbn [json_size json_finite] in *.
    cbn [encode].
    cbn [length]. rewrite length_app. cbn [length].
    assert (H : list_sum (map S (map json_size items))
                <= length (join item_separator (map (encode codec) items)) + 1).
    { apply join_length_lower; [reflexivity|].
      apply Forall2_map_le.
      rewrite forallb_forall in Hv. rewrite Forall_forall in *.
      intros i Hi. apply IH; auto. }
    lia.
  - cbn [json_size json_finite] in *.
    cbn [encode].
    cbn [length]. rewrite length_app. cbn [length].
    change (map (fun m => "034"%char :: fst m ++ "034"%char :: key_separator ++ encode codec (snd m))
                members) with (map (encode_member codec) members).
    assert (H : list_sum (map S (map (fun m => json_size (snd m)) members))
                <= length (join item_separator (map (encode_member codec) members)) + 1).
    { apply join_length_lower; [reflexivity|].
      apply Forall2_map_le.
      rewrite forallb_forall in Hv. rewrite Forall_forall in *.
      intros m Hm. specialize (IH m Hm). specialize (Hv m Hm).
      apply andb_true_iff in Hv as [_ Hv]. specialize (IH Hv).
      unfold encode_member. cbn [length]. rewrite length_app. cbn [length].
      rewrite length_app. lia. }
    lia.
Qed.

(** [json.loads(json.dumps(v)) == v]. *)
Lemma decode_encode (v : json F) :
  json_finite codec v = true ->
  decode codec (encode codec v) = Some v.
Proof.
  intros Hv. unfold decode.
  rewrite <- (app_nil_r (encode codec v)) at 2.
  rewrite skip_ws_encode by exact Hv.
  pose proof (parse_encode v Hv (S (length (encode codec v))) []) as H.
  rewrite H; [reflexivity | | reflexivity].
  pose proof (json_size_le_length v Hv). lia.
Qed.

Lemma document_finite (t : table F) :
  table_finite codec t = true -> json_finite codec (document (Some t)) = true.
Proof.
  unfold table_finite. intros H. apply andb_true_iff in H as [Hbins Hrows].
  cbn [document json_finite forallb fst snd].
  assert (Hnum : forall l, forallb (is_finite codec) l = true ->
                           forallb (json_finite codec) (map JNumber l) = true).
  { induction l as [|x l IHl]; cbn [map forallb json_finite]; [reflexivity|].
    intros Hl. apply andb_true_iff in Hl as [-> Hl]. now rewrite IHl. }
  rewrite (Hnum _ Hbins).
  assert (Hrow : forallb (json_finite codec)
                   (map (fun row => JArray (map JNumber row)) (calibration_factors t))
                 = true).
  { induction (calibration_factors t) as [|row rows IHr]; cbn [map forallb json_finite];
      [reflexivity|].
    cbn [forallb] in Hrows. apply andb_true_iff in Hrows as [Hr Hrows].
    now rewrite (Hnum _ Hr), IHr. }
  rewrite Hrow. reflexivity.
Qed.

Lemma write_file_read (fs : filesystem) (path : string) (content : text) :
  write_file fs path content path = Some content.
Proof. unfold write_file. now rewrite String.eqb_refl. Qed.

(** C2 -- Round trip.  For a table all of whose frequency bins and factors
    are finite floats, loading the file that [save_calibration] has written
    yields the dictionary that was saved: the same two keys, with the same
    values in the same order.  The decimal rendering of a float and its
    reading are CPython's, for which [float(repr(x)) == x] on finite
    floats. *)
Theorem load_save_round_trip (t : table F) (filepath : string) (fs : filesystem) :
  table_finite codec t = true ->
  load_calibration codec filepath (save_calibration codec (Some t) filepath fs)
  = Ok (document (Some t)).
Proof.
  intros Ht. unfold load_calibration, save_calibration.
  rewrite write_file_read.
  pose proof (decode_encode (document (Some t)) (document_finite t Ht)) as H.
  now rewrite H.
Qed.
End RoundTrip.

Lemma load_missing_file (F : Type) (codec : float_codec F) (filepath : string)
      (fs : filesystem) :
  fs filepath = None ->
  load_calibration codec filepath fs = Err (FileNotFound filepath).
Proof. intros H. unfold load_calibration. now rewrite H. Qed.

(** The file that [save_calibration] writes for [sample_table]. *)
Lemma sample_file_content :
  encode sample_codec (document (Some sample_table)) =
  "{"%char :: quoted "frequency_bins" ++ list_ascii_of_string ": [0.0, 1000.5], "
  ++ quoted "calibration_factors"
  ++ list_ascii_of_string ": [[1.0, 0.5], [-2e-05, 1e+16]]}".
Proof. vm_compute. reflexivity. Qed.

Lemma load_save_round_trip_witness :
  load_calibration sample_codec "calibration_data.json"
    (save_calibration sample_codec (Some sample_table)
                      "calibration_data.json" (fun _ => None))
  = Ok (document (Some sample_table)).
Proof.
  apply (load_save_round_trip sample_float sample_codec).
  - intros [] H; try discriminate H; repeat split; (discriminate || reflexivity).
  - reflexivity.
Defined.

(** ** What [align_signals] returns, sample by sample *)

Section AlignmentWindow.
Variable T : Type.
Variable zero : T.
Variable add mul : T -> T -> T.
Variable gtb : T -> T -> bool.

Lemma nth_cut_and_fill (l : list T) (n j : nat) :
  j < n ->
  nth j (np_pad zero (firstn n l) 0 (n - length (firstn n l))) zero = nth j l zero.
Proof.
  intros Hj. unfold np_pad. cbn [repeat app].
  destruct (Nat.lt_ge_cases j (length l)) as [Hin|Hout].
  - rewrite app_nth1 by (rewrite length_firstn; lia).
    rewrite nth_firstn.
    destruct (Nat.ltb_spec j n); [reflexivity | lia].
  - rewrite (nth_overflow l) by exact Hout.
    destruct (Nat.lt_ge_cases j (length (firstn n l))) as [H1|H1].
    + rewrite length_firstn in H1. lia.
    + rewrite app_nth2 by exact H1.
      destruct (Nat.lt_ge_cases (j - length (firstn n l)) (n - length (firstn n l))).
      * apply nth_repeat_lt; assumption.
      * apply nth_overflow. rewrite repeat_length. assumption.
Qed.

Lemma nth_shifted (mic_signal : list T) (offset : Z) (j : nat) :
  nth j (if (offset >? 0)%Z then skipn (Z.to_nat offset) mic_signal
         else np_pad zero mic_signal (Z.abs_nat offset) 0) zero =
  at_index zero mic_signal (Z.of_nat j + offset).
Proof.
  unfold at_index.
  destruct (Z.gtb_spec offset 0) as [Hpos|Hneg].
  - destruct (Z.ltb_spec (Z.of_nat j + offset) 0); [lia|].
    rewrite nth_skipn. f_equal. lia.
  - unfold np_pad. rewrite app_nil_r.
    destruct (Z.ltb_spec (Z.of_nat j + offset) 0) as [Hlt|Hge].
    + rewrite app_nth1 by (rewrite repeat_length; lia).
      apply nth_repeat_lt. lia.
    + rewrite app_nth2 by (rewrite repeat_length; lia).
      rewrite repeat_length. f_equal. lia.
Qed.

(** The loop body reads the microphone signal from position [offset] on:
    sample [j] of the result is sample [j + offset] of the signal, and zero
    where that position lies outside the signal. *)
Lemma align_one_reads_from_offset (ref_signal : list T) (mic : ndarray T) (out : list T) :
  align_one zero add mul gtb ref_signal mic = Ok out ->
  exists mic_signal correlation peak,
    first_channel zero mic = Ok mic_signal /\
    correlate zero add mul mic_signal ref_signal = Ok correlation /\
    argmax gtb correlation = Ok peak /\
    forall j, j < length ref_signal ->
      nth j out zero =
      at_index zero mic_signal
               (Z.of_nat j + (Z.of_nat peak - Z.of_nat (length ref_signal))).
Proof.
  unfold align_one. intros H.
  apply bind_ok in H as (mic_signal & Hmic & H).
  apply bind_ok in H as (correlation & Hcorr & H).
  apply bind_ok in H as (peak & Hpeak & H).
  exists mic_signal, correlation, peak. repeat split; try assumption.
  intros j Hj.
  assert (Hout : out = np_pad zero
            (firstn (length ref_signal)
               (if (Z.of_nat peak - Z.of_nat (length ref_signal) >? 0)%Z
                then skipn (Z.to_nat (Z.of_nat peak - Z.of_nat (length ref_signal))) mic_signal
                else np_pad zero mic_signal
                       (Z.abs_nat (Z.of_nat peak - Z.of_nat (length ref_signal))) 0))
            0 (length ref_signal - length
               (firstn (length ref_signal)
               (if (Z.of_nat peak - Z.of_nat (length ref_signal) >? 0)%Z
                then skipn (Z.to_nat (Z.of_nat peak - Z.of_nat (length ref_signal))) mic_signal
                else np_pad zero mic_signal
                       (Z.abs_nat (Z.of_nat peak - Z.of_nat (length ref_signal))) 0))))
    by congruence.
  rewrite Hout, nth_cut_and_fill by exact Hj.
  apply nth_shifted.
Qed.

(** X1 -- Every signal that [align_signals] returns is the corresponding input
    signal (its first channel) read from its own offset on, the offset being
    the position of the peak of its correlation with the reference minus the
    length of the reference; positions outside the signal read as zero.  The
    other input signals play no part in it. *)
Theorem align_signals_reads_from_offset (ref : ndarray T) (mic_signals : list (ndarray T))
    (aligned : list (list T)) :
  align_signals zero add mul gtb ref mic_signals = Ok aligned ->
  exists ref_signal,
    first_channel zero ref = Ok ref_signal /\
    forall i mic out,
      nth_error mic_signals i = Some mic ->
      nth_error aligned i = Some out ->
      exists mic_signal correlation peak,
        first_channel zero mic = Ok mic_signal /\
        correlate zero add mul mic_signal ref_signal = Ok correlation /\
        argmax gtb correlation = Ok peak /\
        forall j, j < length ref_signal ->
          nth j out zero =
          at_index zero mic_signal
                   (Z.of_nat j + (Z.of_nat peak - Z.of_nat (length ref_signal))).
Proof.
  unfold align_signals. intros H.
  apply bind_ok in H as (ref_signal & Href & H).
  exists ref_signal. split; [exact Href|].
  intros i mic out Hi Ho.
  destruct (@for_each_nth _ _ _ _ _ H _ _ Hi) as (out' & Hrun & Hnth).
  replace out with out' by congruence.
  apply align_one_reads_from_offset. exact Hrun.
Qed.
End AlignmentWindow.

Lemma align_signals_reads_from_offset_witness :
  exists ref_signal,
    first_channel 0%Z (Arr1 [1; 2; 3]%Z) = Ok ref_signal /\
    forall i mic out,
      nth_error [Arr1 [0; 0; 1; 2; 3]%Z; Arr1 [2; 3]%Z] i = Some mic ->
      nth_error [[0; 1; 2]; [0; 0; 2]]%Z i = Some out ->
      exists mic_signal correlation peak,
        first_channel 0%Z mic = Ok mic_signal /\
        correlate 0%Z Z.add Z.mul mic_signal ref_signal = Ok correlation /\
        argmax Z.gtb correlation = Ok peak /\
        forall j, j < length ref_signal ->
          nth j out 0%Z =
          at_index 0%Z mic_signal
                   (Z.of_nat j + (Z.of_nat peak - Z.of_nat (length ref_signal))).
Proof.
  apply (align_signals_reads_from_offset Z 0%Z Z.add Z.mul Z.gtb (Arr1 [1; 2; 3]%Z)
           [Arr1 [0; 0; 1; 2; 3]%Z; Arr1 [2; 3]%Z] [[0; 1; 2]; [0; 0; 2]]%Z).
  vm_compute. reflexivity.
Defined.

(** ** Indexing with a Python integer *)

Lemma py_index_in_range {A : Type} (l : list A) (i : Z) :
  (- Z.of_nat (length l) <= i < Z.of_nat (length l))%Z ->
  exists a, py_index l i = Ok a.
Proof.
  intros Hi. unfold py_index.
  destruct (Z.ltb_spec i 0) as [Hneg|Hpos].
  - destruct (Z.ltb_spec (i + Z.of_nat (length l)) 0); [lia|].
    destruct (nth_error l (Z.to_nat (i + Z.of_nat (length l)))) as [a|] eqn:Hn; [eauto|].
    apply nth_error_None in Hn. lia.
  - destruct (Z.ltb_spec i 0); [lia|].
    destruct (nth_error l (Z.to_nat i)) as [a|] eqn:Hn; [eauto|].
    apply nth_error_None in Hn. lia.
Qed.

Lemma py_index_out_of_range {A : Type} (l : list A) (i : Z) :
  ~ (- Z.of_nat (length l) <= i < Z.of_nat (length l))%Z ->
  py_index l i = Err IndexError.
Proof.
  intros Hi. unfold py_index.
  destruct (Z.ltb_spec i 0) as [Hneg|Hpos].
  - destruct (Z.ltb_spec (i + Z.of_nat (length l)) 0); [reflexivity|].
    destruct (nth_error l (Z.to_nat (i + Z.of_nat (length l)))) as [a|] eqn:Hn;
      [|reflexivity].
    assert (Z.to_nat (i + Z.of_nat (length l)) < length l)
      by (apply nth_error_Some; congruence).
    lia.
  - destruct (Z.ltb_spec i 0); [lia|].
    destruct (nth_error l (Z.to_nat i)) as [a|] eqn:Hn; [|reflexivity].
    assert (Z.to_nat i < length l) by (apply nth_error_Some; congruence).
    lia.
Qed.

Lemma py_index_error_kind {A : Type} (l : list A) (i : Z) (e : error) :
  py_index l i = Err e -> e = IndexError.
Proof.
  unfold py_index.
  destruct (_ <? 0)%Z; [congruence|].
  destruct (nth_error l _); congruence.
Qed.

(** The position that an index resolves to depends on the length of the list
    only. *)
Lemma py_index_position {A : Type} (l : list A) (i : Z) (a : A) :
  py_index l i = Ok a ->
  exists n,
    nth_error l n = Some a /\
    forall (B : Type) (l' : list B),
      length l' = length l ->
      py_index l' i = match nth_error l' n with Some b => Ok b | None => Err IndexError end.
Proof.
  unfold py_index. intros H.
  destruct ((if (i <? 0)%Z then (i + Z.of_nat (length l))%Z else i) <? 0)%Z eqn:Hneg;
    [discriminate|].
  destruct (nth_error l (Z.to_nat (if (i <? 0)%Z then (i + Z.of_nat (length l))%Z else i)))
    as [a'|] eqn:Hn; [|discriminate].
  exists (Z.to_nat (if (i <? 0)%Z then (i + Z.of_nat (length l))%Z else i)).
  split; [congruence|].
  intros B l' Hlen. rewrite Hlen, Hneg. reflexivity.
Qed.

Lemma nth_error_zip_with {A B D : Type} (f : A -> B -> D) (l : list A) (l' : list B)
      (i : nat) (a : A) (b : B) :
  nth_error l i = Some a -> nth_error l' i = Some b ->
  nth_error (zip_with f l l') i = Some (f a b).
Proof.
  revert l' i; induction l as [|x l IH]; intros [|y l'] [|i]; simpl; try discriminate.
  - now intros [= ->] [= ->].
  - apply IH.
Qed.

(** ** The rows of the table, one recording at a time *)

Lemma analyze_frequency_response_rows (self : MicrophoneCalibrator)
      (mic_recordings : list (list R)) (sample_rate : Z) (ref_response : list R) :
  py_index mic_recordings (ref_mic_index self) = Ok ref_response ->
  ref_response <> [] ->
  sample_rate <> 0%Z ->
  exists factors,
    analyze_frequency_response self mic_recordings sample_rate
      = Ok (Calibrator (ref_mic_index self)
              (Some (Table (rfftfreq (length ref_response) (1 / IZR sample_rate)%R) factors))) /\
    length factors = length mic_recordings /\
    forall i mic_response,
      nth_error mic_recordings i = Some mic_response ->
      exists row,
        nth_error factors i = Some row /\
        length row = length ref_response / 2 + 1 /\
        forall k, k <= length ref_response / 2 ->
          magnitude (length ref_response) mic_response k <> 0%R ->
          nth k row 0%R = (magnitude (length ref_response) ref_response k /
                           magnitude (length ref_response) mic_response k)%R.
Proof.
  intros Href Hne Hrate.
  unfold analyze_frequency_response. rewrite Href. cbn [bind].
  assert (HN : 1 <= length ref_response)
    by (destruct ref_response; simpl; [congruence | lia]).
  destruct (rfft ref_response (Z.of_nat (length ref_response))) as [ref_spectrum|e] eqn:Hspec;
    [|rewrite rfft_ok in Hspec by exact HN; discriminate].
  cbn [bind].
  set (body := fun mic_response : list R =>
                 mic_spectrum <- rfft mic_response (Z.of_nat (length ref_response)) ;;
                 Ok (zip_with Rdiv (map Cabs ref_spectrum) (map Cabs mic_spectrum))).
  destruct (@for_each_ok _ _ body mic_recordings) as (factors & Hfactors).
  { intros mic _. destruct (@cal_factor_row ref_response mic ref_spectrum Hne Hspec)
      as (row & Hrow & _). exists row; exact Hrow. }
  rewrite Hfactors. cbn [bind].
  destruct (Z.eqb_spec sample_rate 0); [contradiction|].
  exists factors. split; [reflexivity|].
  split; [exact (@for_each_length _ _ _ _ _ Hfactors)|].
  intros i mic Hi.
  destruct (@for_each_nth _ _ _ _ _ Hfactors _ _ Hi) as (row & Hrow & Hnth).
  exists row. split; [exact Hnth|].
  destruct (@cal_factor_row ref_response mic ref_spectrum Hne Hspec)
    as (row' & Hrow' & Hlen & Hval).
  unfold body in Hrow. replace row with row' by congruence. auto.
Qed.

(** X2 -- The reference microphone's own row: its factor is 1 at every bin where
    its spectrum is not zero.  The row is found in the table at
    [ref_mic_index], counted from the end when the index is negative. *)
Theorem reference_row_is_unit (self : MicrophoneCalibrator)
    (mic_recordings : list (list R)) (sample_rate : Z) (ref_response : list R) :
  py_index mic_recordings (ref_mic_index self) = Ok ref_response ->
  ref_response <> [] ->
  sample_rate <> 0%Z ->
  exists tbl row,
    analyze_frequency_response self mic_recordings sample_rate
      = Ok (Calibrator (ref_mic_index self) (Some tbl)) /\
    py_index (calibration_factors tbl) (ref_mic_index self) = Ok row /\
    forall k, k <= length ref_response / 2 ->
      magnitude (length ref_response) ref_response k <> 0%R ->
      nth k row 0%R = 1%R.
Proof.
  intros Href Hne Hrate.
  destruct (analyze_frequency_response_rows self mic_recordings sample_rate ref_response
              Href Hne Hrate) as (factors & Hrun & Hlen & Hrows).
  destruct (py_index_position _ _ _ Href) as (n & Hn & Hsame).
  destruct (Hrows n ref_response Hn) as (row & Hrow & _ & Hval).
  eexists; exists row. split; [exact Hrun|].
  cbn [calibration_factors]. split.
  - rewrite (Hsame _ factors Hlen), Hrow. reflexivity.
  - intros k Hk Hnz. rewrite Hval by assumption. now apply Rinv_r.
Qed.

Lemma reference_row_is_unit_witness :
  exists tbl row,
    analyze_frequency_response (init (-1)) [[1; 0; 0]; [0; 1; 0]]%R 48000
      = Ok (Calibrator (-1) (Some tbl)) /\
    py_index (calibration_factors tbl) (-1) = Ok row /\
    forall k, k <= 3 / 2 ->
      magnitude 3 [0; 1; 0]%R k <> 0%R ->
      nth k row 0%R = 1%R.
Proof.
  apply (reference_row_is_unit (init (-1)) [[1; 0; 0]; [0; 1; 0]]%R 48000 [0; 1; 0]%R).
  - reflexivity.
  - discriminate.
  - discriminate.
Defined.

(** ** When [analyze_frequency_response] raises *)

(** X3 -- The three ways in which the analysis raises, and no other: the reference
    index is outside the list of recordings ([IndexError]); the reference
    recording is empty (the [ValueError] of the transform of length 0); the
    sample rate is 0 ([ZeroDivisionError], after all transforms are done).
    The other recordings, whatever their lengths, never make it raise. *)
Theorem analyze_frequency_response_raises (self : MicrophoneCalibrator)
    (mic_recordings : list (list R)) (sample_rate : Z) (e : error) :
  analyze_frequency_response self mic_recordings sample_rate = Err e <->
  (e = IndexError /\
   ~ (- Z.of_nat (length mic_recordings) <= ref_mic_index self
      < Z.of_nat (length mic_recordings))%Z) \/
  (e = InvalidFFTLength /\ py_index mic_recordings (ref_mic_index self) = Ok []) \/
  (e = ZeroDivisionError /\ sample_rate = 0%Z /\
   exists ref_response,
     py_index mic_recordings (ref_mic_index self) = Ok ref_response /\
     ref_response <> []).
Proof.
  destruct (py_index mic_recordings (ref_mic_index self)) as [ref_response|e0] eqn:Href.
  - assert (Hin : (- Z.of_nat (length mic_recordings) <= ref_mic_index self
                   < Z.of_nat (length mic_recordings))%Z).
    { destruct (Z.le_gt_cases (- Z.of_nat (length mic_recordings)) (ref_mic_index self));
        [destruct (Z.lt_ge_cases (ref_mic_index self) (Z.of_nat (length mic_recordings)));
         [lia|]|];
        rewrite py_index_out_of_range in Href by lia; discriminate. }
    destruct ref_response as [|r ref_response].
    + unfold analyze_frequency_response. rewrite Href. cbn.
      split.
      * intros [= <-]. right; left. auto.
      * intros [[_ H]|[[-> _]|(_ & _ & ref' & [= <-] & H)]];
          [contradiction | reflexivity | congruence].
    + destruct (Z.eq_dec sample_rate 0) as [Hz|Hnz].
      * unfold analyze_frequency_response. rewrite Href. cbn [bind].
        rewrite rfft_ok by (simpl; lia). cbn [bind].
        set (ref_spectrum := map (dft_bin _ _) _).
        set (body := fun mic_response : list R =>
                 mic_spectrum <- rfft mic_response (Z.of_nat (length (r :: ref_response))) ;;
                 Ok (zip_with Rdiv (map Cabs ref_spectrum) (map Cabs mic_spectrum))).
        destruct (@for_each_ok _ _ body mic_recordings) as (factors & Hfactors).
        { intros mic _. unfold body. rewrite rfft_ok by (simpl; lia). cbn [bind]. eauto. }
        rewrite Hfactors. cbn [bind]. subst sample_rate. cbn [Z.eqb].
        split.
        -- intros [= <-]. right; right. split; [reflexivity|]. split; [reflexivity|].
           exists (r :: ref_response). split; [reflexivity | discriminate].
        -- intros [[_ H]|[[_ H]|(-> & _)]];
             [contradiction | discriminate | reflexivity].
      * destruct (analyze_frequency_response_rows self mic_recordings sample_rate
                    (r :: ref_response) Href) as (factors & Hrun & _);
          [discriminate | exact Hnz |].
        rewrite Hrun. split; [discriminate|].
        intros [[_ H]|[[_ H]|(_ & H & _)]];
          [contradiction | discriminate | contradiction].
  - assert (He0 := py_index_error_kind _ _ _ Href). subst e0.
    assert (Hout : ~ (- Z.of_nat (length mic_recordings) <= ref_mic_index self
                      < Z.of_nat (length mic_recordings))%Z).
    { intros Hin. destruct (py_index_in_range mic_recordings _ Hin) as (a & Ha).
      congruence. }
    unfold analyze_frequency_response. rewrite Href. cbn [bind].
    split.
    + intros [= <-]. left. auto.
    + intros [[-> _]|[[_ H]|(_ & _ & ref' & H & _)]];
        [reflexivity | discriminate | discriminate].
Qed.

(** ** Gains *)

Lemma fit_scale (g : R) (n : nat) (x : list R) :
  fit 0%R n (map (Rmult g) x) = map (Rmult g) (fit 0%R n x).
Proof.
  unfold fit. rewrite map_app, firstn_map, length_map, map_repeat.
  now rewrite Rmult_0_r.
Qed.

Lemma nth_scale (g : R) (x : list R) (j : nat) :
  nth j (map (Rmult g) x) 0%R = (g * nth j x 0)%R.
Proof.
  rewrite <- (Rmult_0_r g) at 1. apply map_nth.
Qed.

Lemma Csum_scale {A : Type} (g : R) (f : A -> C) (l : list A) :
  Csum (map (fun a => Cscale g (f a)) l) = Cscale g (Csum (map f l)).
Proof.
  induction l as [|a l IH]; unfold Csum in *; cbn [map fold_right].
  - unfold Cscale, Czero, Cre, Cim. cbn [fst snd]. f_equal; ring.
  - rewrite IH. unfold Cscale, Cadd, Cre, Cim. cbn [fst snd]. f_equal; ring.
Qed.

Lemma dft_bin_scale (g : R) (n : nat) (x : list R) (k : nat) :
  dft_bin n (map (Rmult g) x) k = Cscale g (dft_bin n x k).
Proof.
  unfold dft_bin. rewrite <- Csum_scale. f_equal.
  apply map_ext. intros j. rewrite nth_scale.
  unfold Cscale, Cre, Cim. cbn [fst snd]. f_equal; ring.
Qed.

(** A recording multiplied by a gain has its magnitudes multiplied by the
    absolute value of the gain. *)
Lemma magnitude_scale (g : R) (n : nat) (x : list R) (k : nat) :
  magnitude n (map (Rmult g) x) k = (Rabs g * magnitude n x k)%R.
Proof.
  unfold magnitude. rewrite fit_scale, dft_bin_scale. apply Cabs_scale.
Qed.

(** X4 -- Gains and factors.  When every recording is multiplied by a gain of its
    own (none of them zero), the frequency bins stay as they are and the
    factor of microphone [i] is multiplied, at every bin where that
    microphone's spectrum is not zero, by [|gain of the reference| / |gain of
    microphone i|]. *)
Theorem analyze_frequency_response_gains (self : MicrophoneCalibrator)
    (mic_recordings : list (list R)) (gains : list R) (sample_rate : Z)
    (ref_response : list R) (ref_gain : R) :
  length gains = length mic_recordings ->
  Forall (fun g => g <> 0%R) gains ->
  py_index mic_recordings (ref_mic_index self) = Ok ref_response ->
  py_index gains (ref_mic_index self) = Ok ref_gain ->
  ref_response <> [] ->
  sample_rate <> 0%Z ->
  exists tbl tbl',
    analyze_frequency_response self mic_recordings sample_rate
      = Ok (Calibrator (ref_mic_index self) (Some tbl)) /\
    analyze_frequency_response self
      (zip_with (fun g x => map (Rmult g) x) gains mic_recordings) sample_rate
      = Ok (Calibrator (ref_mic_index self) (Some tbl')) /\
    frequency_bins tbl' = frequency_bins tbl /\
    forall i g mic_response row row' k,
      nth_error gains i = Some g ->
      nth_error mic_recordings i = Some mic_response ->
      nth_error (calibration_factors tbl) i = Some row ->
      nth_error (calibration_factors tbl') i = Some row' ->
      k <= length ref_response / 2 ->
      magnitude (length ref_response) mic_response k <> 0%R ->
      nth k row' 0%R = (Rabs ref_gain / Rabs g * nth k row 0)%R.
Proof.
  intros Hlen Hgains Href Hgref Hne Hrate.
  set (scaled := zip_with (fun g x => map (Rmult g) x) gains mic_recordings).
  destruct (py_index_position _ _ _ Href) as (n & Hn & Hsame).
  assert (Hgn : nth_error gains n = Some ref_gain).
  { rewrite (Hsame _ gains Hlen) in Hgref.
    destruct (nth_error gains n); congruence. }
  assert (Hscaled_len : length scaled = length mic_recordings)
    by (unfold scaled; rewrite length_zip_with; lia).
  assert (Href' : py_index scaled (ref_mic_index self) = Ok (map (Rmult ref_gain) ref_response)).
  { rewrite (Hsame _ scaled Hscaled_len). unfold scaled.
    now rewrite (nth_error_zip_with (fun g x => map (Rmult g) x) _ _ _ _ _ Hgn Hn). }
  destruct (analyze_frequency_response_rows self mic_recordings sample_rate ref_response
              Href Hne Hrate) as (factors & Hrun & _ & Hrows).
  destruct (analyze_frequency_response_rows self scaled sample_rate
              (map (Rmult ref_gain) ref_response) Href')
    as (factors' & Hrun' & _ & Hrows');
    [destruct ref_response; [congruence | discriminate] | exact Hrate |].
  rewrite length_map in Hrun', Hrows'.
  do 2 eexists. split; [exact Hrun|]. split; [exact Hrun'|].
  cbn [frequency_bins calibration_factors]. split; [reflexivity|].
  intros i g mic row row' k Hg Hmic Hrow Hrow' Hk Hnz.
  destruct (Hrows i mic Hmic) as (r & Hr & _ & Hval).
  destruct (Hrows' i (map (Rmult g) mic)) as (r' & Hr' & _ & Hval').
  { exact (nth_error_zip_with (fun g x => map (Rmult g) x) _ _ _ _ _ Hg Hmic). }
  replace row with r by congruence. replace row' with r' by congruence.
  assert (Hg0 : g <> 0%R).
  { rewrite Forall_forall in Hgains. apply Hgains. eapply nth_error_In; eauto. }
  rewrite Hval by assumption.
  rewrite Hval';
    [| exact Hk
     | rewrite magnitude_scale; apply Rmult_integral_contrapositive_currified;
       [now apply Rabs_no_R0 | exact Hnz]].
  rewrite !magnitude_scale.
  field. split; [exact Hnz | now apply Rabs_no_R0].
Qed.

Lemma analyze_frequency_response_gains_witness :
  exists tbl tbl',
    analyze_frequency_response (init 0) [[1; 0; 0]; [0; 1; 0]]%R 48000
      = Ok (Calibrator 0 (Some tbl)) /\
    analyze_frequency_response (init 0)
      (zip_with (fun g x => map (Rmult g) x) [2; -4]%R [[1; 0; 0]; [0; 1; 0]]%R) 48000
      = Ok (Calibrator 0 (Some tbl')) /\
    frequency_bins tbl' = frequency_bins tbl.
Proof.
  destruct (analyze_frequency_response_gains (init 0) [[1; 0; 0]; [0; 1; 0]]%R
              [2; -4]%R 48000 [1; 0; 0]%R 2%R) as (tbl & tbl' & H1 & H2 & H3 & _).
  - reflexivity.
  - repeat constructor; lra.
  - reflexivity.
  - reflexivity.
  - discriminate.
  - discriminate.
  - exists tbl, tbl'. auto.
Defined.

(** ** [apply_calibration_folder]: when it returns, when it raises, what it keeps *)

Lemma correction_core_returns_iff (nbins : nat) (row mic_response : list R) :
  (exists corrected, correction_core nbins row mic_response = Ok corrected) <->
  1 <= nbins /\ mic_response <> [].
Proof.
  split.
  - intros (corrected & H). unfold correction_core, rfft, irfft in H.
    destruct (Z.ltb_spec (Z.of_nat nbins * 2 - 1) 1) as [Hb|Hb]; [discriminate|].
    cbn [bind] in H.
    destruct (Z.ltb_spec (Z.of_nat (length mic_response)) 1) as [Hm|Hm]; [discriminate|].
    split; [lia|]. intros ->. simpl in Hm. lia.
  - intros [Hb Hm]. now apply (@correction_core_total nbins row mic_response).
Qed.

Lemma folder_body_outcome (data : table R) (i : nat) (mic_response : list R) :
  folder_body data (i, mic_response) =
  if length (frequency_bins data) =? 0 then Err InvalidFFTLength
  else match nth_error (calibration_factors data) i with
       | None => Err IndexError
       | Some row => correction_core (length (frequency_bins data)) row mic_response
       end.
Proof.
  destruct (Nat.eqb_spec (length (frequency_bins data)) 0) as [H0|H0].
  - unfold folder_body, rfft. rewrite H0. reflexivity.
  - destruct (nth_error (calibration_factors data) i) as [row|] eqn:Hrow.
    + now apply folder_body_row.
    + unfold folder_body.
      replace (Z.of_nat (length (frequency_bins data)) * 2 - 1)%Z
        with (Z.of_nat (2 * length (frequency_bins data) - 1)) by lia.
      rewrite rfft_ok by lia. cbn [bind].
      now rewrite py_index_nat, Hrow.
Qed.

Lemma folder_body_returns_iff (data : table R) (i : nat) (mic_response : list R) :
  (exists corrected, folder_body data (i, mic_response) = Ok corrected) <->
  1 <= length (frequency_bins data) /\
  i < length (calibration_factors data) /\
  mic_response <> [].
Proof.
  rewrite folder_body_outcome.
  destruct (Nat.eqb_spec (length (frequency_bins data)) 0) as [H0|H0].
  - split; [intros (c & H); discriminate | lia].
  - destruct (nth_error (calibration_factors data) i) as [row|] eqn:Hrow.
    + rewrite correction_core_returns_iff.
      assert (i < length (calibration_factors data)) by (apply nth_error_Some; congruence).
      tauto.
    + apply nth_error_None in Hrow.
      split; [intros (c & H); discriminate | lia].
Qed.

Lemma for_each_returns_iff {A B : Type} (body : A -> result B) (l : list A) :
  (exists out, for_each body l = Ok out) <->
  forall a, In a l -> exists b, body a = Ok b.
Proof.
  split.
  - intros (out & H) a Hin.
    destruct (In_nth_error _ _ Hin) as (i & Hi).
    destruct (@for_each_nth _ _ _ _ _ H _ _ Hi) as (b & Hb & _). eauto.
  - apply for_each_ok.
Qed.

(** X5 -- [apply_calibration_folder] returns exactly when a table is loaded and,
    unless no recording is given, the table has at least one frequency bin,
    at least as many factor rows as there are recordings, and no recording is
    empty. *)
Theorem apply_calibration_folder_returns_iff (self : MicrophoneCalibrator)
    (mic_recordings : list (list R)) (sample_rate : Z) :
  (exists out, apply_calibration_folder self mic_recordings sample_rate = Ok out) <->
  exists data,
    calibration_data self = Some data /\
    (mic_recordings = [] \/
     (1 <= length (frequency_bins data) /\
      length mic_recordings <= length (calibration_factors data) /\
      Forall (fun r => r <> []) mic_recordings)).
Proof.
  unfold apply_calibration_folder.
  destruct (calibration_data self) as [data|].
  2:{ split; [intros (out & H); discriminate | intros (data & H & _); discriminate]. }
  rewrite for_each_returns_iff.
  split.
  - intros H. exists data. split; [reflexivity|].
    destruct mic_recordings as [|r0 rest]; [now left | right].
    assert (Hall : forall i r, nth_error (r0 :: rest) i = Some r ->
              1 <= length (frequency_bins data) /\
              i < length (calibration_factors data) /\ r <> []).
    { intros i r Hi. apply folder_body_returns_iff. apply H.
      eapply nth_error_In. apply enumerate_nth. exact Hi. }
    split; [exact (proj1 (Hall 0 r0 eq_refl))|]. split.
    + destruct (nth_error (r0 :: rest) (length rest)) as [r|] eqn:Hlast.
      * destruct (Hall _ _ Hlast) as (_ & Hlt & _). simpl. lia.
      * apply nth_error_None in Hlast. simpl in Hlast. lia.
    + apply Forall_forall. intros r Hin.
      destruct (In_nth_error _ _ Hin) as (i & Hi).
      exact (proj2 (proj2 (Hall i r Hi))).
  - intros (data' & [= <-] & [->|(Hbins & Hlen & Hne)]); [intros a []|].
    intros (i & r) Hin. apply enumerate_in in Hin.
    apply folder_body_returns_iff.
    assert (i < length mic_recordings) by (apply nth_error_Some; congruence).
    rewrite Forall_forall in Hne.
    repeat split; [exact Hbins | lia | apply Hne; eapply nth_error_In; eauto].
Qed.

(** X6 -- More recordings than the table has rows: when the table has a bin and no
    recording is empty, the recordings that have a row are corrected and the
    first one without a row makes the call raise [IndexError]; nothing is
    returned. *)
Theorem apply_calibration_folder_too_many_recordings (self : MicrophoneCalibrator)
    (data : table R) (mic_recordings : list (list R)) (sample_rate : Z) :
  calibration_data self = Some data ->
  1 <= length (frequency_bins data) ->
  Forall (fun r => r <> []) mic_recordings ->
  length (calibration_factors data) < length mic_recordings ->
  apply_calibration_folder self mic_recordings sample_rate = Err IndexError.
Proof.
  intros Hdata Hbins Hne Hlen.
  rewrite (@apply_calibration_folder_unfold self data _ _ Hdata).
  set (n := length (calibration_factors data)) in *.
  assert (Hsplit : mic_recordings = firstn n mic_recordings ++ skipn n mic_recordings)
    by (symmetry; apply firstn_skipn).
  assert (Hpre : length (firstn n mic_recordings) = n) by (rewrite length_firstn; lia).
  destruct (skipn n mic_recordings) as [|a post] eqn:Hskip.
  { apply (f_equal (@length _)) in Hskip. rewrite length_skipn in Hskip.
    simpl in Hskip. lia. }
  rewrite Hsplit in Hne |- *.
  rewrite enumerate_app_cons.
  apply Forall_app in Hne as [Hne_pre Hne_post].
  apply for_each_first_err.
  - intros (i & r) Hin. apply enumerate_in in Hin.
    apply folder_body_returns_iff.
    assert (i < length (firstn n mic_recordings)) by (apply nth_error_Some; congruence).
    rewrite Forall_forall in Hne_pre.
    repeat split; [exact Hbins | fold n; lia | apply Hne_pre; eapply nth_error_In; eauto].
  - rewrite folder_body_outcome.
    destruct (Nat.eqb_spec (length (frequency_bins data)) 0); [lia|].
    destruct (nth_error (calibration_factors data) (length (firstn n mic_recordings)))
      eqn:Hrow; [|reflexivity].
    assert (length (firstn n mic_recordings) < length (calibration_factors data))
      by (apply nth_error_Some; congruence).
    fold n in H. lia.
Qed.

Lemma apply_calibration_folder_too_many_recordings_witness :
  apply_calibration_folder example_self [[1; 2]; [3; 4]; [5; 6]]%R 48000 = Err IndexError.
Proof.
  apply (apply_calibration_folder_too_many_recordings example_self example_table).
  - reflexivity.
  - simpl. lia.
  - repeat constructor; discriminate.
  - simpl. lia.
Defined.

(** X7 -- What [apply_calibration_folder] returns has the shape of what it is
    given: one corrected recording per recording, each with as many samples
    as the recording it comes from. *)
Theorem apply_calibration_folder_preserves_shape (self : MicrophoneCalibrator)
    (mic_recordings : list (list R)) (sample_rate : Z) (out : list (list R)) :
  apply_calibration_folder self mic_recordings sample_rate = Ok out ->
  length out = length mic_recordings /\
  forall i mic_response corrected,
    nth_error mic_recordings i = Some mic_response ->
    nth_error out i = Some corrected ->
    length corrected = length mic_response.
Proof.
  unfold apply_calibration_folder.
  destruct (calibration_data self) as [data|]; [|discriminate].
  intros H. split.
  - rewrite (@for_each_length _ _ _ _ _ H). apply length_enumerate.
  - intros i mic corrected Hi Ho.
    destruct (@for_each_nth _ _ _ _ _ H _ _ (@enumerate_nth _ _ _ _ Hi)) as (b & Hb & Hbn).
    replace corrected with b by congruence.
    rewrite folder_body_outcome in Hb.
    destruct (length (frequency_bins data) =? 0); [discriminate|].
    destruct (nth_error (calibration_factors data) i) as [row|]; [|discriminate].
    exact (@correction_core_length _ _ _ _ Hb).
Qed.

Lemma apply_calibration_folder_preserves_shape_witness :
  exists out,
    apply_calibration_folder example_self [[7; 8; 9]; [1; 3; 5; 7]]%R 48000 = Ok out /\
    length out = 2.
Proof.
  destruct (@apply_calibration_folder_total example_self example_table
              [[7; 8; 9]; [1; 3; 5; 7]]%R 48000) as (out & Hout).
  - reflexivity.
  - simpl. lia.
  - simpl. lia.
  - repeat constructor; discriminate.
  - exists out. split; [exact Hout|].
    exact (proj1 (apply_calibration_folder_preserves_shape _ _ _ _ Hout)).
Defined.

(** ** What the correction does to a recording of odd length *)

Section OddLengthCorrection.
Local Open Scope R_scope.



(** X8 -- Each recording of [2 * h + 1] samples that [apply_calibration_folder]
    corrects with a table of [h + 1] bins has every magnitude multiplied by
    the absolute value of the factor of that bin. *)
Theorem apply_calibration_folder_scales_magnitudes (self : MicrophoneCalibrator)
    (data : table R) (mic_recordings : list (list R)) (sample_rate : Z)
    (out : list (list R)) (h i : nat) (mic_response row : list R) :
  calibration_data self = Some data ->
  length (frequency_bins data) = (h + 1)%nat ->
  apply_calibration_folder self mic_recordings sample_rate = Ok out ->
  nth_error mic_recordings i = Some mic_response ->
  length mic_response = (2 * h + 1)%nat ->
  nth_error (calibration_factors data) i = Some row ->
  length row = (h + 1)%nat ->
  exists corrected,
    nth_error out i = Some corrected /\
    forall k, (k <= h)%nat ->
      magnitude (2 * h + 1) corrected k =
      Rabs (nth k row 0) * magnitude (2 * h + 1) mic_response k.
Proof.
  intros Hdata Hbins Hout Hmic Hlen Hrow Hrowlen.
  rewrite (@apply_calibration_folder_unfold self data _ _ Hdata) in Hout.
  destruct (@for_each_nth _ _ _ _ _ Hout _ _ (@enumerate_nth _ _ _ _ Hmic))
    as (corrected & Hrun & Hnth).
  exists corrected. split; [exact Hnth|].
  rewrite (@folder_body_row data i mic_response row Hrow), Hbins in Hrun.
  destruct (correction_core_odd h row mic_response Hlen Hrowlen) as (c & Hc & Hmag).
  replace corrected with c by congruence. exact Hmag.
Qed.

Lemma apply_calibration_folder_scales_magnitudes_witness :
  exists out corrected,
    apply_calibration_folder example_self [[7; 8; 9]; [1; 3; 5]] 48000 = Ok out /\
    nth_error out 1 = Some corrected /\
    forall k, (k <= 1)%nat ->
      magnitude 3 corrected k = Rabs (nth k [2; 2] 0) * magnitude 3 [1; 3; 5] k.
Proof.
  destruct (@apply_calibration_folder_total example_self example_table
              [[7; 8; 9]; [1; 3; 5]] 48000) as (out & Hout).
  - reflexivity.
  - simpl. lia.
  - simpl. lia.
  - repeat constructor; discriminate.
  - destruct (apply_calibration_folder_scales_magnitudes example_self example_table
                [[7; 8; 9]; [1; 3; 5]] 48000 out 1 1 [1; 3; 5] [2; 2])
      as (corrected & Hc & Hmag); try reflexivity.
    + exact Hout.
    + exists out, corrected. auto.
Defined.


End OddLengthCorrection.

(** ** [apply_calibration_file]: when it returns, and the entry without a number *)

Lemma calibrate_channel_returns_iff (data : table R) (ncols : nat) (rows : list (list R))
      (idx : nat) (channel_name : string) (info : mic_info) :
  (exists corrected,
     calibrate_channel data ncols rows (idx, (channel_name, info)) = Ok corrected) <->
  entry_in_range (length (calibration_factors data)) info = true /\
  idx < ncols /\ rows <> [] /\ 1 <= length (frequency_bins data).
Proof.
  split.
  - intros (corrected & H).
    destruct (@calibrate_channel_ok_inv data ncols rows idx channel_name info corrected H)
      as (x & row & signal & Hx & Hrange & _ & Hcol & Hcore).
    assert (Hcc : 1 <= length (frequency_bins data) /\ signal <> [])
      by (apply (correction_core_returns_iff _ row signal); eauto).
    split.
    { unfold entry_in_range. rewrite Hx. apply andb_true_iff. split; apply Z.leb_le; lia. }
    split.
    { unfold column in Hcol. destruct (Nat.ltb_spec idx ncols); [assumption | discriminate]. }
    split; [|tauto].
    intros ->. apply (@column_length ncols [] idx signal) in Hcol.
    destruct signal; [tauto | discriminate].
  - intros (Hin & Hidx & Hrows & Hbins). now apply calibrate_channel_total.
Qed.

(** X12 -- [apply_calibration_file] returns exactly when a table is loaded, the
    recording is a two-dimensional array, the dictionary is a dictionary with
    one entry per column of the array and, unless the dictionary is empty,
    the array has a sample, the table has a frequency bin and every entry
    carries a microphone number whose truncation names a row of the table. *)
Theorem apply_calibration_file_returns_iff (self : MicrophoneCalibrator)
    (mic_recordings : recordings) (sample_rate : Z) (mic_dict : mic_dict_arg) :
  (exists out, apply_calibration_file self mic_recordings sample_rate mic_dict = Ok out) <->
  exists data ncols rows items,
    calibration_data self = Some data /\
    mic_recordings = AsArray (Arr2 ncols rows) /\
    mic_dict = Dict items /\
    ncols = length items /\
    (items = [] \/
     (rows <> [] /\ 1 <= length (frequency_bins data) /\
      forallb (fun it => entry_in_range (length (calibration_factors data)) (snd it)) items
        = true)).
Proof.
  split.
  - intros (out & H).
    destruct (@apply_calibration_file_accepts self mic_recordings sample_rate mic_dict out H)
      as (data & ncols & rows & items & calibrated & Hdata & -> & -> & Hn & Hloop & _).
    exists data, ncols, rows, items. repeat split; try assumption.
    destruct items as [|(name0 & info0) rest]; [now left | right].
    assert (Hall : forall i name info,
              nth_error ((name0, info0) :: rest) i = Some (name, info) ->
              entry_in_range (length (calibration_factors data)) info = true /\
              i < ncols /\ rows <> [] /\ 1 <= length (frequency_bins data)).
    { intros i name info Hi.
      apply (calibrate_channel_returns_iff data ncols rows i name info).
      destruct (@for_each_nth _ _ _ _ _ Hloop _ _ (@enumerate_nth _ _ _ _ Hi))
        as (b & Hb & _). eauto. }
    destruct (Hall 0 name0 info0 eq_refl) as (_ & _ & Hrows & Hbins).
    repeat split; try assumption.
    apply forallb_forall. intros (name & info) Hin.
    destruct (In_nth_error _ _ Hin) as (i & Hi).
    exact (proj1 (Hall i name info Hi)).
  - intros (data & ncols & rows & items & Hdata & -> & -> & -> & Hitems).
    destruct Hitems as [->|(Hrows & Hbins & Hentries)].
    + rewrite (@apply_calibration_file_unfold self data _ _ _ _ Hdata). cbn. eauto.
    + now apply (@apply_calibration_file_total self data rows sample_rate items).
Qed.

(** X13 -- An entry of the dictionary without a microphone number: when the entries
    before it are accepted, the call raises the [ValueError] that names the
    channel of that entry, whatever the entries after it hold. *)
Theorem apply_calibration_file_missing_mic_number (self : MicrophoneCalibrator)
    (data : table R) (rows : list (list R)) (sample_rate : Z)
    (pre post : list (string * mic_info)) (channel_name : string) (info : mic_info) :
  calibration_data self = Some data ->
  mic_number info = None ->
  forallb (fun it => entry_in_range (length (calibration_factors data)) (snd it)) pre
    = true ->
  pre = [] \/ (rows <> [] /\ 1 <= length (frequency_bins data)) ->
  apply_calibration_file self
    (AsArray (Arr2 (length (pre ++ (channel_name, info) :: post)) rows)) sample_rate
    (Dict (pre ++ (channel_name, info) :: post)) = Err (MissingField channel_name).
Proof.
  intros Hdata Hmissing Hpre Hreach.
  rewrite (@apply_calibration_file_unfold self data _ _ _ _ Hdata).
  rewrite Nat.eqb_refl. cbn [negb].
  rewrite enumerate_app_cons.
  rewrite (@for_each_first_err _ _ (calibrate_channel data _ rows) _ _ _
             (MissingField channel_name)); [reflexivity | |].
  - intros (idx & nm & inf) Hin.
    apply enumerate_in in Hin.
    assert (Hidx : idx < length pre) by (apply nth_error_Some; congruence).
    destruct Hreach as [->|[Hrows Hbins]]; [simpl in Hidx; lia|].
    apply calibrate_channel_total; auto.
    + rewrite length_app. lia.
    + rewrite forallb_forall in Hpre.
      apply (Hpre (nm, inf)). eapply nth_error_In; eauto.
  - unfold calibrate_channel. now rewrite Hmissing.
Qed.

Lemma apply_calibration_file_missing_mic_number_witness :
  apply_calibration_file example_self (AsArray (Arr2 2 example_recording)) 48000
    (Dict ([("channel_1"%string, MicInfo (Some (inject_Z 2)) None)] ++
           ("channel_2"%string, MicInfo None (Some (0, 0, 0)%Q)) :: []))
  = Err (MissingField "channel_2").
Proof.
  apply (apply_calibration_file_missing_mic_number example_self example_table
           example_recording 48000
           [("channel_1"%string, MicInfo (Some (inject_Z 2)) None)] []
           "channel_2"%string (MicInfo None (Some (0, 0, 0)%Q))).
  - reflexivity.
  - reflexivity.
  - reflexivity.
  - right. split; [discriminate | simpl; lia].
Defined.

(** ** The reference microphone under self-correction *)



(** ** White space around the document *)

Section WhiteSpace.
Variable F : Type.
Variable codec : float_codec F.
Hypothesis codec_ok : codec_faithful codec.

Lemma skip_ws_prefix (ws s : text) :
  forallb is_ws ws = true -> skip_ws (ws ++ s) = skip_ws s.
Proof.
  induction ws as [|c ws IH]; cbn [forallb app]; [reflexivity|].
  intros H. apply andb_true_iff in H as [Hc Hws].
  cbn [skip_ws]. rewrite Hc. now apply IH.
Qed.

Lemma skip_ws_all (ws : text) : forallb is_ws ws = true -> skip_ws ws = [].
Proof.
  intros H. rewrite <- (app_nil_r ws), (skip_ws_prefix ws [] H). reflexivity.
Qed.

Lemma delimited_white_space (ws : text) : forallb is_ws ws = true -> delimited ws = true.
Proof.
  destruct ws as [|c ws]; cbn [forallb delimited]; [reflexivity|].
  intros H. apply andb_true_iff in H as [Hc _].
  unfold is_delimiter. rewrite Hc. now rewrite !orb_true_r.
Qed.

(** X14 -- A calibration file in which white space (spaces, tabs, line ends)
    stands before and after the document that [save_calibration] writes
    loads as that document: a file that an editor has closed with a line end
    is read like the one written. *)
Theorem load_calibration_ignores_white_space (t : table F) (filepath : string)
    (fs : filesystem) (before after : text) :
  table_finite codec t = true ->
  forallb is_ws before = true ->
  forallb is_ws after = true ->
  fs filepath = Some (before ++ encode codec (document (Some t)) ++ after) ->
  load_calibration codec filepath fs = Ok (document (Some t)).
Proof.
  intros Ht Hbefore Hafter Hfile.
  pose proof (document_finite F codec t Ht) as Hv.
  unfold load_calibration. rewrite Hfile. unfold decode.
  rewrite (skip_ws_prefix before _ Hbefore).
  rewrite (skip_ws_encode F codec codec_ok _ after Hv).
  rewrite (parse_encode F codec codec_ok (document (Some t)) Hv _ after).
  - now rewrite (skip_ws_all after Hafter).
  - pose proof (json_size_le_length F codec codec_ok _ Hv).
    rewrite !length_app. lia.
  - now apply delimited_white_space.
Qed.
End WhiteSpace.

Lemma load_calibration_ignores_white_space_witness :
  load_calibration sample_codec "calibration_data.json"
    (fun _ => Some (list_ascii_of_string "  " ++
                    encode sample_codec (document (Some sample_table)) ++
                    ["010"%char]))
  = Ok (document (Some sample_table)).
Proof.
  apply (load_calibration_ignores_white_space sample_float sample_codec) with
    (before := list_ascii_of_string "  ") (after := ["010"%char]).
  - intros [] H; try discriminate H; repeat split; (discriminate || reflexivity).
  - reflexivity.
  - reflexivity.
  - reflexivity.
  - reflexivity.
Defined.

(** ** The round trip of a table that holds infinities *)

Section RoundTripWithInfinities.
Variable F : Type.
Variable codec : float_codec F.
Hypothesis codec_ok : codec_faithful codec.
Hypothesis codec_one_infinity : codec_canonical codec.

Lemma encode_head_general (v : json F) :
  json_no_nan codec v = true ->
  exists c tail, encode codec v = c :: tail /\
                 (is_ws c = false /\ Ascii.eqb c "]"%char = false).
Proof.
  destruct v as [x|items|members]; cbn [json_no_nan encode]; intros Hv.
  - unfold floatstr, is_not_nan in *.
    destruct (classify codec x) eqn:Hx; try discriminate.
    + destruct (codec_ok x Hx) as (_ & Hne & Hchars).
      destruct (float_repr codec x) as [|c tail]; [congruence|].
      exists c, tail. split; [reflexivity|].
      cbn [forallb] in Hchars. apply andb_true_iff in Hchars as [Hc _].
      assert (Hstart : value_start c = true)
        by (unfold value_start; rewrite Hc; now rewrite !orb_true_r).
      destruct (value_start_facts c Hstart) as (Hws & Hclose & _). auto.
    + eexists _, _. split; [reflexivity|]. split; reflexivity.
    + eexists _, _. split; [reflexivity|]. split; reflexivity.
  - eexists _, _. split; [reflexivity|]. split; reflexivity.
  - eexists _, _. split; [reflexivity|]. split; reflexivity.
Qed.

Lemma skip_ws_encode_general (v : json F) (rest : text) :
  json_no_nan codec v = true -> skip_ws (encode codec v ++ rest) = encode codec v ++ rest.
Proof.
  intros Hv. destruct (encode_head_general v Hv) as (c & tail & -> & Hws & _).
  now apply skip_ws_not_ws.
Qed.

(** The scanner reads back every float that is not nan: a finite float
    through its decimal rendering, an infinity through its name. *)
Lemma parse_number_general (x : F) (fuel : nat) (rest : text) :
  is_not_nan codec x = true -> delimited rest = true ->
  parse_value codec (S fuel) (floatstr codec x ++ rest) = Some (JNumber x, rest).
Proof.
  intros Hx Hrest. unfold is_not_nan in Hx. unfold floatstr.
  destruct codec_one_infinity as (Hpos & Hneg & Hminus).
  destruct (classify codec x) eqn:Hclass; try discriminate.
  - now apply parse_number.
  - rewrite (Hpos x Hclass). reflexivity.
  - rewrite (Hneg x Hclass).
    cbn [list_ascii_of_string app].
    cbn [parse_value Ascii.eqb Bool.eqb andb span is_number_char].
    rewrite Hminus. reflexivity.
Qed.

Lemma skip_ws_join_general (v : json F) (vs : list (json F)) (rest : text) :
  json_no_nan codec v = true ->
  skip_ws (join item_separator (map (encode codec) (v :: vs)) ++ rest) =
  join item_separator (map (encode codec) (v :: vs)) ++ rest.
Proof.
  intros Hv. cbn [map].
  destruct (join_cons item_separator (encode codec v) (map (encode codec) vs)) as (tail & ->).
  rewrite <- app_assoc. now apply skip_ws_encode_general.
Qed.

Lemma parse_items_encode_general (items : list (json F)) :
  Forall (reads_back codec) items -> forallb (json_no_nan codec) items = true -> items <> [] ->
  forall fuel rest,
    list_sum (map S (map json_size items)) <= fuel ->
    parse_items codec fuel (join item_separator (map (encode codec) items) ++ "]"%char :: rest)
    = Some (items, rest).
Proof.
  induction items as [|v vs IH]; intros Hall Hfin Hne fuel rest Hfuel; [congruence|].
  inversion Hall as [|? ? Pv Hall']; subst.
  cbn [forallb] in Hfin. apply andb_true_iff in Hfin as [Hv Hvs].
  cbn [map list_sum fold_right] in Hfuel.
  destruct fuel as [|fuel]; [lia|].
  rewrite parse_items_unfold.
  destruct vs as [|v2 vs'].
  - cbn [map join].
    rewrite (Pv Hv fuel ("]"%char :: rest)) by (cbn [map list_sum fold_right] in Hfuel; lia || reflexivity).
    reflexivity.
  - change (map (encode codec) (v :: v2 :: vs')) with (encode codec v :: encode codec v2 :: map (encode codec) vs').
    rewrite join_cons_cons, <- !app_assoc.
    change (item_separator ++ ?x) with (","%char :: " "%char :: x).
    rewrite (Pv Hv fuel) by (lia || reflexivity).
    cbn [skip_ws is_ws Ascii.eqb Bool.eqb andb].
    change (encode codec v2 :: map (encode codec) vs') with (map (encode codec) (v2 :: vs')).
    cbn [forallb] in Hvs. apply andb_true_iff in Hvs as [Hv2 Hvs'].
    rewrite skip_ws_join_general by exact Hv2.
    rewrite IH; [reflexivity | exact Hall' | | discriminate | ].
    + cbn [forallb]. now rewrite Hv2, Hvs'.
    + unfold list_sum in *. cbn [map fold_right] in *. lia.
Qed.

Lemma parse_member_step_general (key : text) (v : json F) (fuel : nat) (tail : text) :
  forallb is_plain_char key = true ->
  reads_back codec v -> json_no_nan codec v = true -> json_size v <= fuel ->
  delimited tail = true ->
  parse_members codec (S fuel) (encode_member codec (key, v) ++ tail) =
  match skip_ws tail with
  | [] => None
  | d :: rest4 =>
      if Ascii.eqb d ","%char then
        match parse_members codec fuel (skip_ws rest4) with
        | Some (ms, rest5) => Some ((key, v) :: ms, rest5)
        | None => None
        end
      else if Ascii.eqb d "}"%char then Some ([(key, v)], rest4)
      else None
  end.
Proof.
  intros Hkey Pv Hv Hfuel Htail.
  unfold encode_member. cbn [fst snd app].
  rewrite <- app_assoc. cbn [app]. rewrite <- app_assoc.
  rewrite parse_members_unfold, scan_string_plain by exact Hkey.
  change (key_separator ++ ?x) with (":"%char :: " "%char :: x).
  cbn [skip_ws is_ws Ascii.eqb Bool.eqb andb negb].
  rewrite skip_ws_encode_general by exact Hv.
  rewrite (Pv Hv fuel tail Hfuel Htail).
  reflexivity.
Qed.

Lemma parse_members_encode_general (members : list (text * json F)) :
  Forall (fun m => reads_back codec (snd m)) members ->
  forallb (fun m => forallb is_plain_char (fst m) && json_no_nan codec (snd m)) members = true ->
  members <> [] ->
  forall fuel rest,
    list_sum (map S (map (fun m => json_size (snd m)) members)) <= fuel ->
    parse_members codec fuel
      (join item_separator (map (encode_member codec) members) ++ "}"%char :: rest)
    = Some (members, rest).
Proof.
  induction members as [|[key v] ms IH]; intros Hall Hfin Hne fuel rest Hfuel; [congruence|].
  inversion Hall as [|? ? Pv Hall']; subst. cbn [snd] in Pv.
  cbn [forallb fst snd] in Hfin. apply andb_true_iff in Hfin as [Hm Hms].
  apply andb_true_iff in Hm as [Hkey Hv].
  unfold list_sum in Hfuel. cbn [map fold_right snd] in Hfuel.
  destruct fuel as [|fuel]; [lia|].
  destruct ms as [|m2 ms'].
  - cbn [map join].
    rewrite parse_member_step_general by (assumption || lia || reflexivity).
    reflexivity.
  - change (map (encode_member codec) ((key, v) :: m2 :: ms'))
      with (encode_member codec (key, v) :: encode_member codec m2 :: map (encode_member codec) ms').
    rewrite join_cons_cons, <- !app_assoc.
    change (item_separator ++ ?x) with (","%char :: " "%char :: x).
    rewrite parse_member_step_general by (assumption || lia || reflexivity).
    cbn [skip_ws is_ws Ascii.eqb Bool.eqb andb].
    destruct (join_cons item_separator (encode_member codec m2) (map (encode_member codec) ms'))
      as (tail & Htail).
    assert (Hskip : forall x, skip_ws (join item_separator
                                         (encode_member codec m2 :: map (encode_member codec) ms') ++ x)
                              = join item_separator
                                  (encode_member codec m2 :: map (encode_member codec) ms') ++ x).
    { intros x. rewrite Htail. reflexivity. }
    rewrite Hskip.
    change (encode_member codec m2 :: map (encode_member codec) ms') with (map (encode_member codec) (m2 :: ms')).
    rewrite IH; [reflexivity | exact Hall' | exact Hms | discriminate | ].
    unfold list_sum. cbn [map fold_right] in *. lia.
Qed.

Lemma parse_encode_general (v : json F) : reads_back codec v.
Proof.
  induction v as [x|items IH|members IH] using json_induction;
    intros Hv fuel rest Hfuel Hrest.
  - cbn [json_size] in Hfuel. destruct fuel as [|fuel]; [lia|].
    cbn [json_no_nan] in Hv. cbn [encode].
    now apply parse_number_general.
  - cbn [json_size json_no_nan] in *. destruct fuel as [|fuel]; [lia|].
    cbn [encode].
    cbn [app]. rewrite parse_value_unfold. cbn [Ascii.eqb Bool.eqb andb].
    rewrite <- app_assoc. cbn [app].
    destruct items as [|v vs].
    + reflexivity.
    + remember (join item_separator (map (encode codec) (v :: vs)) ++ "]"%char :: rest)
        as doc eqn:Hdoc.
      pose proof Hv as Hall.
      cbn [forallb] in Hv. apply andb_true_iff in Hv as [Hv _].
      assert (Hhead : exists c tail, doc = c :: tail /\
                                     (is_ws c = false /\ Ascii.eqb c "]"%char = false)).
      { subst doc. cbn [map].
        destruct (join_cons item_separator (encode codec v) (map (encode codec) vs))
          as (tail' & ->).
        destruct (encode_head_general v Hv) as (c & tail & -> & Hc).
        exists c. eexists. split; [reflexivity | exact Hc]. }
      destruct Hhead as (c & tail & Htail & Hc).
      destruct Hc as (Hws & Hclose).
      rewrite Htail, (skip_ws_not_ws _ _ Hws), Hclose, <- Htail, Hdoc.
      rewrite parse_items_encode_general; [reflexivity | exact IH | exact Hall | discriminate | lia].
  - cbn [json_size json_no_nan] in *. destruct fuel as [|fuel]; [lia|].
    cbn [encode].
    cbn [app]. rewrite parse_value_unfold. cbn [Ascii.eqb Bool.eqb andb].
    rewrite <- app_assoc. cbn [app].
    change (map (fun m => "034"%char :: fst m ++ "034"%char :: key_separator ++ encode codec (snd m))
                members) with (map (encode_member codec) members).
    destruct members as [|m ms].
    + reflexivity.
    + remember (join item_separator (map (encode_member codec) (m :: ms)) ++ "}"%char :: rest)
        as doc eqn:Hdoc.
      assert (Hhead : exists tail, doc = "034"%char :: tail).
      { subst doc. cbn [map].
        destruct (join_cons item_separator (encode_member codec m) (map (encode_member codec) ms))
          as (tail' & ->).
        unfold encode_member at 1. cbn [app]. eexists. reflexivity. }
      destruct Hhead as (tail & Htail).
      rewrite Htail. cbn [skip_ws is_ws Ascii.eqb Bool.eqb andb].
      rewrite <- Htail, Hdoc.
      rewrite parse_members_encode_general; [reflexivity | exact IH | exact Hv | discriminate | lia].
Qed.

Lemma json_size_le_length_general (v : json F) :
  json_no_nan codec v = true -> json_size v <= length (encode codec v).
Proof.
  induction v as [x|items IH|members IH] using json_induction; intros Hv.
  - cbn [json_size json_no_nan] in *.
    destruct (encode_head_general (JNumber x) Hv) as (c & tail & -> & _).
    cbn [length]. lia.
  - cbn [json_size json_no_nan] in *.
    cbn [encode].
    cbn [length]. rewrite length_app. cbn [length].
    assert (H : list_sum (map S (map json_size items))
                <= length (join item_separator (map (encode codec) items)) + 1).
    { apply join_length_lower; [reflexivity|].
      apply Forall2_map_le.
      rewrite forallb_forall in Hv. rewrite Forall_forall in *.
      intros i Hi. apply IH; auto. }
    lia.
  - cbn [json_size json_no_nan] in *.
    cbn [encode].
    cbn [length]. rewrite length_app. cbn [length].
    change (map (fun m => "034"%char :: fst m ++ "034"%char :: key_separator ++ encode codec (snd m))
                members) with (map (encode_member codec) members).
    assert (H : list_sum (map S (map (fun m => json_size (snd m)) members))
                <= length (join item_separator (map (encode_member codec) members)) + 1).
    { apply join_length_lower; [reflexivity|].
      apply Forall2_map_le.
      rewrite forallb_forall in Hv. rewrite Forall_forall in *.
      intros m Hm. specialize (IH m Hm). specialize (Hv m Hm).
      apply andb_true_iff in Hv as [_ Hv]. specialize (IH Hv).
      unfold encode_member. cbn [length]. rewrite length_app. cbn [length].
      rewrite length_app. lia. }
    lia.
Qed.

Lemma decode_encode_general (v : json F) :
  json_no_nan codec v = true ->
  decode codec (encode codec v) = Some v.
Proof.
  intros Hv. unfold decode.
  rewrite <- (app_nil_r (encode codec v)) at 2.
  rewrite skip_ws_encode_general by exact Hv.
  pose proof (parse_encode_general v Hv (S (length (encode codec v))) []) as H.
  rewrite H; [reflexivity | | reflexivity].
  pose proof (json_size_le_length_general v Hv). lia.
Qed.

Lemma document_no_nan (t : table F) :
  table_no_nan codec t = true -> json_no_nan codec (document (Some t)) = true.
Proof.
  unfold table_no_nan. intros H. apply andb_true_iff in H as [Hbins Hrows].
  cbn [document json_no_nan forallb fst snd].
  assert (Hnum : forall l, forallb (is_not_nan codec) l = true ->
                           forallb (json_no_nan codec) (map JNumber l) = true).
  { induction l as [|x l IHl]; cbn [map forallb json_no_nan]; [reflexivity|].
    intros Hl. apply andb_true_iff in Hl as [-> Hl]. now rewrite IHl. }
  rewrite (Hnum _ Hbins).
  assert (Hrow : forallb (json_no_nan codec)
                   (map (fun row => JArray (map JNumber row)) (calibration_factors t))
                 = true).
  { induction (calibration_factors t) as [|row rows IHr]; cbn [map forallb json_no_nan];
      [reflexivity|].
    cbn [forallb] in Hrows. apply andb_true_iff in Hrows as [Hr Hrows].
    now rewrite (Hnum _ Hr), IHr. }
  rewrite Hrow. reflexivity.
Qed.

(** X15 -- Round trip with infinities.  A table none of whose bins and factors is
    nan, an infinite factor being what a zero magnitude leaves in it, is
    written with [Infinity] and [-Infinity] for the infinite floats, and the
    file loads as the dictionary that was saved. *)
Theorem load_save_round_trip_with_infinities (t : table F) (filepath : string)
    (fs : filesystem) :
  table_no_nan codec t = true ->
  load_calibration codec filepath (save_calibration codec (Some t) filepath fs)
  = Ok (document (Some t)).
Proof.
  intros Ht. unfold load_calibration, save_calibration.
  rewrite write_file_read.
  pose proof (decode_encode_general (document (Some t)) (document_no_nan t Ht)) as H.
  now rewrite H.
Qed.
End RoundTripWithInfinities.

Lemma load_save_round_trip_with_infinities_witness :
  load_calibration sample_codec "calibration_data.json"
    (save_calibration sample_codec (Some (Table [f_zero; f_1000_5] [[f_inf; f_half];
                                                                   [f_neg_inf; f_one]]))
                      "calibration_data.json" (fun _ => None))
  = Ok (document (Some (Table [f_zero; f_1000_5] [[f_inf; f_half]; [f_neg_inf; f_one]]))).
Proof.
  apply (load_save_round_trip_with_infinities sample_float sample_codec).
  - intros [] H; try discriminate H; repeat split; (discriminate || reflexivity).
  - repeat split.
    + intros [] H; try discriminate H; reflexivity.
    + intros [] H; try discriminate H; reflexivity.
  - reflexivity.
Defined.
(** ** [normalize_audio] *)

Section Normalisation.
Local Open Scope R_scope.

Lemma fold_max_ge_init (l : list R) (x : R) : x <= fold_left Rmax l x.
Proof.
  revert x; induction l as [|y l IH]; intros x; cbn [fold_left]; [lra|].
  eapply Rle_trans; [apply (Rmax_l x y) | apply IH].
Qed.

Lemma fold_max_ge (l : list R) (x y : R) : In y l -> y <= fold_left Rmax l x.
Proof.
  revert x; induction l as [|z l IH]; intros x Hin; [contradiction|].
  cbn [fold_left]. destruct Hin as [->|Hin].
  - eapply Rle_trans; [apply (Rmax_r x y) | apply fold_max_ge_init].
  - now apply IH.
Qed.

Lemma fold_max_attained (l : list R) (x : R) :
  fold_left Rmax l x = x \/ In (fold_left Rmax l x) l.
Proof.
  revert x; induction l as [|z l IH]; intros x; cbn [fold_left]; [now left|].
  destruct (IH (Rmax x z)) as [H|H].
  - rewrite H. unfold Rmax. destruct (Rle_dec x z); [right; now left | now left].
  - right. now right.
Qed.

(** [np.max] returns the greatest element. *)
Lemma np_max_spec (l : list R) (p : R) :
  np_max l = Returns p <-> In p l /\ forall y, In y l -> y <= p.
Proof.
  destruct l as [|x l]; cbn [np_max].
  - split; [discriminate | intros [[] _]].
  - split.
    + intros [= <-]. split.
      * destruct (fold_max_attained l x) as [H|H]; [left; now rewrite H | now right].
      * intros y [<-|Hy]; [apply fold_max_ge_init | now apply fold_max_ge].
    + intros [Hin Hmax]. f_equal. apply Rle_antisym.
      * destruct (fold_max_attained l x) as [H|H];
          [rewrite H; apply Hmax; now left | apply Hmax; now right].
      * destruct Hin as [<-|Hin]; [apply fold_max_ge_init | now apply fold_max_ge].
Qed.

Lemma np_max_returns (l : list R) : l <> [] -> exists p, np_max l = Returns p.
Proof. destruct l; [congruence | cbn; eauto]. Qed.

Lemma np_abs_int_zero (dt : dtype) : np_abs_int dt 0 = 0%Z.
Proof. unfold np_abs_int. destruct (0 =? int_min dt)%Z; reflexivity. Qed.

Lemma elements_map_array {A B : Type} (f : A -> B) (a : ndarray A) :
  elements (map_array f a) = map f (elements a).
Proof.
  destruct a as [l|ncols rows]; cbn [map_array elements]; [reflexivity|].
  now rewrite concat_map.
Qed.

(** Without wrap-around [np.abs] is the absolute value. *)
Lemma no_wrap_abs (data : audio) :
  no_wrap data = true -> np_abs data = map_array Rabs (values data).
Proof.
  destruct data as [dt a|a]; cbn [no_wrap np_abs values]; [|reflexivity].
  intros H.
  assert (Hz : forall z, In z (elements a) -> IZR (np_abs_int dt z) = Rabs (IZR z)).
  { intros z Hin. rewrite forallb_forall in H. specialize (H z Hin).
    rewrite <- abs_IZR. f_equal. unfold np_abs_int.
    destruct (Z.eqb_spec z (int_min dt)) as [Heq|Hne]; [|reflexivity].
    cbn [negb orb] in H. apply Z.leb_le in H. symmetry. now apply Z.abs_eq. }
  destruct a as [l|ncols rows]; cbn [map_array elements] in *.
  - f_equal. rewrite map_map. apply map_ext_in. exact Hz.
  - f_equal. rewrite map_map. apply map_ext_in. intros row Hrow.
    rewrite map_map. apply map_ext_in. intros z Hin. apply Hz.
    apply in_concat. eauto.
Qed.

Lemma normalize_channel_returns_iff (channel : audio) :
  (exists out, normalize_channel channel = Returns out) <-> is_channel channel = true.
Proof.
  unfold normalize_channel, is_channel.
  destruct channel as [dt [l|n rows]|[l|n rows]]; cbn [values np_abs map_array];
    try (split; [intros (out & H); discriminate | discriminate]).
  - destruct l as [|z l]; cbn [map np_max and_then].
    + split; [intros (out & H); discriminate | discriminate].
    + split; [reflexivity|]. intros _. destruct (Req_dec_T _ 0); eauto.
  - destruct l as [|x l]; cbn [map np_max and_then].
    + split; [intros (out & H); discriminate | discriminate].
    + split; [reflexivity|]. intros _. destruct (Req_dec_T _ 0); eauto.
Qed.

Lemma normalize_audio_nth (data out : list audio) :
  normalize_audio data = Returns out ->
  length out = length data /\
  forall i channel, nth_error data i = Some channel ->
    exists normalized, normalize_channel channel = Returns normalized /\
                       nth_error out i = Some normalized.
Proof.
  revert out; induction data as [|c data IH]; intros out H; cbn [normalize_audio] in H.
  - injection H as <-. split; [reflexivity|]. intros [|i] ch Hi; discriminate.
  - destruct (normalize_channel c) as [nc|e] eqn:Hc; cbn [and_then] in H; [|discriminate].
    destruct (normalize_audio data) as [nd|e] eqn:Hd; cbn [and_then] in H; [|discriminate].
    injection H as <-. destruct (IH nd eq_refl) as (Hlen & Hnth).
    split; [cbn; now rewrite Hlen|].
    intros [|i] ch Hi; cbn [nth_error] in *.
    + injection Hi as <-. eauto.
    + now apply Hnth.
Qed.

(** X16 -- [normalize_audio] returns exactly when every channel is a
    one-dimensional array with at least one sample. *)
Theorem normalize_audio_returns_iff (data : list audio) :
  (exists out, normalize_audio data = Returns out) <->
  forallb is_channel data = true.
Proof.
  induction data as [|c data IH]; cbn [normalize_audio forallb].
  - split; eauto.
  - rewrite andb_true_iff, <- IH, <- normalize_channel_returns_iff.
    split.
    + intros (out & H).
      destruct (normalize_channel c) as [nc|e]; cbn [and_then] in H; [|discriminate].
      destruct (normalize_audio data) as [nd|e]; cbn [and_then] in H; [|discriminate].
      eauto.
    + intros [(nc & ->) (nd & ->)]. cbn [and_then]. eauto.
Qed.

(** X17 -- The first channel that is not accepted decides the exception: the
    [ValueError] of the function for an array of two dimensions, the
    [ValueError] of [np.max] for a one-dimensional array without sample.
    The channels after it are not looked at. *)
Theorem normalize_audio_first_rejected (pre post : list audio) (channel : audio) :
  forallb is_channel pre = true ->
  is_channel channel = false ->
  normalize_audio (pre ++ channel :: post) =
  Raises (match values channel with
          | Arr1 _ => ZeroSizeReduction
          | Arr2 _ _ => NotOneDimensional
          end).
Proof.
  intros Hpre Hc. induction pre as [|c pre IH]; cbn [app normalize_audio].
  - unfold normalize_channel, is_channel in *.
    destruct channel as [dt [l|n rows]|[l|n rows]]; cbn [values np_abs map_array] in *;
      try reflexivity; destruct l; try discriminate; reflexivity.
  - cbn [forallb] in Hpre. apply andb_true_iff in Hpre as [Hc0 Hpre].
    apply normalize_channel_returns_iff in Hc0 as (nc & ->). cbn [and_then].
    now rewrite (IH Hpre).
Qed.

Lemma normalize_audio_first_rejected_witness :
  normalize_audio ([FloatAudio (Arr1 [1; -2])] ++
                   IntAudio int16 (Arr2 2 [[1; 2]; [3; 4]]%Z) :: [FloatAudio (Arr1 [])])
  = Raises NotOneDimensional.
Proof.
  apply (normalize_audio_first_rejected [FloatAudio (Arr1 [1; -2])]
           [FloatAudio (Arr1 [])] (IntAudio int16 (Arr2 2 [[1; 2]; [3; 4]]%Z)));
    reflexivity.
Defined.
End Normalisation.

Section PeakNormalisation.
Local Open Scope R_scope.

(** The peak of a list of numbers: the greatest absolute value. *)
Lemma peak_facts (samples : list R) (peak : R) :
  np_max (map Rabs samples) = Returns peak ->
  0 <= peak /\
  (forall s, In s samples -> Rabs s <= peak) /\
  (exists s, In s samples /\ Rabs s = peak) /\
  (peak = 0 <-> Forall (fun s => s = 0) samples).
Proof.
  intros H. apply np_max_spec in H as [Hin Hmax].
  apply in_map_iff in Hin as (s0 & Hs0 & Hin0).
  assert (Hle : forall s, In s samples -> Rabs s <= peak)
    by (intros s Hs; apply Hmax; now apply in_map).
  split; [rewrite <- Hs0; apply Rabs_pos|].
  split; [exact Hle|].
  split; [eauto|].
  split.
  - intros Hz. apply Forall_forall. intros s Hs.
    specialize (Hle s Hs). rewrite Hz in Hle.
    pose proof (Rabs_pos s).
    destruct (Req_dec s 0) as [|Hne]; [assumption|].
    apply Rabs_pos_lt in Hne. lra.
  - intros Hall. rewrite Forall_forall in Hall.
    rewrite <- Hs0, (Hall s0 Hin0). apply Rabs_R0.
Qed.

Lemma normalize_channel_exact (channel : audio) (samples : list R) :
  no_wrap channel = true ->
  values channel = Arr1 samples ->
  normalize_channel channel =
  and_then (np_max (map Rabs samples)) (fun peak =>
    if Req_dec_T peak 0 then Returns channel
    else Returns (FloatAudio (Arr1 (map (fun x => x / peak) samples)))).
Proof.
  intros Hw Hv. unfold normalize_channel.
  rewrite (no_wrap_abs channel Hw), Hv. reflexivity.
Qed.

Lemma divided_by_peak (samples : list R) (peak : R) :
  np_max (map Rabs samples) = Returns peak ->
  peak <> 0 ->
  Forall (fun s => -1 <= s <= 1) (map (fun x => x / peak) samples) /\
  Exists (fun s => Rabs s = 1) (map (fun x => x / peak) samples).
Proof.
  intros Hpeak Hnz.
  destruct (peak_facts samples peak Hpeak) as (Hpos & Hle & (s0 & Hin0 & Hs0) & _).
  assert (Hp : 0 < peak) by lra.
  split.
  - apply Forall_forall. intros y Hy.
    apply in_map_iff in Hy as (s & <- & Hs).
    specialize (Hle s Hs).
    assert (Hb : - peak <= s <= peak) by (unfold Rabs in Hle; destruct (Rcase_abs s); lra).
    clear Hle.
    split.
    + apply Rmult_le_reg_r with (r := peak); [exact Hp|].
      unfold Rdiv. rewrite Rmult_assoc, Rinv_l by exact Hnz. lra.
    + apply Rmult_le_reg_r with (r := peak); [exact Hp|].
      unfold Rdiv. rewrite Rmult_assoc, Rinv_l by exact Hnz. lra.
  - apply Exists_exists. exists (s0 / peak). split.
    + apply in_map_iff. eauto.
    + unfold Rdiv. rewrite Rabs_mult, Hs0, Rabs_inv, (Rabs_pos_eq peak) by lra.
      now apply Rinv_r.
Qed.

(** X18 -- Peak normalisation.  A channel without wrap-around (floats, or integers
    none of which is the most negative value of its signed type) either
    holds zeros only and is returned as it is, or is returned as floats that
    all lie between -1 and 1, one of them at least being -1 or 1. *)
Theorem normalize_audio_peak (data out : list audio) (i : nat) (channel : audio)
    (samples : list R) :
  normalize_audio data = Returns out ->
  nth_error data i = Some channel ->
  no_wrap channel = true ->
  values channel = Arr1 samples ->
  (Forall (fun s => s = 0) samples /\ nth_error out i = Some channel) \/
  (exists normalized,
     nth_error out i = Some (FloatAudio (Arr1 normalized)) /\
     length normalized = length samples /\
     Forall (fun s => -1 <= s <= 1) normalized /\
     Exists (fun s => Rabs s = 1) normalized).
Proof.
  intros Hrun Hi Hw Hv.
  destruct (normalize_audio_nth data out Hrun) as (_ & Hnth).
  destruct (Hnth i channel Hi) as (nc & Hnc & Hout).
  rewrite (normalize_channel_exact channel samples Hw Hv) in Hnc.
  destruct (np_max (map Rabs samples)) as [peak|e] eqn:Hpeak; cbn [and_then] in Hnc;
    [|discriminate].
  destruct (Req_dec_T peak 0) as [Hz|Hnz].
  - left. split; [now apply (peak_facts samples peak Hpeak) | congruence].
  - right. exists (map (fun x => x / peak) samples).
    split; [congruence|]. split; [apply length_map|].
    now apply divided_by_peak.
Qed.

Lemma normalize_audio_peak_witness :
  (Forall (fun s => s = 0) [3; -4] /\
   nth_error [FloatAudio (Arr1 [3 / 4; -4 / 4])] 0 = Some (FloatAudio (Arr1 [3; -4]))) \/
  (exists normalized,
     nth_error [FloatAudio (Arr1 [3 / 4; -4 / 4])] 0 = Some (FloatAudio (Arr1 normalized)) /\
     length normalized = length [3; -4] /\
     Forall (fun s => -1 <= s <= 1) normalized /\
     Exists (fun s => Rabs s = 1) normalized).
Proof.
  apply (normalize_audio_peak [FloatAudio (Arr1 [3; -4])] [FloatAudio (Arr1 [3 / 4; -4 / 4])]
           0%nat (FloatAudio (Arr1 [3; -4])) [3; -4]); try reflexivity.
  cbn [normalize_audio]. unfold normalize_channel.
  cbn [values np_abs map_array map np_max fold_left and_then].
  replace (Rmax (Rabs 3) (Rabs (-4))) with 4.
  - destruct (Req_dec_T 4 0); [lra | reflexivity].
  - rewrite Rabs_pos_eq, Rabs_left by lra. unfold Rmax.
    destruct (Rle_dec 3 (- -4)); lra.
Defined.

Lemma normalize_channel_idempotent (channel normalized : audio) :
  no_wrap channel = true ->
  normalize_channel channel = Returns normalized ->
  normalize_channel normalized = Returns normalized.
Proof.
  intros Hw Hrun.
  assert (Hshape : exists samples, values channel = Arr1 samples).
  { assert (Hc : is_channel channel = true)
      by (apply normalize_channel_returns_iff; eauto).
    unfold is_channel in Hc. destruct (values channel) as [l|]; [eauto | discriminate]. }
  destruct Hshape as (samples & Hv).
  pose proof Hrun as Hrun'.
  rewrite (normalize_channel_exact channel samples Hw Hv) in Hrun'.
  destruct (np_max (map Rabs samples)) as [peak|e] eqn:Hpeak; cbn [and_then] in Hrun';
    [|discriminate].
  destruct (Req_dec_T peak 0) as [Hz|Hnz].
  - congruence.
  - injection Hrun' as <-.
    destruct (divided_by_peak samples peak Hpeak Hnz) as (Hrange & Hone).
    rewrite (normalize_channel_exact _ (map (fun x => x / peak) samples));
      [|reflexivity|reflexivity].
    assert (H1 : np_max (map Rabs (map (fun x => x / peak) samples)) = Returns 1).
    { apply np_max_spec. split.
      - apply Exists_exists in Hone as (s & Hs & Habs).
        rewrite <- Habs. now apply in_map.
      - intros y Hy. apply in_map_iff in Hy as (s & <- & Hs).
        rewrite Forall_forall in Hrange. specialize (Hrange s Hs).
        apply Rabs_le. lra. }
    rewrite H1. cbn [and_then].
    destruct (Req_dec_T 1 0); [lra|].
    do 3 f_equal. rewrite <- (map_id (map _ samples)) at 2.
    apply map_ext. intros s. field.
Qed.

(** X19 -- Normalising twice is normalising once, on channels without
    wrap-around. *)
Theorem normalize_audio_idempotent (data out : list audio) :
  normalize_audio data = Returns out ->
  forallb no_wrap data = true ->
  normalize_audio out = Returns out.
Proof.
  revert out; induction data as [|c data IH]; intros out H Hw; cbn [normalize_audio] in H.
  - now injection H as <-.
  - destruct (normalize_channel c) as [nc|e] eqn:Hc; cbn [and_then] in H; [|discriminate].
    destruct (normalize_audio data) as [nd|e] eqn:Hd; cbn [and_then] in H; [|discriminate].
    injection H as <-.
    cbn [forallb] in Hw. apply andb_true_iff in Hw as [Hwc Hw].
    cbn [normalize_audio].
    rewrite (normalize_channel_idempotent c nc Hwc Hc). cbn [and_then].
    now rewrite (IH nd eq_refl Hw).
Qed.

Lemma normalize_audio_idempotent_witness :
  normalize_audio [FloatAudio (Arr1 [3; -4])]
    = Returns [FloatAudio (Arr1 [3 / 4; -4 / 4])] /\
  normalize_audio [FloatAudio (Arr1 [3 / 4; -4 / 4])]
    = Returns [FloatAudio (Arr1 [3 / 4; -4 / 4])].
Proof.
  assert (Hrun : normalize_audio [FloatAudio (Arr1 [3; -4])]
                 = Returns [FloatAudio (Arr1 [3 / 4; -4 / 4])]).
  { cbn [normalize_audio]. unfold normalize_channel.
    cbn [values np_abs map_array map np_max fold_left and_then].
    replace (Rmax (Rabs 3) (Rabs (-4))) with 4.
    - destruct (Req_dec_T 4 0); [lra | reflexivity].
    - rewrite Rabs_pos_eq, Rabs_left by lra. unfold Rmax.
      destruct (Rle_dec 3 (- -4)); lra. }
  split; [exact Hrun|].
  apply (normalize_audio_idempotent [FloatAudio (Arr1 [3; -4])]
           [FloatAudio (Arr1 [3 / 4; -4 / 4])] Hrun).
  reflexivity.
Defined.

(** X20 -- Wrap-around.  In a channel of 16-bit or 32-bit signed integers
    that holds the most negative value of its type beside another sample
    that is not zero, that value is left out of the peak: the channel is
    returned as floats one of which is below -1.  (Binary64 holds these
    samples exactly and tells the quotient from -1; for 64-bit samples next
    to a peak near [2^63] it does not, and the statement leaves them out.) *)
Theorem normalize_audio_wraps (dt : dtype) (samples : list Z) :
  dt = int16 \/ dt = int32 ->
  Forall (fun z => (int_min dt <= z <= int_max dt)%Z) samples ->
  In (int_min dt) samples ->
  (exists z, In z samples /\ z <> int_min dt /\ z <> 0%Z) ->
  exists normalized,
    normalize_audio [IntAudio dt (Arr1 samples)] = Returns [FloatAudio (Arr1 normalized)] /\
    Exists (fun s => s < -1) normalized.
Proof.
  intros Hdt Hrange Hmin (z0 & Hz0 & Hz0min & Hz0nz).
  rewrite Forall_forall in Hrange.
  assert (Hminneg : (int_min dt < 0)%Z /\ (int_max dt = - int_min dt - 1)%Z)
    by (destruct Hdt as [-> | ->]; split; reflexivity).
  destruct Hminneg as [Hneg Hmaxmin].
  set (magnitudes := map (fun z => IZR (np_abs_int dt z)) samples).
  destruct (np_max_returns magnitudes) as (peak & Hpeak).
  { unfold magnitudes. destruct samples; [contradiction | discriminate]. }
  pose proof Hpeak as Hspec. apply np_max_spec in Hspec as [Hin Hmax].
  assert (Hlow : 1 <= peak).
  { apply Rle_trans with (IZR (np_abs_int dt z0)).
    - apply IZR_le. unfold np_abs_int.
      destruct (Z.eqb_spec z0 (int_min dt)); [contradiction | lia].
    - apply Hmax. unfold magnitudes. now apply (in_map (fun z => IZR (np_abs_int dt z))). }
  assert (Hhigh : peak <= IZR (int_max dt)).
  { unfold magnitudes in Hin. apply in_map_iff in Hin as (z & <- & Hz).
    apply IZR_le. specialize (Hrange z Hz). unfold np_abs_int.
    destruct (Z.eqb_spec z (int_min dt)); lia. }
  assert (Hnz : peak <> 0) by lra.
  exists (map (fun x => x / peak) (map IZR samples)). split.
  - cbn [normalize_audio]. unfold normalize_channel.
    cbn [values np_abs map_array]. fold magnitudes. rewrite Hpeak. cbn [and_then].
    destruct (Req_dec_T peak 0); [contradiction | reflexivity].
  - apply Exists_exists. exists (IZR (int_min dt) / peak). split.
    + apply in_map_iff. exists (IZR (int_min dt)). split; [reflexivity|].
      now apply in_map.
    + assert (Hm : IZR (int_min dt) = - IZR (int_max dt) - 1).
      { rewrite Hmaxmin, minus_IZR, opp_IZR. lra. }
      apply Rmult_lt_reg_r with (r := peak); [lra|].
      unfold Rdiv. rewrite Rmult_assoc, Rinv_l by exact Hnz. lra.
Qed.

Lemma normalize_audio_wraps_witness :
  exists normalized,
    normalize_audio [IntAudio int16 (Arr1 [-32768; 100]%Z)]
      = Returns [FloatAudio (Arr1 normalized)] /\
    Exists (fun s => s < -1) normalized.
Proof.
  apply (normalize_audio_wraps int16 [-32768; 100]%Z).
  - now left.
  - repeat constructor; cbn; lia.
  - now left.
  - exists 100%Z. repeat split; [right; now left | discriminate | discriminate].
Defined.
End PeakNormalisation.

(** ** [load_wav_file] and [load_microphone_recordings] *)

Section Loading.
Local Open Scope R_scope.

Lemma len_map_array {A B : Type} (f : A -> B) (a : ndarray A) :
  len (map_array f a) = len a.
Proof. destruct a; cbn [map_array len]; apply length_map. Qed.

Lemma len_values_abs (data : audio) : len (np_abs data) = len (values data).
Proof. destruct data; cbn [np_abs values]; now rewrite !len_map_array. Qed.

Lemma elements_values_abs_empty (data : audio) :
  elements (np_abs data) = [] <-> elements (values data) = [].
Proof.
  destruct data as [dt a|a]; cbn [np_abs values]; rewrite !elements_map_array;
    destruct (elements a); cbn [map]; split; congruence.
Qed.

(** A quotient by a peak that bounds the dividend. *)
Lemma np_divide_bounded (x peak : R) : Rabs x <= peak -> unit_or_nan (np_divide x peak).
Proof.
  intros H. unfold np_divide, unit_or_nan.
  assert (Hb : - peak <= x <= peak) by (unfold Rabs in H; destruct (Rcase_abs x); lra).
  destruct (Req_dec_T peak 0) as [Hz|Hnz].
  - destruct (Rlt_dec 0 x); [lra|]. destruct (Rlt_dec x 0); [lra|]. now left.
  - right. exists (x / peak). split; [reflexivity|].
    assert (Hp : 0 < peak) by lra.
    split; apply Rmult_le_reg_r with (r := peak); try exact Hp;
      unfold Rdiv; rewrite Rmult_assoc, Rinv_l by exact Hnz; lra.
Qed.

Lemma np_divide_zero : np_divide 0 0 = NotANumber.
Proof.
  unfold np_divide. destruct (Req_dec_T 0 0); [|lra].
  destruct (Rlt_dec 0 0); [lra|]. destruct (Rlt_dec 0 0); [lra | reflexivity].
Qed.

Lemma normalize_by_peak_returns_iff (data : audio) :
  (exists out, normalize_by_peak data = Returns out) <-> elements (values data) <> [].
Proof.
  unfold normalize_by_peak. rewrite <- elements_values_abs_empty.
  destruct (elements (np_abs data)) as [|x l]; cbn [np_max and_then].
  - split; [intros (out & H); discriminate | congruence].
  - split; [discriminate | eauto].
Qed.

Lemma normalize_by_peak_range (data : audio) (out : ndarray npfloat) :
  no_wrap data = true ->
  normalize_by_peak data = Returns out ->
  Forall unit_or_nan (elements out).
Proof.
  intros Hw H. unfold normalize_by_peak in H.
  destruct (np_max (elements (np_abs data))) as [peak|e] eqn:Hpeak; cbn [and_then] in H;
    [|discriminate].
  injection H as <-.
  rewrite (no_wrap_abs data Hw), elements_map_array in Hpeak.
  destruct (peak_facts _ _ Hpeak) as (_ & Hle & _).
  rewrite elements_map_array. apply Forall_forall. intros s Hs.
  apply in_map_iff in Hs as (x & <- & Hx).
  apply np_divide_bounded. now apply Hle.
Qed.

Lemma silent_abs (data : audio) :
  Forall (fun x => x = 0) (elements (values data)) ->
  Forall (fun x => x = 0) (elements (np_abs data)).
Proof.
  destruct data as [dt a|a]; cbn [values np_abs]; rewrite !elements_map_array;
    rewrite !Forall_forall; intros H y Hy; apply in_map_iff in Hy as (z & <- & Hz).
  - assert (Hz0 : IZR z = 0) by (apply H; now apply in_map).
    apply eq_IZR_R0 in Hz0. subst z. now rewrite np_abs_int_zero.
  - rewrite (H z Hz). apply Rabs_R0.
Qed.

Lemma normalize_by_peak_silent (data : audio) (out : ndarray npfloat) :
  Forall (fun x => x = 0) (elements (values data)) ->
  normalize_by_peak data = Returns out ->
  Forall (fun s => s = NotANumber) (elements out).
Proof.
  intros Hsilent H. unfold normalize_by_peak in H.
  destruct (np_max (elements (np_abs data))) as [peak|e] eqn:Hpeak; cbn [and_then] in H;
    [|discriminate].
  injection H as <-.
  apply np_max_spec in Hpeak as [Hin _].
  pose proof (silent_abs data Hsilent) as Habs.
  rewrite Forall_forall in Habs, Hsilent. rewrite (Habs peak Hin).
  rewrite elements_map_array. apply Forall_forall. intros s Hs.
  apply in_map_iff in Hs as (x & <- & Hx). rewrite (Hsilent x Hx). apply np_divide_zero.
Qed.

Lemma normalize_by_peak_len (data : audio) (out : ndarray npfloat) :
  normalize_by_peak data = Returns out -> len out = len (values data).
Proof.
  unfold normalize_by_peak. destruct (np_max _); cbn [and_then]; [|discriminate].
  intros [= <-]. apply len_map_array.
Qed.

(** *** Peaks by column *)

Lemma column_peak_bounds (first : list R) (others : list (list R)) (row : list R) (j : nat) :
  In row (first :: others) ->
  nth j row 0 <= fold_left Rmax (map (fun r => nth j r 0) others) (nth j first 0).
Proof.
  intros [<-|Hin]; [apply fold_max_ge_init|].
  apply fold_max_ge. now apply (in_map (fun r => nth j r 0)).
Qed.

Lemma nth_map_default {A B : Type} (f : A -> B) (l : list A) (j : nat) (a : A) (b : B) :
  f a = b -> nth j (map f l) b = f (nth j l a).
Proof. intros <-. apply map_nth. Qed.

Lemma nth_abs (row : list R) (j : nat) : nth j (map Rabs row) 0 = Rabs (nth j row 0).
Proof. rewrite <- Rabs_R0 at 1. apply map_nth. Qed.

Lemma normalize_by_column_peak_returns_iff (data : audio) :
  (exists out, normalize_by_column_peak data = Returns out) <->
  match values data with
  | Arr1 l => l <> []
  | Arr2 _ rows => rows <> []
  end.
Proof.
  unfold normalize_by_column_peak.
  destruct data as [dt [l|n rows]|[l|n rows]]; cbn [values np_abs map_array].
  - rewrite normalize_by_peak_returns_iff. cbn [values map_array elements].
    destruct l; cbn; split; congruence.
  - destruct rows; cbn [map]; split; try discriminate; try congruence; eauto.
    intros (out & H); discriminate.
  - rewrite normalize_by_peak_returns_iff. reflexivity.
  - destruct rows; cbn [map]; split; try discriminate; try congruence; eauto.
    intros (out & H); discriminate.
Qed.

Lemma normalize_by_column_peak_len (data : audio) (out : ndarray npfloat) :
  normalize_by_column_peak data = Returns out -> len out = len (values data).
Proof.
  unfold normalize_by_column_peak.
  destruct (values data) as [l|n rows] eqn:Hv.
  - intros H. rewrite (normalize_by_peak_len data out H), Hv. reflexivity.
  - destruct (np_abs data) as [l'|n' rows'] eqn:Ha.
    + intros H. rewrite (normalize_by_peak_len data out H), Hv. reflexivity.
    + destruct rows'; [discriminate|]. intros [= <-]. cbn [len]. apply length_map.
Qed.

Lemma normalize_by_column_peak_range (data : audio) (out : ndarray npfloat) :
  no_wrap data = true ->
  normalize_by_column_peak data = Returns out ->
  Forall unit_or_nan (elements out).
Proof.
  intros Hw H. unfold normalize_by_column_peak in H.
  rewrite (no_wrap_abs data Hw) in H.
  destruct (values data) as [l|n rows] eqn:Hv; cbn [map_array] in H.
  - now apply (normalize_by_peak_range data).
  - destruct rows as [|row0 rows']; [discriminate|].
    assert (Hm : map (map Rabs) (row0 :: rows') = map Rabs row0 :: map (map Rabs) rows')
      by reflexivity.
    rewrite Hm in H. cbv beta iota in H. clear Hm.
    remember (row0 :: rows') as rows eqn:Hrows.
    injection H as <-. unfold elements.
    apply Forall_forall. intros s Hs.
    apply in_concat in Hs as (out_row & Hrow & Hs).
    apply in_map_iff in Hrow as (row & <- & Hrow).
    apply in_map_iff in Hs as (j & <- & Hj). apply in_seq in Hj.
    apply np_divide_bounded.
    rewrite (@nth_map_seq _ _ n j 0) by lia.
    rewrite <- nth_abs.
    apply (column_peak_bounds (map Rabs row0) (map (map Rabs) rows') (map Rabs row) j).
    change (map Rabs row0 :: map (map Rabs) rows') with (map (map Rabs) (row0 :: rows')).
    rewrite <- Hrows. now apply in_map.
Qed.

(** *** Slices *)

Lemma len_slice {A : Type} (a : ndarray A) (start stop : nat) :
  (stop <= len a)%nat -> len (slice a start stop) = (stop - start)%nat.
Proof.
  intros H. destruct a as [l|n rows]; cbn [slice len] in *;
    rewrite length_firstn, length_skipn; lia.
Qed.

Lemma in_firstn {A : Type} (l : list A) (k : nat) (x : A) :
  In x (firstn k l) -> In x l.
Proof.
  revert k; induction l as [|a l IH]; intros [|k]; cbn [firstn]; try contradiction.
  intros [->|H]; [now left | right; now apply (IH k)].
Qed.

Lemma in_firstn_skipn {A : Type} (l : list A) (n k : nat) (x : A) :
  In x (firstn k (skipn n l)) -> In x l.
Proof.
  intros H. apply in_firstn in H. rewrite <- (firstn_skipn n l).
  apply in_or_app. now right.
Qed.

Lemma elements_slice {A : Type} (a : ndarray A) (start stop : nat) (x : A) :
  In x (elements (slice a start stop)) -> In x (elements a).
Proof.
  destruct a as [l|n rows]; cbn [slice elements].
  - apply in_firstn_skipn.
  - intros H. apply in_concat in H as (row & Hrow & Hx).
    apply in_concat. exists row. split; [|exact Hx].
    now apply in_firstn_skipn in Hrow.
Qed.

Lemma clamp_le (n : nat) (idx : Z) : (clamp n idx <= n)%nat.
Proof. unfold clamp. lia. Qed.

Variable whole_duration_index : Z -> nat -> Z.

Lemma load_wav_file_inv (files : wav_files) (file_path : string)
      (t_start t_end : option Z) (out : ndarray npfloat) (rate' : Z) :
  load_wav_file whole_duration_index files file_path t_start t_end = Returns (out, rate') ->
  exists data normalized,
    files file_path = Some (rate', data) /\
    normalize_by_column_peak data = Returns normalized /\
    (out = normalized \/ exists start stop, out = slice normalized start stop).
Proof.
  unfold load_wav_file.
  destruct (files file_path) as [(rate & data)|]; [|discriminate].
  destruct (normalize_by_column_peak data) as [normalized|e] eqn:Hn; cbn [and_then];
    [|discriminate].
  intros H. exists data, normalized.
  destruct t_start, t_end; try destruct (rate =? 0)%Z; try discriminate;
    injection H as <- <-; eauto 10.
Qed.

Lemma slice_whole {A : Type} (a : ndarray A) : slice a 0 (len a) = a.
Proof.
  destruct a as [l|n rows]; cbn [slice len skipn];
    now rewrite Nat.sub_0_r, firstn_all.
Qed.

Lemma frames_slice {A : Type} (a : ndarray A) (start stop : nat) :
  frames (slice a start stop) = firstn (stop - start) (skipn start (frames a)).
Proof.
  destruct a as [l|n rows]; cbn [slice frames]; [|reflexivity].
  now rewrite skipn_map, firstn_map.
Qed.

Lemma len_frames {A : Type} (a : ndarray A) : length (frames a) = len a.
Proof. destruct a; cbn [frames len]; [apply length_map | reflexivity]. Qed.

Lemma nth_error_frames_slice {A : Type} (a : ndarray A) (start stop k : nat) :
  (k < len (slice a start stop))%nat ->
  nth_error (frames (slice a start stop)) k = nth_error (frames a) (start + k).
Proof.
  rewrite <- len_frames, frames_slice. intros Hk.
  rewrite length_firstn in Hk.
  rewrite nth_error_firstn.
  destruct (Nat.ltb_spec k (stop - start)); [|lia].
  apply nth_error_skipn.
Qed.

(** X21 -- The samples that [load_wav_file] returns for a start and an end time.
    With [n] the number of samples of the file, the times are turned into
    the positions [rate * t], brought into [[0, n]], and the array returned
    is the normalised file from the first position up to the second: its
    entry [k] is entry [start + k] of the normalised file.  It holds no
    sample when the end is not after the start, never more than the file
    has, and all of them when the two times enclose the file. *)
Theorem load_wav_file_window (files : wav_files) (file_path : string)
    (rate : Z) (data : audio) (t_start t_end : Z) :
  files file_path = Some (rate, data) ->
  (0 < rate)%Z ->
  len (values data) <> 0%nat ->
  exists normalized out,
    normalize_by_column_peak data = Returns normalized /\
    len normalized = len (values data) /\
    load_wav_file whole_duration_index files file_path (Some t_start) (Some t_end)
      = Returns (out, rate) /\
    out = slice normalized (clamp (len (values data)) (rate * t_start))
                           (clamp (len (values data)) (rate * t_end)) /\
    len out = (clamp (len (values data)) (rate * t_end)
               - clamp (len (values data)) (rate * t_start))%nat /\
    (forall k, (k < len out)%nat ->
       nth_error (frames out) k =
       nth_error (frames normalized) (clamp (len (values data)) (rate * t_start) + k)) /\
    (len out <= len (values data))%nat /\
    ((t_end <= t_start)%Z -> len out = 0%nat) /\
    ((t_start <= 0)%Z -> (Z.of_nat (len (values data)) <= rate * t_end)%Z ->
     out = normalized).
Proof.
  intros Hfile Hrate Hlen.
  destruct (proj2 (normalize_by_column_peak_returns_iff data)) as (normalized & Hn).
  { destruct (values data) as [l|n rows]; cbn [len] in Hlen;
      intros ->; now apply Hlen. }
  pose proof (normalize_by_column_peak_len data normalized Hn) as Hnlen.
  exists normalized,
         (slice normalized (clamp (len normalized) (rate * t_start))
                (clamp (len normalized) (rate * t_end))).
  split; [exact Hn|]. split; [exact Hnlen|].
  split.
  { unfold load_wav_file. rewrite Hfile, Hn. cbn [and_then].
    destruct (Z.eqb_spec rate 0); [lia | reflexivity]. }
  rewrite Hnlen.
  set (n := len (values data)) in *.
  split; [reflexivity|].
  assert (Hl : len (slice normalized (clamp n (rate * t_start)) (clamp n (rate * t_end)))
               = (clamp n (rate * t_end) - clamp n (rate * t_start))%nat).
  { apply len_slice. rewrite Hnlen. apply clamp_le. }
  split; [exact Hl|].
  split; [intros k Hk; now apply nth_error_frames_slice|].
  rewrite Hl.
  split; [pose proof (clamp_le n (rate * t_end)); lia|].
  split.
  - intros Hts. unfold clamp.
    assert (rate * t_end <= rate * t_start)%Z by nia. lia.
  - intros Hs He.
    assert (H0 : clamp n (rate * t_start) = 0%nat)
      by (unfold clamp; assert (rate * t_start <= 0)%Z by nia; lia).
    assert (H1 : clamp n (rate * t_end) = n) by (unfold clamp; lia).
    rewrite H0, H1, <- Hnlen. apply slice_whole.
Qed.

(** X22 -- Every sample that [load_wav_file] returns from a file without
    wrap-around is a number between -1 and 1, or nan. *)
Theorem load_wav_file_range (files : wav_files) (file_path : string)
    (t_start t_end : option Z) (rate : Z) (data : audio)
    (out : ndarray npfloat) (rate' : Z) :
  files file_path = Some (rate, data) ->
  no_wrap data = true ->
  load_wav_file whole_duration_index files file_path t_start t_end = Returns (out, rate') ->
  Forall unit_or_nan (elements out).
Proof.
  intros Hfile Hw Hrun.
  destruct (load_wav_file_inv _ _ _ _ _ _ Hrun) as (data' & normalized & Hfile' & Hn & Hout).
  assert (data' = data) by congruence. subst data'.
  pose proof (normalize_by_column_peak_range data normalized Hw Hn) as Hrange.
  destruct Hout as [->|(start & stop & ->)]; [exact Hrange|].
  rewrite Forall_forall in *. intros s Hs. apply Hrange.
  now apply elements_slice in Hs.
Qed.

(** X23 -- A silent channel.  When column [j] of a file of several channels holds
    zeros only, column [j] of what [load_wav_file] returns holds nan only:
    the peak of the column is zero and numpy divides zero by zero. *)
Theorem load_wav_file_silent_channel (files : wav_files) (file_path : string)
    (t_start t_end : option Z) (rate : Z) (data : audio) (ncols : nat)
    (rows : list (list R)) (j : nat) (out : ndarray npfloat) (rate' : Z) :
  files file_path = Some (rate, data) ->
  values data = Arr2 ncols rows ->
  (j < ncols)%nat ->
  (forall row, In row rows -> nth j row 0 = 0) ->
  load_wav_file whole_duration_index files file_path t_start t_end = Returns (out, rate') ->
  exists rows',
    out = Arr2 ncols rows' /\
    forall row', In row' rows' -> nth j row' (Num 0) = NotANumber.
Proof.
  intros Hfile Hv Hj Hsilent Hrun.
  destruct (load_wav_file_inv _ _ _ _ _ _ Hrun) as (data' & normalized & Hfile' & Hn & Hout).
  assert (data' = data) by congruence. subst data'.
  assert (Hnorm : exists nrows,
             normalized = Arr2 ncols nrows /\
             forall row', In row' nrows -> nth j row' (Num 0) = NotANumber).
  { unfold normalize_by_column_peak in Hn. rewrite Hv in Hn.
    destruct (np_abs data) as [l|n' arows] eqn:Ha.
    { destruct data as [dt a|a]; cbn [values np_abs] in *;
        destruct a; cbn [map_array] in *; discriminate. }
    assert (Habs : forall arow, In arow arows -> nth j arow 0 = 0).
    { destruct data as [dt [l|n zrows]|[l|n frows]]; cbn [values np_abs map_array] in *;
        try discriminate.
      - injection Hv as <- <-. injection Ha as <- <-.
        intros arow Harow. apply in_map_iff in Harow as (zrow & <- & Hzrow).
        assert (H0 : nth j (map IZR zrow) 0 = 0) by (apply Hsilent; now apply in_map).
        rewrite (nth_map_default IZR zrow j 0%Z 0 eq_refl) in H0.
        apply eq_IZR_R0 in H0.
        rewrite (nth_map_default (fun z => IZR (np_abs_int dt z)) zrow j 0%Z 0)
          by (now rewrite np_abs_int_zero).
        now rewrite H0, np_abs_int_zero.
      - injection Hv as <- <-. injection Ha as <- <-.
        intros arow Harow. apply in_map_iff in Harow as (frow & <- & Hfrow).
        rewrite nth_abs, (Hsilent frow Hfrow). apply Rabs_R0. }
    destruct arows as [|first others]; [discriminate|].
    injection Hn as <-. eexists. split; [reflexivity|].
    intros row' Hrow'. apply in_map_iff in Hrow' as (row & <- & Hrow).
    rewrite (@nth_map_seq _ _ ncols j (Num 0)) by exact Hj.
    rewrite (Hsilent row Hrow).
    rewrite (@nth_map_seq _ _ ncols j 0) by exact Hj.
    replace (fold_left Rmax (map (fun r => nth j r 0) others) (nth j first 0)) with 0;
      [apply np_divide_zero|].
    destruct (fold_max_attained (map (fun r => nth j r 0) others) (nth j first 0)) as [H|H].
    - rewrite H. symmetry. apply Habs. now left.
    - apply in_map_iff in H as (r & Hr & Hin). rewrite <- Hr. symmetry. apply Habs. now right. }
  destruct Hnorm as (nrows & -> & Hnan).
  destruct Hout as [->|(start & stop & ->)]; cbn [slice]; eexists; split;
    try reflexivity; [exact Hnan|].
  intros row' Hrow'. apply Hnan. now apply in_firstn_skipn in Hrow'.
Qed.
End Loading.

Lemma load_wav_file_window_witness :
  exists normalized out,
    normalize_by_column_peak (IntAudio int16 (Arr1 [1; 2; 3; 4; 5; 6; 7; 8]%Z))
      = Returns normalized /\
    load_wav_file (fun _ n => Z.of_nat n)
      (fun _ => Some (2%Z, IntAudio int16 (Arr1 [1; 2; 3; 4; 5; 6; 7; 8]%Z)))
      "recording.wav" (Some 1%Z) (Some 3%Z)
      = Returns (out, 2%Z) /\
    len out = 4%nat /\
    forall k, (k < 4)%nat ->
      nth_error (frames out) k = nth_error (frames normalized) (2 + k).
Proof.
  destruct (load_wav_file_window (fun _ n => Z.of_nat n)
              (fun _ => Some (2%Z, IntAudio int16 (Arr1 [1; 2; 3; 4; 5; 6; 7; 8]%Z)))
              "recording.wav" 2%Z (IntAudio int16 (Arr1 [1; 2; 3; 4; 5; 6; 7; 8]%Z))
              1%Z 3%Z) as (normalized & out & Hn & _ & Hrun & _ & Hlen & Hitems & _).
  - reflexivity.
  - lia.
  - discriminate.
  - exists normalized, out. split; [exact Hn|]. split; [exact Hrun|].
    split; [exact Hlen|].
    intros k Hk. apply Hitems. rewrite Hlen. exact Hk.
Defined.

Lemma load_wav_file_range_witness :
  exists out,
    load_wav_file (fun _ n => Z.of_nat n)
      (fun _ => Some (2%Z, IntAudio int16 (Arr1 [1; -2; 3]%Z))) "recording.wav" None None
      = Returns (out, 2%Z) /\
    Forall unit_or_nan (elements out).
Proof.
  destruct (proj2 (normalize_by_column_peak_returns_iff
                     (IntAudio int16 (Arr1 [1; -2; 3]%Z)))) as (normalized & Hn);
    [discriminate|].
  assert (Hrun : load_wav_file (fun _ n => Z.of_nat n)
                   (fun _ => Some (2%Z, IntAudio int16 (Arr1 [1; -2; 3]%Z)))
                   "recording.wav" None None = Returns (normalized, 2%Z))
    by (unfold load_wav_file; rewrite Hn; reflexivity).
  exists normalized. split; [exact Hrun|].
  apply (load_wav_file_range (fun _ n => Z.of_nat n)
           (fun _ => Some (2%Z, IntAudio int16 (Arr1 [1; -2; 3]%Z))) "recording.wav"
           None None 2%Z (IntAudio int16 (Arr1 [1; -2; 3]%Z)) normalized 2%Z);
    [reflexivity | reflexivity | exact Hrun].
Defined.

Lemma load_wav_file_silent_channel_witness :
  exists out rows',
    load_wav_file (fun _ n => Z.of_nat n)
      (fun _ => Some (2%Z, IntAudio int16 (Arr2 2 [[5; 0]; [-7; 0]]%Z))) "recording.wav"
      None None = Returns (out, 2%Z) /\
    out = Arr2 2 rows' /\
    forall row', In row' rows' -> nth 1 row' (Num 0) = NotANumber.
Proof.
  destruct (proj2 (normalize_by_column_peak_returns_iff
                     (IntAudio int16 (Arr2 2 [[5; 0]; [-7; 0]]%Z)))) as (normalized & Hn);
    [discriminate|].
  assert (Hrun : load_wav_file (fun _ n => Z.of_nat n)
                   (fun _ => Some (2%Z, IntAudio int16 (Arr2 2 [[5; 0]; [-7; 0]]%Z)))
                   "recording.wav" None None = Returns (normalized, 2%Z))
    by (unfold load_wav_file; rewrite Hn; reflexivity).
  destruct (load_wav_file_silent_channel (fun _ n => Z.of_nat n)
              (fun _ => Some (2%Z, IntAudio int16 (Arr2 2 [[5; 0]; [-7; 0]]%Z)))
              "recording.wav" None None 2%Z (IntAudio int16 (Arr2 2 [[5; 0]; [-7; 0]]%Z))
              2 [[5; 0]; [-7; 0]]%R 1 normalized 2%Z) as (rows' & Hshape & Hnan).
  - reflexivity.
  - reflexivity.
  - lia.
  - intros row [<-|[<-|[]]]; reflexivity.
  - exact Hrun.
  - exists normalized, rows'. auto.
Defined.

Section Folder.
Local Open Scope R_scope.

Lemma regular_files_app (entries entries' : list glob_entry) :
  regular_files (entries ++ entries') = regular_files entries ++ regular_files entries'.
Proof.
  induction entries as [|[r d|] entries IH]; cbn [app regular_files];
    [reflexivity | now rewrite IH | exact IH].
Qed.

(** The loop, from any state: the recordings read so far are kept, one
    recording is added per regular file, and the rate is that of the last
    regular file, or the one held before when there is none. *)
Lemma read_entries_spec (entries : list glob_entry) (acc : list (ndarray npfloat))
      (rate : option Z) :
  match read_entries entries acc rate with
  | Returns (recs, rate') =>
      exists new,
        recs = acc ++ new /\
        Forall2 (fun f rec => normalize_by_peak (snd f) = Returns rec)
                (regular_files entries) new /\
        rate' = fold_left (fun _ f => Some (fst f)) (regular_files entries) rate
  | Raises e =>
      e = ZeroSizeReduction /\
      Exists (fun f => elements (values (snd f)) = []) (regular_files entries)
  end.
Proof.
  revert acc rate; induction entries as [|[r d|] entries IH]; intros acc rate;
    cbn [read_entries regular_files].
  - exists []. rewrite app_nil_r. repeat split; constructor.
  - destruct (normalize_by_peak d) as [rec|e] eqn:Hd; cbn [and_then].
    + specialize (IH (acc ++ [rec]) (Some r)).
      destruct (read_entries entries (acc ++ [rec]) (Some r)) as [(recs & rate')|e].
      * destruct IH as (new & -> & Hall & ->).
        exists (rec :: new). rewrite <- app_assoc. repeat split; try reflexivity.
        constructor; assumption.
      * destruct IH as (-> & Hex). split; [reflexivity|]. now apply Exists_cons_tl.
    + assert (Hempty : elements (values d) = []).
      { destruct (elements (values d)) eqn:He; [reflexivity|].
        destruct (proj2 (normalize_by_peak_returns_iff d)) as (out & Hout);
          [rewrite He; discriminate | congruence]. }
      unfold normalize_by_peak in Hd.
      apply elements_values_abs_empty in Hempty as Habs. rewrite Habs in Hd.
      cbn in Hd. injection Hd as <-. split; [reflexivity|].
      now apply Exists_cons_hd.
  - apply IH.
Qed.

Lemma Forall2_in_left {A B : Type} (P : A -> B -> Prop) (l : list A) (l' : list B) (a : A) :
  Forall2 P l l' -> In a l -> exists b, In b l' /\ P a b.
Proof.
  induction 1 as [|x y l l' Hxy _ IH]; intros Hin; [contradiction|].
  destruct Hin as [->|Hin].
  - exists y. split; [now left | exact Hxy].
  - destruct (IH Hin) as (b & Hb & Hab). exists b. split; [now right | exact Hab].
Qed.

Lemma last_rate (files : list (Z * audio)) (rate : option Z) :
  fold_left (fun _ f => Some (fst f)) files rate =
  match rev files with
  | [] => rate
  | f :: _ => Some (fst f)
  end.
Proof.
  revert rate; induction files as [|f files IH]; intros rate; cbn [fold_left rev];
    [reflexivity|].
  rewrite IH. destruct (rev files); reflexivity.
Qed.

(** X25 -- [load_microphone_recordings] raises in two cases and no other: a regular
    file without sample makes [np.max] raise; and when the folder holds no
    regular file, the variable [rate] of the [return] statement was never
    assigned. *)
Theorem load_microphone_recordings_raises (glob : string -> list glob_entry)
    (folder_path : string) (e : recordings_error) :
  load_microphone_recordings glob folder_path = Raises e <->
  (e = ZeroSizeReduction /\
   Exists (fun f => elements (values (snd f)) = []) (regular_files (glob folder_path))) \/
  (e = UnboundLocalError /\ regular_files (glob folder_path) = []).
Proof.
  unfold load_microphone_recordings.
  pose proof (read_entries_spec (glob folder_path) [] None) as Hspec.
  destruct (read_entries (glob folder_path) [] None) as [(recs & rate)|e'];
    cbn [and_then].
  - destruct Hspec as (new & -> & Hall & ->). rewrite last_rate.
    destruct (regular_files (glob folder_path)) as [|f files] eqn:Hfiles.
    + cbn [rev]. split.
      * intros [= <-]. now right.
      * intros [[_ Hex]|[-> _]]; [inversion Hex | reflexivity].
    + destruct (rev (f :: files)) as [|l rest] eqn:Hrev.
      { apply (f_equal (@length _)) in Hrev. rewrite length_rev in Hrev. discriminate. }
      split; [discriminate|].
      intros [[_ Hex]|[_ H]]; [|discriminate].
      exfalso. apply Exists_exists in Hex as (g & Hg & Hempty).
      destruct (Forall2_in_left _ _ _ _ Hall Hg) as (rec & _ & Hrec).
      destruct (proj1 (normalize_by_peak_returns_iff (snd g))); eauto.
  - destruct Hspec as (-> & Hex). split.
    + intros [= <-]. now left.
    + intros [[-> _]|[_ Hnone]]; [reflexivity|].
      rewrite Hnone in Hex. inversion Hex.
Qed.

(** X26 -- What [load_microphone_recordings] returns: one recording per regular
    file of the folder, in the order of the listing, each with as many
    samples as its file; and the sample rate of the last regular file,
    whatever the rates of the others. *)
Theorem load_microphone_recordings_returns (glob : string -> list glob_entry)
    (folder_path : string) (mic_recordings : list (ndarray npfloat)) (rate : Z) :
  load_microphone_recordings glob folder_path = Returns (mic_recordings, rate) ->
  Forall2 (fun f rec => len rec = len (values (snd f)))
          (regular_files (glob folder_path)) mic_recordings /\
  exists before data, regular_files (glob folder_path) = before ++ [(rate, data)].
Proof.
  unfold load_microphone_recordings.
  pose proof (read_entries_spec (glob folder_path) [] None) as Hspec.
  destruct (read_entries (glob folder_path) [] None) as [(recs & rate')|e'];
    cbn [and_then]; [|discriminate].
  destruct Hspec as (new & -> & Hall & ->). rewrite last_rate.
  destruct (rev (regular_files (glob folder_path))) as [|(r & d) rest] eqn:Hrev;
    [discriminate|].
  intros [= <- <-]. cbn [app]. split.
  - eapply Forall2_impl; [|exact Hall].
    intros f rec Hrec. now apply normalize_by_peak_len.
  - exists (rev rest), d.
    rewrite <- (rev_involutive (regular_files (glob folder_path))), Hrev.
    reflexivity.
Qed.

(** X27 -- The samples of what [load_microphone_recordings] returns: from a file
    without wrap-around, numbers between -1 and 1, or nan; from a file that
    holds zeros only, nan only. *)
Theorem load_microphone_recordings_samples (glob : string -> list glob_entry)
    (folder_path : string) (mic_recordings : list (ndarray npfloat)) (rate : Z) :
  load_microphone_recordings glob folder_path = Returns (mic_recordings, rate) ->
  Forall2 (fun f rec =>
             (no_wrap (snd f) = true -> Forall unit_or_nan (elements rec)) /\
             (Forall (fun x => x = 0) (elements (values (snd f))) ->
              Forall (fun s => s = NotANumber) (elements rec)))
          (regular_files (glob folder_path)) mic_recordings.
Proof.
  unfold load_microphone_recordings.
  pose proof (read_entries_spec (glob folder_path) [] None) as Hspec.
  destruct (read_entries (glob folder_path) [] None) as [(recs & rate')|e'];
    cbn [and_then]; [|discriminate].
  destruct Hspec as (new & -> & Hall & ->).
  destruct (fold_left _ _ None); [|discriminate].
  intros [= <- <-]. cbn [app].
  eapply Forall2_impl; [|exact Hall].
  intros f rec Hrec. split.
  - intros Hw. now apply (normalize_by_peak_range (snd f)).
  - intros Hs. now apply (normalize_by_peak_silent (snd f)).
Qed.
End Folder.

Lemma load_microphone_recordings_total (glob : string -> list glob_entry)
      (folder_path : string) :
  regular_files (glob folder_path) <> [] ->
  Forall (fun f => elements (values (snd f)) <> []) (regular_files (glob folder_path)) ->
  exists mic_recordings rate,
    load_microphone_recordings glob folder_path = Returns (mic_recordings, rate).
Proof.
  intros Hne Hall. unfold load_microphone_recordings.
  pose proof (read_entries_spec (glob folder_path) [] None) as Hspec.
  destruct (read_entries (glob folder_path) [] None) as [(recs & rate)|e]; cbn [and_then].
  - destruct Hspec as (new & -> & _ & ->). rewrite last_rate.
    destruct (rev (regular_files (glob folder_path))) as [|f rest] eqn:Hrev; [|eauto].
    apply (f_equal (@rev _)) in Hrev. rewrite rev_involutive in Hrev. contradiction.
  - destruct Hspec as (_ & Hex). exfalso.
    apply Exists_exists in Hex as (f & Hf & Hempty).
    rewrite Forall_forall in Hall. now apply (Hall f Hf).
Qed.

Lemma load_microphone_recordings_returns_witness :
  exists mic_recordings rate,
    load_microphone_recordings
      (fun _ => [RegularFile 44100 (IntAudio int16 (Arr1 [1; -2; 3]%Z)); NotAFile;
                 RegularFile 48000 (FloatAudio (Arr1 [0; 0]%R))])
      "sweeps" = Returns (mic_recordings, rate) /\
    rate = 48000%Z /\ length mic_recordings = 2.
Proof.
  destruct (load_microphone_recordings_total
              (fun _ => [RegularFile 44100 (IntAudio int16 (Arr1 [1; -2; 3]%Z)); NotAFile;
                         RegularFile 48000 (FloatAudio (Arr1 [0; 0]%R))]) "sweeps")
    as (recs & rate & Hrun).
  - discriminate.
  - repeat constructor; discriminate.
  - exists recs, rate. split; [exact Hrun|].
    destruct (load_microphone_recordings_returns _ _ _ _ Hrun)
      as (Hshape & before & data & Hlast).
    split.
    + cbn [regular_files] in Hlast.
      destruct before as [|b0 [|b1 [|b2 before]]]; cbn [app] in Hlast;
        try discriminate; congruence.
    + apply Forall2_length in Hshape. cbn [regular_files length] in Hshape. lia.
Defined.

Lemma load_microphone_recordings_samples_witness :
  exists mic_recordings rate,
    load_microphone_recordings
      (fun _ => [RegularFile 44100 (IntAudio int16 (Arr1 [1; -2; 3]%Z)); NotAFile;
                 RegularFile 48000 (FloatAudio (Arr1 [0; 0]%R))])
      "sweeps" = Returns (mic_recordings, rate) /\
    Forall (fun rec => Forall unit_or_nan (elements rec)) mic_recordings.
Proof.
  destruct (load_microphone_recordings_total
              (fun _ => [RegularFile 44100 (IntAudio int16 (Arr1 [1; -2; 3]%Z)); NotAFile;
                         RegularFile 48000 (FloatAudio (Arr1 [0; 0]%R))]) "sweeps")
    as (recs & rate & Hrun).
  - discriminate.
  - repeat constructor; discriminate.
  - exists recs, rate. split; [exact Hrun|].
    pose proof (load_microphone_recordings_samples _ _ _ _ Hrun) as Hs.
    cbn [regular_files] in Hs.
    inversion Hs as [|f0 r0 l0 l0' [H0 _] Hs']; subst.
    inversion Hs' as [|f1 r1 l1 l1' [H1 _] Hs'']; subst.
    inversion Hs''; subst.
    repeat constructor; [apply H0 | apply H1]; reflexivity.
Defined.

Section LoadingErrors.
Variable whole_duration_index : Z -> nat -> Z.

Lemma normalize_by_column_peak_outcome (data : audio) :
  (len (values data) = 0 /\ normalize_by_column_peak data = Raises ZeroSizeReduction) \/
  (len (values data) <> 0 /\ exists out, normalize_by_column_peak data = Returns out).
Proof.
  destruct (Nat.eq_dec (len (values data)) 0) as [H0|H0]; [left | right]; split;
    try assumption.
  - unfold normalize_by_column_peak, normalize_by_peak.
    destruct data as [dt [l|n rows]|[l|n rows]]; cbn [values np_abs map_array len] in *;
      rewrite length_map in H0 || idtac;
      apply length_zero_iff_nil in H0; subst; reflexivity.
  - apply normalize_by_column_peak_returns_iff.
    destruct (values data) as [l|n rows]; cbn [len] in H0; intros ->; now apply H0.
Qed.

(** X24 -- [load_wav_file] raises in three cases and no other: there is no file at
    the path; the file has no sample, and [np.max] raises; a time is given
    and the sample rate of the file is 0, and the duration cannot be
    computed.  Without a time, a file whose rate is 0 is returned. *)
Theorem load_wav_file_raises (files : wav_files) (file_path : string)
    (t_start t_end : option Z) (e : recordings_error) :
  load_wav_file whole_duration_index files file_path t_start t_end = Raises e <->
  (e = WavFileNotFound /\ files file_path = None) \/
  (e = ZeroSizeReduction /\
   exists rate data, files file_path = Some (rate, data) /\ len (values data) = 0) \/
  (e = RateZeroDivision /\
   exists data, files file_path = Some (0%Z, data) /\ len (values data) <> 0 /\
                (t_start <> None \/ t_end <> None)).
Proof.
  unfold load_wav_file.
  destruct (files file_path) as [(rate & data)|] eqn:Hfile.
  - destruct (normalize_by_column_peak_outcome data) as [[H0 ->]|[H0 (out & ->)]];
      cbn [and_then].
    + split.
      * intros [= <-]. right; left. split; [reflexivity|]. eauto.
      * intros [[_ H]|[[-> _]|(_ & d & [= _ <-] & Hne & _)]];
          [discriminate | reflexivity | contradiction].
    + assert (Hnone : forall x : recordings_error,
                 ~ ((x = WavFileNotFound /\ Some (rate, data) = None) \/
                    (x = ZeroSizeReduction /\
                     exists rate0 data0, Some (rate, data) = Some (rate0, data0) /\
                                         len (values data0) = 0))).
      { intros x [[_ H]|(_ & r & d & [= _ <-] & Hz)]; [discriminate | contradiction]. }
      destruct t_start as [ts|], t_end as [te|];
        try (destruct (Z.eqb_spec rate 0) as [Hz|Hnz];
             [subst rate; split;
              [intros [= <-]; right; right; split; [reflexivity|];
               exists data; repeat split; try assumption;
               (left; discriminate) || (right; discriminate)
              |intros [H|[H|(-> & _)]]; [| |reflexivity];
               exfalso; apply (Hnone e); tauto]
             |split; [discriminate|];
              intros [H|[H|(_ & d & [= Hr _] & _)]]; [| |contradiction];
              exfalso; apply (Hnone e); tauto]).
      split; [discriminate|].
      intros [H|[H|(_ & d & _ & _ & [Hc|Hc])]]; try congruence;
        exfalso; apply (Hnone e); tauto.
  - split.
    + intros [= <-]. now left.
    + intros [[-> _]|[(_ & r & d & H & _)|(_ & d & H & _)]];
        [reflexivity | discriminate | discriminate].
Qed.
End LoadingErrors.

(** ** The script [callibrateMicrophones.py] *)

Section CalibrationScript.
Variable codec : float_codec R.

Lemma align_one_first_channel (ref_signal : list R) (mic : ndarray R) (mic_signal : list R) :
  first_channel 0%R mic = Ok mic_signal ->
  align_one 0%R Rplus Rmult Rgtb ref_signal mic =
  align_one 0%R Rplus Rmult Rgtb ref_signal (Arr1 mic_signal).
Proof. intros H. unfold align_one. rewrite H. reflexivity. Qed.

(** The alignment of the script returns when every recording has a first
    channel with a sample, and then every aligned signal has as many samples
    as the first channel of the first recording. *)
Lemma script_alignment (mic_recordings : list (ndarray R)) (first_recording : ndarray R)
      (ref_signal : list R) :
  first_channel 0%R first_recording = Ok ref_signal ->
  ref_signal <> [] ->
  Forall (fun r => exists s, first_channel 0%R r = Ok s /\ s <> []) mic_recordings ->
  exists aligned,
    align_signals 0%R Rplus Rmult Rgtb first_recording mic_recordings = Ok aligned /\
    length aligned = length mic_recordings /\
    Forall (fun s => length s = length ref_signal) aligned.
Proof.
  intros Href Hne Hall. unfold align_signals. rewrite Href. cbn [bind].
  destruct (@for_each_ok _ _ (align_one 0%R Rplus Rmult Rgtb ref_signal) mic_recordings)
    as (aligned & Haligned).
  { intros mic Hin. rewrite Forall_forall in Hall.
    destruct (Hall mic Hin) as (s & Hs & Hsne).
    rewrite (align_one_first_channel ref_signal mic s Hs).
    now apply align_one_total. }
  exists aligned. split; [exact Haligned|].
  split; [exact (@for_each_length _ _ _ _ _ Haligned)|].
  eapply for_each_Forall; [|exact Haligned].
  intros mic s _ Hs. eapply align_one_length; eauto.
Qed.

(** X28 -- With a single recording in the folder the script raises [IndexError]:
    the alignment returns one signal and the analysis, set up with
    [ref_mic_index=1], takes the second.  Nothing is written. *)
Theorem callibrateMicrophones_single_recording (recording : ndarray R)
    (signal : list R) (rate : Z) (fs : filesystem) :
  first_channel 0%R recording = Ok signal ->
  signal <> [] ->
  callibrateMicrophones codec [recording] rate fs = Err IndexError.
Proof.
  intros Hs Hne. unfold callibrateMicrophones.
  change (py_index [recording] 0) with (Ok recording). cbn [bind].
  destruct (script_alignment [recording] recording signal Hs Hne) as (aligned & -> & Hlen & _).
  { constructor; [eauto | constructor]. }
  cbn [bind].
  destruct aligned as [|a [|b aligned]]; try discriminate.
  reflexivity.
Qed.

(** X29 -- With two recordings or more, each with a first channel that has a
    sample, and a sample rate that is not zero, the script writes the
    calibration file and nothing else: the table in it has one factor row
    per recording and [N // 2 + 1] bins and entries per row, [N] being the
    number of samples of the first recording. *)
Theorem callibrateMicrophones_writes_table (mic_recordings : list (ndarray R))
    (first_recording : ndarray R) (ref_signal : list R) (rate : Z) (fs : filesystem) :
  nth_error mic_recordings 0 = Some first_recording ->
  first_channel 0%R first_recording = Ok ref_signal ->
  2 <= length mic_recordings ->
  Forall (fun r => exists s, first_channel 0%R r = Ok s /\ s <> []) mic_recordings ->
  rate <> 0%Z ->
  exists tbl,
    callibrateMicrophones codec mic_recordings rate fs =
      Ok (write_file fs "data/calibrationData/calibration_data.json"
            (encode codec (document (Some tbl)))) /\
    length (calibration_factors tbl) = length mic_recordings /\
    length (frequency_bins tbl) = length ref_signal / 2 + 1 /\
    Forall (fun row => length row = length (frequency_bins tbl)) (calibration_factors tbl).
Proof.
  intros Hfirst Href Hlen Hall Hrate.
  assert (Hne : ref_signal <> []).
  { rewrite Forall_forall in Hall.
    destruct (Hall first_recording) as (s & Hs & Hsne);
      [eapply nth_error_In; eauto | congruence]. }
  unfold callibrateMicrophones.
  change (py_index mic_recordings 0) with (py_index mic_recordings (Z.of_nat 0)).
  rewrite (py_index_nat mic_recordings 0), Hfirst. cbn [bind].
  destruct (script_alignment mic_recordings first_recording ref_signal Href Hne Hall)
    as (aligned & -> & Halen & Hsame).
  cbn [bind].
  destruct aligned as [|a0 [|a1 aligned]]; cbn [length] in Halen; try lia.
  assert (Ha1 : length a1 = length ref_signal).
  { rewrite Forall_forall in Hsame. apply Hsame. right. now left. }
  destruct (analyze_frequency_response_rows (init 1) (a0 :: a1 :: aligned) rate a1)
    as (factors & -> & Hflen & Hrows).
  - reflexivity.
  - intros ->. destruct ref_signal; [congruence | discriminate].
  - exact Hrate.
  - cbn [bind calibration_data].
    eexists. split; [reflexivity|].
    cbn [calibration_factors frequency_bins].
    rewrite rfftfreq_length, Ha1.
    split; [cbn [length] in *; lia|]. split; [reflexivity|].
    apply Forall_forall. intros row Hrow.
    destruct (In_nth_error _ _ Hrow) as (i & Hi).
    assert (Hi' : i < length (a0 :: a1 :: aligned))
      by (rewrite <- Hflen; apply nth_error_Some; congruence).
    destruct (nth_error (a0 :: a1 :: aligned) i) as [mic|] eqn:Hmic;
      [|apply nth_error_None in Hmic; lia].
    destruct (Hrows i mic Hmic) as (row' & Hrow' & Hrowlen & _).
    rewrite Ha1 in Hrowlen. congruence.
Qed.
End CalibrationScript.

Lemma callibrateMicrophones_single_recording_witness :
  callibrateMicrophones (FloatCodec (fun _ => Finite) 0%R 0%R 0%R (fun _ => []) (fun _ => None))
    [Arr1 [1; 2; 3]%R] 48000 (fun _ => None) = Err IndexError.
Proof.
  apply (callibrateMicrophones_single_recording
           (FloatCodec (fun _ => Finite) 0%R 0%R 0%R (fun _ => []) (fun _ => None))
           (Arr1 [1; 2; 3]%R) [1; 2; 3]%R).
  - reflexivity.
  - discriminate.
Defined.

Lemma callibrateMicrophones_writes_table_witness :
  exists tbl,
    callibrateMicrophones
      (FloatCodec (fun _ => Finite) 0%R 0%R 0%R (fun _ => []) (fun _ => None))
      [Arr1 [1; 2; 3]%R; Arr2 2 [[4; 9]; [5; 9]]%R] 48000 (fun _ => None) =
      Ok (write_file (fun _ => None) "data/calibrationData/calibration_data.json"
            (encode (FloatCodec (fun _ => Finite) 0%R 0%R 0%R (fun _ => []) (fun _ => None))
                    (document (Some tbl)))) /\
    length (calibration_factors tbl) = 2 /\
    length (frequency_bins tbl) = 2.
Proof.
  destruct (callibrateMicrophones_writes_table
              (FloatCodec (fun _ => Finite) 0%R 0%R 0%R (fun _ => []) (fun _ => None))
              [Arr1 [1; 2; 3]%R; Arr2 2 [[4; 9]; [5; 9]]%R]
              (Arr1 [1; 2; 3]%R) [1; 2; 3]%R 48000 (fun _ => None))
    as (tbl & Hrun & Hrows & Hbins & _).
  - reflexivity.
  - reflexivity.
  - simpl. lia.
  - constructor; [exists [1; 2; 3]%R; split; [reflexivity | discriminate]|].
    constructor; [exists [4; 5]%R; split; [reflexivity | discriminate]|].
    constructor.
  - discriminate.
  - exists tbl. auto.
Defined.
